(** * pdatautil: deterministic structural hash of pcommon values

    A shallow embedding of [internal/coreinternal/pdatautil/hash.go]:
    the canonical encoder ([writeValueHash], [writeMapHash],
    [writeSliceHash]), the widening of the 64-bit xxhash sum to sixteen
    bytes ([hashSum128]) and the two entry points [MapHash] and
    [ValueHash], together with the properties the specification states
    about them. *)

From Stdlib Require Import ZArith Lia List Permutation.
From Stdlib Require Import Strings.Byte Strings.String.
From stdpp Require Import base tactics option list.
Import ListNotations.
Local Open Scope Z_scope.

(** ** Bytes *)

Definition byteZ (b : byte) : Z := Z.of_N (Byte.to_N b).

Definition Zbyte (z : Z) : byte :=
  match Byte.of_N (Z.to_N (z mod 256)) with
  | Some b => b
  | None => x00
  end.

#[global] Instance byte_eq_decision : EqDecision byte := Byte.byte_eq_dec.

(** ** The digest engine: github.com/cespare/xxhash/v2

    [hash.go] obtains its [hash.Hash] from [xxhash.New()].  The digest is
    represented by the bytes written since the last [Reset]; [Sum64] is
    XXH64 with seed 0 of those bytes, and [Sum] appends its eight bytes,
    most significant first, as the library does. *)

Module xxhash.

Definition prime1 : Z := 11400714785074694791.
Definition prime2 : Z := 14029467366897019727.
Definition prime3 : Z := 1609587929392839161.
Definition prime4 : Z := 9650029242287828579.
Definition prime5 : Z := 2870177450012600261.

Definition two64 : Z := 18446744073709551616.

(** uint64 arithmetic wraps around. *)
Definition u64 (x : Z) : Z := x mod two64.

Definition rol (r x : Z) : Z :=
  u64 (Z.lor (Z.shiftl x r) (Z.shiftr x (64 - r))).

Definition round (acc input : Z) : Z :=
  u64 (rol 31 (u64 (acc + input * prime2)) * prime1).

Definition mergeRound (acc val : Z) : Z :=
  u64 (Z.lxor acc (round 0 val) * prime1 + prime4).

(** Little-endian read of a byte string (u64 and u32 of the library). *)
Fixpoint le (bs : list byte) : Z :=
  match bs with
  | [] => 0
  | b :: bs' => byteZ b + 256 * le bs'
  end.

Record Digest := mkDigest { written : list byte }.

Definition New : Digest := mkDigest [].
Definition Reset (d : Digest) : Digest := mkDigest [].
Definition Write (d : Digest) (b : list byte) : Digest :=
  mkDigest (written d ++ b).

(** The four lanes over the full 32-byte blocks. *)
Fixpoint writeBlocks (fuel : nat) (v : Z * Z * Z * Z) (b : list byte)
  : (Z * Z * Z * Z) * list byte :=
  match fuel with
  | O => (v, b)
  | S fuel' =>
      if (32 <=? length b)%nat then
        let '(v1, v2, v3, v4) := v in
        writeBlocks fuel'
          (round v1 (le (take 8 b)),
           round v2 (le (take 8 (drop 8 b))),
           round v3 (le (take 8 (drop 16 b))),
           round v4 (le (take 8 (drop 24 b))))
          (drop 32 b)
      else (v, b)
  end.

(** The steps of the final mix for an 8-byte word, a 4-byte word and a
single byte. *)
Definition mixWord64 (h k : Z) : Z :=
  u64 (rol 27 (Z.lxor h (round 0 k)) * prime1 + prime4).

Definition mixWord32 (h k : Z) : Z :=
  u64 (rol 23 (Z.lxor h (u64 (k * prime1))) * prime2 + prime3).

Definition mixByte (h : Z) (x : byte) : Z :=
  u64 (rol 11 (Z.lxor h (u64 (byteZ x * prime5))) * prime1).

(** The bytes left over after the 8-byte and the 4-byte steps. *)
Fixpoint tail1 (h : Z) (b : list byte) : Z :=
  match b with
  | [] => h
  | x :: b' => tail1 (mixByte h x) b'
  end.

Definition tail4 (h : Z) (b : list byte) : Z :=
  match b with
  | a0 :: a1 :: a2 :: a3 :: b' => tail1 (mixWord32 h (le [a0; a1; a2; a3])) b'
  | _ => tail1 h b
  end.

Fixpoint tail8 (h : Z) (b : list byte) : Z :=
  match b with
  | a0 :: a1 :: a2 :: a3 :: a4 :: a5 :: a6 :: a7 :: b' =>
      tail8 (mixWord64 h (le [a0; a1; a2; a3; a4; a5; a6; a7])) b'
  | _ => tail4 h b
  end.

Definition avalanche (h : Z) : Z :=
  let h := Z.lxor h (Z.shiftr h 33) in
  let h := u64 (h * prime2) in
  let h := Z.lxor h (Z.shiftr h 29) in
  let h := u64 (h * prime3) in
  Z.lxor h (Z.shiftr h 32).

Definition sum64 (b : list byte) : Z :=
  let total := Z.of_nat (length b) in
  if (32 <=? length b)%nat then
    let '(v1, v2, v3, v4, rest) :=
      writeBlocks (length b)
        (u64 (prime1 + prime2), prime2, 0, u64 (- prime1)) b in
    let h := u64 (rol 1 v1 + rol 7 v2 + rol 12 v3 + rol 18 v4) in
    let h := mergeRound h v1 in
    let h := mergeRound h v2 in
    let h := mergeRound h v3 in
    let h := mergeRound h v4 in
    avalanche (tail8 (u64 (h + total)) rest)
  else
    avalanche (tail8 (u64 (0 + prime5 + total)) b).

Definition Sum64 (d : Digest) : Z := sum64 (written d).

(** The eight bytes of a sum, most significant first. *)
Definition be8 (s : Z) : list byte :=
  [Zbyte (Z.shiftr s 56); Zbyte (Z.shiftr s 48); Zbyte (Z.shiftr s 40);
   Zbyte (Z.shiftr s 32); Zbyte (Z.shiftr s 24); Zbyte (Z.shiftr s 16);
   Zbyte (Z.shiftr s 8); Zbyte s].

Definition Sum (d : Digest) (b : list byte) : list byte :=
  b ++ be8 (Sum64 d).

End xxhash.

Definition str (s : string) : list byte := list_byte_of_string s.

(** ** The value model: go.opentelemetry.io/collector/pdata/pcommon

    A Go [string] is its bytes.  A [float64] is carried by its IEEE-754
    bit pattern, the number [math.Float64bits] returns.  A [pcommon.Map]
    is the sequence of its entries in insertion order: [Range] walks it
    front to back and [Get] returns the first entry with the key.
    [VOther] stands for a value of a variant that is none of the seven
    [pcommon] knows, such as a later addition to the union. *)

Abbreviation key := (list byte) (only parsing).

#[local] Unset Elimination Schemes.
Inductive Value : Type :=
| VEmpty
| VStr (s : list byte)
| VInt (i : Z)
| VDouble (bits : Z)
| VBool (b : bool)
| VMap (m : list (key * Value))
| VSlice (sl : list Value)
| VBytes (b : list byte)
| VOther (t : Z).
#[local] Set Elimination Schemes.

Abbreviation Map := (list (key * Value)) (only parsing).



Definition keys (m : Map) : list key := map fst m.

Fixpoint Get (m : Map) (k : key) : option Value :=
  match m with
  | [] => None
  | (k', v) :: m' => if decide (k' = k) then Some v else Get m' k
  end.

(** ** Go strings and slices *)

(** [a < b] on Go strings: byte-wise lexicographic. *)
Fixpoint lessString (a b : key) : bool :=
  match a, b with
  | _, [] => false
  | [], _ :: _ => true
  | x :: a', y :: b' =>
      if byteZ x <? byteZ y then true
      else if byteZ y <? byteZ x then false
      else lessString a' b'
  end.

Fixpoint insertString (k : key) (l : list key) : list key :=
  match l with
  | [] => [k]
  | x :: l' => if lessString x k then x :: insertString k l' else k :: l
  end.

(** [sort.Strings]: the keys in increasing order.  Equal strings are the
    same value, so the algorithm the library runs is not observable. *)
Definition sortStrings (l : list key) : list key := foldr insertString [] l.

(** A [[]string] header: the address of its backing array in the heap,
    its length and its capacity. *)
Record slice : Type := mkSlice { ptr : nat; len : nat; cap : nat }.

(** The capacity [append] gives the new backing array when a full slice
    of the given capacity grows by one element.  It is a choice of the Go
    runtime ([runtime.growslice]). *)
Class Runtime : Type := growslice : nat → nat.

(** The rule of the runtime for small slices: an empty slice grows to one
    element, a full one doubles. *)
Definition doubling : Runtime := fun c => if (c =? 0)%nat then 1%nat else (2 * c)%nat.

Definition uint64 (i : Z) : Z := i mod 2 ^ 64.

(** [binary.LittleEndian.PutUint64] *)
Definition PutUint64 (x : Z) : list byte :=
  [Zbyte x; Zbyte (Z.shiftr x 8); Zbyte (Z.shiftr x 16);
   Zbyte (Z.shiftr x 24); Zbyte (Z.shiftr x 32); Zbyte (Z.shiftr x 40);
   Zbyte (Z.shiftr x 48); Zbyte (Z.shiftr x 56)].

(** [copy(res[:], b)] into a zeroed [[16]byte]. *)
Definition copy16 (b : list byte) : list byte :=
  take 16 (b ++ replicate 16 x00).

(** ** Outcomes: a call returns or panics *)

Inductive result (A : Type) : Type :=
| Ok (a : A)
| Panic.
Arguments Ok {A} a.
Arguments Panic {A}.

Definition bind {A B : Type} (r : result A) (f : A → result B) : result B :=
  match r with
  | Ok a => f a
  | Panic => Panic
  end.

Notation "x <- r ;; k" := (bind r (fun x => k))
  (at level 100, r at next level, right associativity).

(** ** hash.go *)

Definition extraByte : list byte := [xf3].
Definition keyPrefix : list byte := [xf4].
Definition valEmpty : list byte := [xf5].
Definition valBytesPrefix : list byte := [xf6].
Definition valStrPrefix : list byte := [xf7].
Definition valBoolTrue : list byte := [xf8].
Definition valBoolFalse : list byte := [xf9].
Definition valIntPrefix : list byte := [xfa].
Definition valDoublePrefix : list byte := [xfb].
Definition valMapPrefix : list byte := [xfc].
Definition valMapSuffix : list byte := [xfd].
Definition valSlicePrefix : list byte := [xfe].
Definition valSliceSuffix : list byte := [xff].

(** [strBuf] is the bytes within its length; [sumHash] and [numBuf] are
    the contents of their backing arrays.  [heap] holds the backing
    arrays [keysBuf] has pointed to, by address: a [range] over
    [hw.keysBuf] keeps reading the array it started on while a nested
    call appends to [hw.keysBuf] again. *)
Record hashWriter : Type := mkHashWriter {
  h : xxhash.Digest;
  strBuf : list byte;
  keysBuf : slice;
  sumHash : list byte;
  numBuf : list byte;
  heap : list (list key);
}.

Definition set_h (d : xxhash.Digest) (hw : hashWriter) : hashWriter :=
  mkHashWriter d (strBuf hw) (keysBuf hw) (sumHash hw) (numBuf hw) (heap hw).
Definition set_strBuf (b : list byte) (hw : hashWriter) : hashWriter :=
  mkHashWriter (h hw) b (keysBuf hw) (sumHash hw) (numBuf hw) (heap hw).
Definition set_keysBuf (s : slice) (hw : hashWriter) : hashWriter :=
  mkHashWriter (h hw) (strBuf hw) s (sumHash hw) (numBuf hw) (heap hw).
Definition set_sumHash (b : list byte) (hw : hashWriter) : hashWriter :=
  mkHashWriter (h hw) (strBuf hw) (keysBuf hw) b (numBuf hw) (heap hw).
Definition set_numBuf (b : list byte) (hw : hashWriter) : hashWriter :=
  mkHashWriter (h hw) (strBuf hw) (keysBuf hw) (sumHash hw) b (heap hw).
Definition set_heap (m : list (list key)) (hw : hashWriter) : hashWriter :=
  mkHashWriter (h hw) (strBuf hw) (keysBuf hw) (sumHash hw) (numBuf hw) m.

Definition newHashWriter : hashWriter :=
  {| h := xxhash.New;
     strBuf := [];
     keysBuf := mkSlice 0 0 16;
     sumHash := replicate 16 x00;
     numBuf := replicate 8 x00;
     heap := [replicate 16 []] |}.

(** [hw.h.Write(b)] *)
Definition hWrite (b : list byte) (hw : hashWriter) : hashWriter :=
  set_h (xxhash.Write (h hw) b) hw.

(** [hw.keysBuf = hw.keysBuf[:0]] *)
Definition truncateKeys (hw : hashWriter) : hashWriter :=
  set_keysBuf (mkSlice (ptr (keysBuf hw)) 0 (cap (keysBuf hw))) hw.

(** [hw.keysBuf = append(hw.keysBuf, k)]: in place while the capacity
    lasts, else into a new array that receives the elements within the
    length. *)
Definition appendKey `{Runtime} (k : key) (hw : hashWriter) : hashWriter :=
  let s := keysBuf hw in
  if (len s <? cap s)%nat then
    set_keysBuf (mkSlice (ptr s) (S (len s)) (cap s))
      (set_heap (alter (fun arr => <[len s := k]> arr) (ptr s) (heap hw)) hw)
  else
    let old := default [] (heap hw !! ptr s) in
    let arr := take (len s) old
               ++ k :: replicate (growslice (cap s) - S (len s)) [] in
    set_keysBuf (mkSlice (length (heap hw)) (S (len s)) (length arr))
      (set_heap (heap hw ++ [arr]) hw).

(** [sort.Strings(hw.keysBuf)]: in place, within the length. *)
Definition sortKeys (hw : hashWriter) : hashWriter :=
  let s := keysBuf hw in
  set_heap
    (alter (fun arr => sortStrings (take (len s) arr) ++ drop (len s) arr)
       (ptr s) (heap hw)) hw.

(** [for _, k := range hw.keysBuf { body }]: the slice header is read once,
    before the first iteration; each iteration reads element [i] of the
    array at [p] as it is then. *)
Fixpoint rangeKeys (n i p : nat)
    (body : key → hashWriter → result hashWriter)
    (hw : hashWriter) : result hashWriter :=
  match n with
  | O => Ok hw
  | S n' =>
      match heap hw !! p ≫= (fun arr => arr !! i) with
      | Some k => hw' <- body k hw ;; rangeKeys n' (S i) p body hw'
      | None => Panic
      end
  end.

(** The body of the loop of [writeMapHash] for the key [k], with
    [hw.writeValueHash(m.Get(k))] given as [get k]; a key [m] does not
    hold makes [Get] return the invalid [Value], on which [Type()]
    panics. *)
Definition writeEntry
    (get : key → option (hashWriter → result hashWriter))
    (k : key) (hw : hashWriter) : result hashWriter :=
  let hw := set_strBuf [] hw in
  let hw := set_strBuf (strBuf hw ++ keyPrefix) hw in
  let hw := set_strBuf (strBuf hw ++ k) hw in
  let hw := hWrite (strBuf hw) hw in
  match get k with
  | Some write => write hw
  | None => Panic
  end.

(** The body of [writeMapHash], with [m.Range] given as the keys in
    insertion order. *)
Definition writeMapHashWith `{Runtime} (ks : list key)
    (get : key → option (hashWriter → result hashWriter))
    (hw : hashWriter) : result hashWriter :=
  let hw := truncateKeys hw in
  let hw := foldl (fun hw k => appendKey k hw) hw ks in
  let hw := sortKeys hw in
  rangeKeys (len (keysBuf hw)) 0 (ptr (keysBuf hw)) (writeEntry get) hw.

(** [writeValueHash]: the switch over [v.Type()], whose eight cases are
    all the values [Type()] returns; a value of an unknown variant has
    type [ValueTypeEmpty] and takes that case. *)
Fixpoint writeValueHash `{Runtime} (v : Value) (hw : hashWriter)
    {struct v} : result hashWriter :=
  match v with
  | VStr s =>
      let hw := set_strBuf [] hw in
      let hw := set_strBuf (strBuf hw ++ valStrPrefix) hw in
      let hw := set_strBuf (strBuf hw ++ s) hw in
      Ok (hWrite (strBuf hw) hw)
  | VBool b =>
      if b then Ok (hWrite valBoolTrue hw) else Ok (hWrite valBoolFalse hw)
  | VInt i =>
      let hw := hWrite valIntPrefix hw in
      let hw := set_numBuf (PutUint64 (uint64 i)) hw in
      Ok (hWrite (numBuf hw) hw)
  | VDouble bits =>
      let hw := hWrite valDoublePrefix hw in
      let hw := set_numBuf (PutUint64 bits) hw in
      Ok (hWrite (numBuf hw) hw)
  | VMap m =>
      let hw := hWrite valMapPrefix hw in
      hw <- writeMapHashWith (keys m)
              ((fix get (m : Map) (k : key) :=
                  match m with
                  | [] => None
                  | (k', v') :: m' =>
                      if decide (k' = k) then Some (writeValueHash v')
                      else get m' k
                  end) m) hw ;;
      Ok (hWrite valMapSuffix hw)
  | VSlice sl =>
      let hw := hWrite valSlicePrefix hw in
      hw <- (fix each (sl : list Value) (hw : hashWriter) :=
               match sl with
               | [] => Ok hw
               | x :: sl' => hw <- writeValueHash x hw ;; each sl' hw
               end) sl hw ;;
      Ok (hWrite valSliceSuffix hw)
  | VBytes b =>
      let hw := hWrite valBytesPrefix hw in
      Ok (hWrite b hw)
  | VEmpty => Ok (hWrite valEmpty hw)
  | VOther _ => Ok (hWrite valEmpty hw)
  end.

Definition writeMapHash `{Runtime} (m : Map) (hw : hashWriter)
    : result hashWriter :=
  writeMapHashWith (keys m) (fun k => writeValueHash <$> Get m k) hw.

Fixpoint writeSliceHash `{Runtime} (sl : list Value) (hw : hashWriter)
    : result hashWriter :=
  match sl with
  | [] => Ok hw
  | x :: sl' => hw <- writeValueHash x hw ;; writeSliceHash sl' hw
  end.

(** [hashSum128]: [b] starts as [hw.sumHash[:0]], whose sixteen bytes of
    capacity take both sums in place. *)
Definition hashSum128 (hw : hashWriter) : list byte * hashWriter :=
  let b := [] in
  let b := xxhash.Sum (h hw) b in
  let hw := hWrite extraByte hw in
  let b := xxhash.Sum (h hw) b in
  (copy16 b, set_sumHash b hw).

(** [MapHash] and [ValueHash], on the [hashWriter] that
    [hashWriterPool.Get()] hands out; the [hashWriter] of the outcome is
    the one the deferred [Put] returns to the pool. *)
Definition MapHash `{Runtime} (hw : hashWriter) (m : Map)
    : result (list byte * hashWriter) :=
  let hw := set_h (xxhash.Reset (h hw)) hw in
  hw <- writeMapHash m hw ;;
  Ok (hashSum128 hw).

Definition ValueHash `{Runtime} (hw : hashWriter) (v : Value)
    : result (list byte * hashWriter) :=
  let hw := set_h (xxhash.Reset (h hw)) hw in
  hw <- writeValueHash v hw ;;
  Ok (hashSum128 hw).

(** The digest alone. *)
Definition digest (r : result (list byte * hashWriter)) : result (list byte) :=
  x <- r ;; Ok (fst x).

(** [hashWriter]s the pool holds while every call has returned: one made
    by [newHashWriter], or one a call that returned has put back.  (A
    call that panics puts its [hashWriter] back as well; those are not
    among these.) *)
Inductive pooled `{Runtime} : hashWriter → Prop :=
| pooled_new : pooled newHashWriter
| pooled_MapHash hw m d hw' :
    pooled hw → MapHash hw m = Ok (d, hw') → pooled hw'
| pooled_ValueHash hw v d hw' :
    pooled hw → ValueHash hw v = Ok (d, hw') → pooled hw'.

(** ** Notions the properties are stated with *)

(** The bytes the accumulator of a [hashWriter] has been fed. *)
Definition fed (hw : hashWriter) : list byte := xxhash.written (h hw).

(** The stream [MapHash] and [ValueHash] have fed by the time they call
    [hashSum128]. *)
Definition MapHashStream `{Runtime} (hw : hashWriter) (m : Map)
    : result (list byte) :=
  hw <- writeMapHash m (set_h (xxhash.Reset (h hw)) hw) ;; Ok (fed hw).

Definition ValueHashStream `{Runtime} (hw : hashWriter) (v : Value)
    : result (list byte) :=
  hw <- writeValueHash v (set_h (xxhash.Reset (h hw)) hw) ;; Ok (fed hw).

(** The sixteen bytes [hashSum128] makes of a fed stream. *)
Definition sum128 (s : list byte) : list byte :=
  xxhash.be8 (xxhash.sum64 s) ++ xxhash.be8 (xxhash.sum64 (s ++ extraByte)).

(** The twelve marker bytes of the encoder. *)
Definition markers : list (list byte) :=
  [valEmpty; valBytesPrefix; valStrPrefix; valBoolTrue; valBoolFalse;
   valIntPrefix; valDoublePrefix; valMapPrefix; valMapSuffix;
   valSlicePrefix; valSliceSuffix; keyPrefix].

(** A [keysBuf] as [make] and [append] leave it: it points to an array of
    the heap whose size is its capacity, and its length is within it. *)
Definition wfHashWriter (hw : hashWriter) : Prop :=
  ∃ arr, heap hw !! ptr (keysBuf hw) = Some arr
         ∧ length arr = cap (keysBuf hw)
         ∧ (len (keysBuf hw) ≤ cap (keysBuf hw))%nat.

(** A well-formed value: one of the eight variants, an [int64] within its
    range, a [float64] bit pattern within sixty-four bits, and no key
    twice in a map. *)
Fixpoint wellFormed (v : Value) : bool :=
  match v with
  | VInt i => (- 2 ^ 63 <=? i) && (i <? 2 ^ 63)
  | VDouble bits => (0 <=? bits) && (bits <? 2 ^ 64)
  | VMap m =>
      bool_decide (NoDup (keys m))
      && forallb (fun kv => wellFormed (snd kv)) m
  | VSlice sl => forallb wellFormed sl
  | VOther _ => false
  | _ => true
  end.

(** ** Inputs used as examples *)

(** Seventeen attributes, inserted in the order a, c, b, d, ..., q. *)
Definition attrs17 : Map :=
  map (fun s => (str s, VEmpty))
    ["a"; "c"; "b"; "d"; "e"; "f"; "g"; "h"; "i"; "j"; "k"; "l"; "m"; "n";
     "o"; "p"; "q"]%string.

(** A map of three entries whose first value is the map above. *)
Definition nested17 : Map :=
  [(str "a", VMap attrs17); (str "b", VInt 1); (str "c", VInt 2)].

(** The same seventeen attributes, inserted in the order a, b, c, ...,
    q. *)
Definition attrs17s : Map :=
  map (fun s => (str s, VEmpty))
    ["a"; "b"; "c"; "d"; "e"; "f"; "g"; "h"; "i"; "j"; "k"; "l"; "m"; "n";
     "o"; "p"; "q"]%string.

(** [nested17] with the entries of the nested map inserted in that
    order. *)
Definition nested17s : Map :=
  [(str "a", VMap attrs17s); (str "b", VInt 1); (str "c", VInt 2)].

(** [nested17] with its own three entries inserted in the reverse
    order. *)
Definition nested17r : Map :=
  [(str "c", VInt 2); (str "b", VInt 1); (str "a", VMap attrs17)].

(** The [hashWriter] the pool holds after [MapHash] has hashed [nested17]
    with a new one. *)
Definition afterNested17 : hashWriter :=
  match MapHash (H:=doubling) newHashWriter nested17 with
  | Ok (_, hw) => hw
  | Panic => newHashWriter
  end.

(** ** Two runs side by side *)

(** Two [hashWriter]s that agree on everything but the arrays at the
    addresses in [G], none of which [keysBuf] points to. *)
Definition agree (G : nat → Prop) (hw1 hw2 : hashWriter) : Prop :=
  h hw1 = h hw2
  ∧ strBuf hw1 = strBuf hw2
  ∧ keysBuf hw1 = keysBuf hw2
  ∧ sumHash hw1 = sumHash hw2
  ∧ numBuf hw1 = numBuf hw2
  ∧ length (heap hw1) = length (heap hw2)
  ∧ (∀ q, ¬ G q → heap hw1 !! q = heap hw2 !! q)
  ∧ ¬ G (ptr (keysBuf hw1))
  ∧ (∀ q, G q → (q < length (heap hw1))%nat).

Definition agreeR (G : nat → Prop) (r1 r2 : result hashWriter) : Prop :=
  match r1, r2 with
  | Ok hw1, Ok hw2 => agree G hw1 hw2
  | Panic, Panic => True
  | _, _ => False
  end.

(** Two runs that have appended as many keys, [pre1] and [pre2], to the
    same [hashWriter]: the headers are the same, the arrays [keysBuf]
    points to hold the keys appended and agree beyond them. *)
Definition collecting (hw1 hw2 : hashWriter) (pre1 pre2 : list key) : Prop :=
  h hw1 = h hw2
  ∧ strBuf hw1 = strBuf hw2
  ∧ keysBuf hw1 = keysBuf hw2
  ∧ sumHash hw1 = sumHash hw2
  ∧ numBuf hw1 = numBuf hw2
  ∧ length (heap hw1) = length (heap hw2)
  ∧ ∃ a1 a2,
      heap hw1 !! ptr (keysBuf hw1) = Some a1
      ∧ heap hw2 !! ptr (keysBuf hw1) = Some a2
      ∧ length a1 = cap (keysBuf hw1)
      ∧ length a2 = cap (keysBuf hw1)
      ∧ (len (keysBuf hw1) ≤ cap (keysBuf hw1))%nat
      ∧ take (len (keysBuf hw1)) a1 = pre1
      ∧ take (len (keysBuf hw1)) a2 = pre2
      ∧ drop (len (keysBuf hw1)) a1 = drop (len (keysBuf hw1)) a2.

(** ** The canonical encoding of the specification

    Section 4.1 of the specification, case by case: a marker byte, then
    the payload; a slice between its open and close markers, elements in
    order; a map between its open and close markers, for each key in
    byte-wise sorted order the key marker, the key and the encoding of the
    value the key has; a value of an unknown variant as Empty. *)
Fixpoint canonical (v : Value) : list byte :=
  match v with
  | VEmpty => valEmpty
  | VStr s => valStrPrefix ++ s
  | VInt i => valIntPrefix ++ PutUint64 (uint64 i)
  | VDouble bits => valDoublePrefix ++ PutUint64 bits
  | VBool b => if b then valBoolTrue else valBoolFalse
  | VMap m =>
      valMapPrefix
      ++ flat_map
           (fun k =>
              keyPrefix ++ k
              ++ (fix enc (m : Map) :=
                    match m with
                    | [] => []
                    | (k', v') :: m' =>
                        if decide (k' = k) then canonical v' else enc m'
                    end) m)
           (sortStrings (keys m))
      ++ valMapSuffix
  | VSlice sl => valSlicePrefix ++ flat_map canonical sl ++ valSliceSuffix
  | VBytes b => valBytesPrefix ++ b
  | VOther _ => valEmpty
  end.

(** The entries of a map in canonical form, for the keys [ks]. *)
Definition canonicalEntries (m : Map) (ks : list key) : list byte :=
  flat_map
    (fun k => keyPrefix ++ k ++ from_option canonical [] (Get m k)) ks.

(** A value with the entries of every map put in key order: two values
    have the same normal form when they differ at most in the order their
    map entries were inserted in. *)
Fixpoint normalize (v : Value) : Value :=
  match v with
  | VMap m =>
      VMap (map
              (fun k =>
                 (k, (fix nf (m : Map) :=
                        match m with
                        | [] => VEmpty
                        | (k', v') :: m' =>
                            if decide (k' = k) then normalize v' else nf m'
                        end) m))
              (sortStrings (keys m)))
  | VSlice sl => VSlice (map normalize sl)
  | _ => v
  end.

(** No byte of a payload or key is one of the markers 0xF4 to 0xFF. *)
Definition plain (s : list byte) : bool :=
  forallb (fun b => byteZ b <? 0xF4) s.

Fixpoint markerFree (v : Value) : bool :=
  match v with
  | VStr s => plain s
  | VBytes b => plain b
  | VMap m => forallb (fun kv => plain (fst kv) && markerFree (snd kv)) m
  | VSlice sl => forallb markerFree sl
  | _ => true
  end.

(** The largest number of entries of a map within a value. *)
Fixpoint maxKeys (v : Value) : nat :=
  match v with
  | VMap m =>
      Nat.max (length m)
        (foldr (fun kv n => Nat.max (maxKeys (snd kv)) n) 0%nat m)
  | VSlice sl => foldr (fun x n => Nat.max (maxKeys x) n) 0%nat sl
  | _ => 0%nat
  end.

(** No nested map gets to overwrite keys an enclosing [range] has yet to
    read: within the value of the entry at position [i] of a map in key
    order, the last entry excepted, no map has more than [i + 1]
    entries. *)
Fixpoint aliasFree (v : Value) : bool :=
  match v with
  | VMap m =>
      forallb (fun kv => aliasFree (snd kv)) m
      && forallb
           (fun i =>
              match sortStrings (keys m) !! i ≫= Get m with
              | Some v' => (maxKeys v' <=? S i)%nat
              | None => true
              end)
           (seq 0 (length m - 1))
  | VSlice sl => forallb aliasFree sl
  | _ => true
  end.

(** The nesting depth of a value. *)
Fixpoint depth (v : Value) : nat :=
  match v with
  | VMap m => S (foldr (fun kv n => Nat.max (depth (snd kv)) n) 0%nat m)
  | VSlice sl => S (foldr (fun x n => Nat.max (depth x) n) 0%nat sl)
  | _ => 0%nat
  end.

(** ** The encoder on a call stack of bounded depth

    The three functions of the source as they call each other, each call
    of [writeValueHash] taking one of the [d] frames there are; [None]
    when a call finds no frame left. *)
Fixpoint rangeKeysD (n i p : nat)
    (body : key → hashWriter → option (result hashWriter))
    (hw : hashWriter) : option (result hashWriter) :=
  match n with
  | O => Some (Ok hw)
  | S n' =>
      match heap hw !! p ≫= (fun arr => arr !! i) with
      | Some k =>
          match body k hw with
          | Some (Ok hw') => rangeKeysD n' (S i) p body hw'
          | r => r
          end
      | None => Some Panic
      end
  end.

Definition writeMapHashD `{Runtime}
    (writeValueHash : Value → hashWriter → option (result hashWriter))
    (m : Map) (hw : hashWriter) : option (result hashWriter) :=
  let hw := truncateKeys hw in
  let hw := foldl (fun hw k => appendKey k hw) hw (keys m) in
  let hw := sortKeys hw in
  rangeKeysD (len (keysBuf hw)) 0 (ptr (keysBuf hw))
    (fun k hw =>
       let hw := set_strBuf [] hw in
       let hw := set_strBuf (strBuf hw ++ keyPrefix) hw in
       let hw := set_strBuf (strBuf hw ++ k) hw in
       let hw := hWrite (strBuf hw) hw in
       match Get m k with
       | Some v => writeValueHash v hw
       | None => Some Panic
       end)
    hw.

Fixpoint writeSliceHashD
    (writeValueHash : Value → hashWriter → option (result hashWriter))
    (sl : list Value) (hw : hashWriter) : option (result hashWriter) :=
  match sl with
  | [] => Some (Ok hw)
  | x :: sl' =>
      match writeValueHash x hw with
      | Some (Ok hw') => writeSliceHashD writeValueHash sl' hw'
      | r => r
      end
  end.

Fixpoint writeValueHashD `{Runtime} (d : nat) (v : Value) (hw : hashWriter)
    : option (result hashWriter) :=
  match d with
  | O => None
  | S d' =>
      match v with
      | VMap m =>
          match writeMapHashD (writeValueHashD d') m (hWrite valMapPrefix hw) with
          | Some (Ok hw') => Some (Ok (hWrite valMapSuffix hw'))
          | r => r
          end
      | VSlice sl =>
          match
            writeSliceHashD (writeValueHashD d') sl (hWrite valSlicePrefix hw)
          with
          | Some (Ok hw') => Some (Ok (hWrite valSliceSuffix hw'))
          | r => r
          end
      | _ => Some (writeValueHash v hw)
      end
  end.

Definition MapHashD `{Runtime} (d : nat) (hw : hashWriter) (m : Map)
    : option (result (list byte * hashWriter)) :=
  match writeMapHashD (writeValueHashD d) m (set_h (xxhash.Reset (h hw)) hw) with
  | Some r => Some (hw <- r ;; Ok (hashSum128 hw))
  | None => None
  end.

Definition ValueHashD `{Runtime} (d : nat) (hw : hashWriter) (v : Value)
    : option (result (list byte * hashWriter)) :=
  match writeValueHashD d v (set_h (xxhash.Reset (h hw)) hw) with
  | Some r => Some (hw <- r ;; Ok (hashSum128 hw))
  | None => None
  end.

(** [hw'] still has the [keysBuf] array of [hw], with its capacity, and
    the array holds what it held from index [n] on. *)
Definition keeps (n : nat) (hw hw' : hashWriter) : Prop :=
  ptr (keysBuf hw') = ptr (keysBuf hw)
  ∧ cap (keysBuf hw') = cap (keysBuf hw)
  ∧ ∃ arr arr',
      heap hw !! ptr (keysBuf hw) = Some arr
      ∧ heap hw' !! ptr (keysBuf hw) = Some arr'
      ∧ drop n arr' = drop n arr.

(** [writeValueHash] returns, having fed the canonical encoding of [v]
    and, if every map of [v] fits the capacity of [keysBuf], having left
    the array of [keysBuf] as it was beyond the entries of the largest
    of them. *)
Definition runsCanonically `{Runtime} (v : Value) : Prop :=
  ∀ hw, wfHashWriter hw →
    ∃ hw', writeValueHash v hw = Ok hw'
           ∧ wfHashWriter hw'
           ∧ fed hw' = fed hw ++ canonical v
           ∧ ((maxKeys v ≤ cap (keysBuf hw))%nat → keeps (maxKeys v) hw hw').

(** What may follow an encoded value in a stream: nothing, or a marker. *)
Definition boundary (r : list byte) : Prop :=
  match r with
  | [] => True
  | b :: _ => 0xF4 ≤ byteZ b
  end.

(** The entries of a map in normal form, for the keys [ks]. *)
Definition normalEntries (m : Map) (ks : list key) : list (key * Value) :=
  map (fun k => (k, from_option normalize VEmpty (Get m k))) ks.

(** Well-formed and without markers in payloads and keys. *)
Definition encodable (v : Value) : Prop :=
  wellFormed v = true ∧ markerFree v = true.

(** The encoding of a value tells its normal form, whatever follows it. *)
Definition decodable (v1 : Value) : Prop :=
  ∀ v2 r1 r2,
    encodable v1 → encodable v2 → boundary r1 → boundary r2 →
    canonical v1 ++ r1 = canonical v2 ++ r2 →
    normalize v1 = normalize v2 ∧ r1 = r2.

(** ** Doubles that are not a number *)

(** The bit pattern of a NaN: within sixty-four bits, the eleven exponent
    bits all set and the fraction not zero. *)
Definition isNaN (bits : Z) : bool :=
  (0 <=? bits) && (bits <? 2 ^ 64)
  && (Z.land (Z.shiftr bits 52) 0x7FF =? 0x7FF)
  && negb (Z.land bits (2 ^ 52 - 1) =? 0).

(** A value within sixty-four bits. *)
Definition w64 (x : Z) : Prop := 0 ≤ x < xxhash.two64.

(** Bits 27 to 31 of a word. *)
Definition window (x : Z) : Z := (x / 2 ^ 27) mod 32.

(** No two words whose bits 27 to 31 differ by 01010 keep that difference
    when each has 7 added to or subtracted from those bits. *)
Definition windowCheck : bool :=
  forallb
    (fun a =>
       forallb
         (fun s1 =>
            forallb
              (fun s2 =>
                 negb (Z.lxor ((a + s1) mod 32) ((Z.lxor a 10 + s2) mod 32)
                       =? 10))
              [7; 25])
         [7; 25])
    (map Z.of_nat (seq 0 32)).

(** The first eight bytes of the stream of a double, read as the word the
    digest engine mixes in, and the ninth byte. *)
Definition laneOf (bits : Z) : Z :=
  xxhash.le
    [xfb; Zbyte bits; Zbyte (Z.shiftr bits 8); Zbyte (Z.shiftr bits 16);
     Zbyte (Z.shiftr bits 24); Zbyte (Z.shiftr bits 32);
     Zbyte (Z.shiftr bits 40); Zbyte (Z.shiftr bits 48)].

Definition topByte (bits : Z) : byte := Zbyte (Z.shiftr bits 56).

(** The accumulator before the final mix on nine and on ten bytes. *)
Definition seed9 : Z := xxhash.u64 (0 + xxhash.prime5 + 9).
Definition seed10 : Z := xxhash.u64 (0 + xxhash.prime5 + 10).

(** An outcome that, if it is a return, returns a well-formed
    [hashWriter]. *)
Definition wfResult (r : result hashWriter) : Prop :=
  match r with
  | Ok hw => wfHashWriter hw
  | Panic => True
  end.

(** ** Two runs in step

    Two [hashWriter]s with the same [keysBuf] and the same key arrays,
    whose accumulators have been fed the same bytes after [p1] and after
    [p2]; [strBuf], [sumHash] and [numBuf] may differ. *)
Definition inStep (p1 p2 : list byte) (hw1 hw2 : hashWriter) : Prop :=
  keysBuf hw1 = keysBuf hw2
  ∧ heap hw1 = heap hw2
  ∧ ∃ s, fed hw1 = p1 ++ s ∧ fed hw2 = p2 ++ s.

Definition inStepR (p1 p2 : list byte) (r1 r2 : result hashWriter) : Prop :=
  match r1, r2 with
  | Ok hw1, Ok hw2 => inStep p1 p2 hw1 hw2
  | Panic, Panic => True
  | _, _ => False
  end.

(** ** More inputs used as examples *)

(** A map of two entries whose first value is a map of one entry. *)
Definition nested2 : Map :=
  [(str "a", VMap [(str "x", VInt 1)]); (str "b", VInt 2)].

(** A [hashWriter] whose accumulator and scratch buffers hold leftovers,
    with the [keysBuf] of a new one. *)
Definition leftovers : hashWriter :=
  {| h := xxhash.Write xxhash.New (str "earlier");
     strBuf := str "stale";
     keysBuf := mkSlice 0 0 16;
     sumHash := replicate 16 xff;
     numBuf := replicate 8 xff;
     heap := [replicate 16 []] |}.

(** ** Allocation of key arrays *)

(** [hw'] has the key array of [hw], with its capacity, and no array has
    been allocated on the way from [hw] to [hw']. *)
Definition reuses (hw hw' : hashWriter) : Prop :=
  ptr (keysBuf hw') = ptr (keysBuf hw)
  ∧ cap (keysBuf hw') = cap (keysBuf hw)
  ∧ length (heap hw') = length (heap hw).

(** [hw'] is well-formed, has at least the capacity of [hw], and reuses
    its array if that has room for [N] keys. *)
Definition grown (N : nat) (hw hw' : hashWriter) : Prop :=
  wfHashWriter hw'
  ∧ (cap (keysBuf hw) ≤ cap (keysBuf hw'))%nat
  ∧ (length (heap hw) ≤ length (heap hw'))%nat
  ∧ ((N ≤ cap (keysBuf hw))%nat → reuses hw hw').

Definition grownR (N : nat) (hw : hashWriter) (r : result hashWriter) : Prop :=
  match r with
  | Ok hw' => grown N hw hw'
  | Panic => True
  end.

(** The digest [MapHash] returns for [nested17] with a new
    [hashWriter]. *)
Definition digestNested17 : list byte :=
  match MapHash (H:=doubling) newHashWriter nested17 with
  | Ok (d, _) => d
  | Panic => []
  end.

(** A map of two entries whose first value is a map of two entries. *)
Definition nested22 : Map :=
  [(str "a", VMap [(str "x", VInt 1); (str "y", VInt 2)]); (str "b", VInt 3)].

(** ** Sorted keys, numbers and flat maps *)


(** The conversion [int64(u)] of a [uint64]. *)
Definition int64 (u : Z) : Z := if u <? 2 ^ 63 then u else u - 2 ^ 64.

(** The first eight bytes of the stream of a number, the marker and the
    seven low bytes, read as the word the digest engine mixes in. *)
Definition laneWith (marker : byte) (x : Z) : Z :=
  xxhash.le
    [marker; Zbyte x; Zbyte (Z.shiftr x 8); Zbyte (Z.shiftr x 16);
     Zbyte (Z.shiftr x 24); Zbyte (Z.shiftr x 32);
     Zbyte (Z.shiftr x 40); Zbyte (Z.shiftr x 48)].

(** No map within the value. *)
Fixpoint mapFree (v : Value) : bool :=
  match v with
  | VMap _ => false
  | VSlice sl => forallb mapFree sl
  | _ => true
  end.

(** No map within the values of a map. *)
Fixpoint flatMaps (v : Value) : bool :=
  match v with
  | VMap m => forallb (fun kv => mapFree (snd kv)) m
  | VSlice sl => forallb flatMaps sl
  | _ => true
  end.

(** ** A key no nested map holds *)

(** The keys of the maps within a value. *)
Fixpoint keysWithin (v : Value) : list key :=
  match v with
  | VMap m => flat_map (fun kv => fst kv :: keysWithin (snd kv)) m
  | VSlice sl => flat_map keysWithin sl
  | _ => []
  end.

(** The array at address [p] does not hold the key [k'] below index [n],
    nor, while [keysBuf] points to it, within the length of [keysBuf]. *)
Definition avoids (k' : key) (p n : nat) (hw : hashWriter) : Prop :=
  ∃ arr,
    heap hw !! p = Some arr
    ∧ (∀ t, (t < n)%nat → arr !! t ≠ Some k')
    ∧ (ptr (keysBuf hw) = p →
       ∀ t, (t < len (keysBuf hw))%nat → arr !! t ≠ Some k').

Definition avoidsR (k' : key) (p n : nat) (r : result hashWriter) : Prop :=
  match r with
  | Ok hw => avoids k' p n hw
  | Panic => True
  end.

(** A map of three entries whose first value is a map of two entries. *)
Definition nested23 (v : Value) : Map :=
  [(str "a", VMap [(str "a", VInt 1); (str "c", VInt 2)]);
   (str "b", v);
   (str "c", VInt 3)].

(** * Properties *)

(** ** The digest engine agrees with the published XXH64 vectors *)

Example xxh64_empty : xxhash.sum64 [] = 0xef46db3751d8e999.
Proof. vm_compute. reflexivity. Qed.

Example xxh64_a : xxhash.sum64 (str "a") = 0xd24ec4f1a98c6e5b.
Proof. vm_compute. reflexivity. Qed.

Example xxh64_asdf : xxhash.sum64 (str "asdf") = 0x415872f599cea71e.
Proof. vm_compute. reflexivity. Qed.

Example xxh64_ishmael :
  xxhash.sum64
    (str "Call me Ishmael. Some years ago--never mind how long precisely-")
  = 0x02a2e85470d6fd96.
Proof. vm_compute. reflexivity. Qed.

(** ** The encoder, case by case *)

Lemma bind_Ok {A B} (r : result A) (f : A → result B) b :
  bind r f = Ok b ↔ ∃ a, r = Ok a ∧ f a = Ok b.
Proof.
  destruct r as [a|]; simpl; split.
  - eauto.
  - by intros (? & [= <-] & ?).
  - discriminate.
  - by intros (? & [=] & ?).
Qed.

Lemma Ok_inj {A} (a b : A) : Ok a = Ok b → a = b.
Proof. by intros [= ->]. Qed.

Section encoder.
Context `{Runtime}.

Lemma rangeKeys_ext n i p body body' hw :
  (∀ k hw, body k hw = body' k hw) →
  rangeKeys n i p body hw = rangeKeys n i p body' hw.
Proof.
  intros Hbody. revert i hw.
  induction n as [|n IH]; intros i hw; simpl; [done|].
  destruct (heap hw !! p ≫= _) as [k|]; [|done].
  rewrite Hbody. destruct (body' k hw); simpl; auto.
Qed.

Lemma writeMapHashWith_ext ks get get' hw :
  (∀ k, get k = get' k) →
  writeMapHashWith ks get hw = writeMapHashWith ks get' hw.
Proof.
  intros Hget. unfold writeMapHashWith.
  apply rangeKeys_ext. intros k hw'. unfold writeEntry. by rewrite Hget.
Qed.

(** The [Map] case calls [writeMapHash], the [Slice] case
    [writeSliceHash], as in the source. *)
Lemma writeValueHash_VMap m hw :
  writeValueHash (VMap m) hw =
    (hw' <- writeMapHash m (hWrite valMapPrefix hw) ;;
     Ok (hWrite valMapSuffix hw')).
Proof.
  simpl. unfold writeMapHash.
  erewrite writeMapHashWith_ext; [done|].
  intros k. induction m as [|[k' v'] m IH]; simpl; [done|].
  by destruct (decide (k' = k)).
Qed.

Lemma writeValueHash_VSlice sl hw :
  writeValueHash (VSlice sl) hw =
    (hw' <- writeSliceHash sl (hWrite valSlicePrefix hw) ;;
     Ok (hWrite valSliceSuffix hw')).
Proof.
  simpl. f_equal. generalize (hWrite valSlicePrefix hw) as hw0.
  induction sl as [|x sl IH]; intros hw0; simpl; [done|].
  destruct (writeValueHash x hw0); simpl; auto.
Qed.

Lemma MapHash_digest hw m :
  digest (MapHash hw m) = (s <- MapHashStream hw m ;; Ok (sum128 s)).
Proof.
  unfold digest, MapHash, MapHashStream.
  destruct (writeMapHash m _) as [hw'|]; simpl; [|done].
  reflexivity.
Qed.

Lemma ValueHash_digest hw v :
  digest (ValueHash hw v) = (s <- ValueHashStream hw v ;; Ok (sum128 s)).
Proof.
  unfold digest, ValueHash, ValueHashStream.
  destruct (writeValueHash v _) as [hw'|]; simpl; [|done].
  reflexivity.
Qed.

Lemma MapHashStream_nil hw : MapHashStream hw [] = Ok [].
Proof. reflexivity. Qed.

End encoder.

(** ** The marker bytes *)

(** C9.  The twelve marker bytes of the encoder are single bytes, no two
    of them equal, each between 0xF0 and 0xFF. *)
Theorem markers_distinct_single_bytes :
  length markers = 12%nat
  ∧ NoDup markers
  ∧ Forall (fun mk => ∃ b, mk = [b] ∧ 0xF0 ≤ byteZ b ≤ 0xFF) markers.
Proof.
  split; [reflexivity|]. split.
  - apply (bool_decide_unpack _). vm_compute. exact I.
  - unfold markers. repeat constructor;
      (eexists; split; [reflexivity|]; vm_compute; split; discriminate).
Qed.

(** ** [hashSum128] *)

(** C5.  Whatever has been fed, [hashSum128] returns sixteen bytes: the
    first eight are the sum of the accumulator as it stands, the last
    eight the sum of the same accumulator after it has been fed the extra
    byte; the accumulator is not reset in between, it ends as the one fed
    the extra byte. *)
Theorem hashSum128_two_sums (hw : hashWriter) :
  length (hashSum128 hw).1 = 16%nat
  ∧ take 8 (hashSum128 hw).1 = xxhash.Sum (h hw) []
  ∧ drop 8 (hashSum128 hw).1
    = xxhash.Sum (xxhash.Write (h hw) extraByte) []
  ∧ (hashSum128 hw).1
    = xxhash.Sum (xxhash.Write (h hw) extraByte) (xxhash.Sum (h hw) [])
  ∧ h (hashSum128 hw).2 = xxhash.Write (h hw) extraByte
  ∧ fed (hashSum128 hw).2 = fed hw ++ [xf3].
Proof. repeat split. Qed.

(** ** Empty map, empty slice, Empty value *)

(** C8.  The empty map hashed by [MapHash], the empty slice and the Empty
    value hashed by [ValueHash] have three different digests, whatever
    [hashWriter] each call draws. *)
Theorem empty_map_slice_value_distinct `{Runtime} (hw1 hw2 hw3 : hashWriter) :
  ∃ d1 d2 d3,
    digest (MapHash hw1 []) = Ok d1
    ∧ digest (ValueHash hw2 (VSlice [])) = Ok d2
    ∧ digest (ValueHash hw3 VEmpty) = Ok d3
    ∧ d1 ≠ d2 ∧ d2 ≠ d3 ∧ d1 ≠ d3.
Proof.
  exists (sum128 []), (sum128 [xfe; xff]), (sum128 [xf5]).
  rewrite MapHash_digest, !ValueHash_digest.
  repeat split; try reflexivity; vm_compute; discriminate.
Qed.

(** ** A value of no recognised variant *)


(** ** Where the code departs from the specification *)

(** C2, as stated, fails: a payload byte equal to a marker makes two
    different well-formed values feed the same stream.  The slice of two
    empty byte strings and the slice of the one byte string 0xF6 both
    feed FE F6 F6 FF. *)
Lemma marker_byte_in_payload_collides :
  VSlice [VBytes []; VBytes []] ≠ VSlice [VBytes [xf6]]
  ∧ wellFormed (VSlice [VBytes []; VBytes []]) = true
  ∧ wellFormed (VSlice [VBytes [xf6]]) = true
  ∧ ValueHashStream (H:=doubling) newHashWriter (VSlice [VBytes []; VBytes []])
    = Ok [xfe; xf6; xf6; xff]
  ∧ ValueHashStream (H:=doubling) newHashWriter (VSlice [VBytes [xf6]])
    = Ok [xfe; xf6; xf6; xff]
  ∧ digest (ValueHash (H:=doubling) newHashWriter
              (VSlice [VBytes []; VBytes []]))
    = digest (ValueHash (H:=doubling) newHashWriter (VSlice [VBytes [xf6]])).
Proof. repeat split; try reflexivity. discriminate. Qed.

(** C3, as stated, fails: the stream [MapHash] feeds for the map with the
    one entry a = Int 1 starts with the key marker and ends with the last
    byte of the integer; it has neither the map-open nor the map-close
    marker.  The stream of the empty map is empty. *)
Lemma MapHash_feeds_no_map_markers :
  MapHashStream (H:=doubling) newHashWriter [(str "a", VInt 1)]
  = Ok [xf4; x61; xfa; x01; x00; x00; x00; x00; x00; x00; x00]
  ∧ MapHashStream (H:=doubling) newHashWriter [] = Ok []
  ∧ ¬ (∃ body,
         MapHashStream (H:=doubling) newHashWriter [(str "a", VInt 1)]
         = Ok (valMapPrefix ++ body ++ valMapSuffix))
  ∧ ¬ (∃ body,
         MapHashStream (H:=doubling) newHashWriter []
         = Ok (valMapPrefix ++ body ++ valMapSuffix)).
Proof.
  repeat split; try reflexivity.
  - intros [body Hb]. vm_compute in Hb. discriminate.
  - intros [body Hb]. vm_compute in Hb. discriminate.
Qed.

(** C6: the digest depends on the [hashWriter] the pool hands out.  The
    map [nested17] hashed with a new [hashWriter] and hashed again with
    the [hashWriter] that first call returned to the pool gets two
    different digests: the first call leaves [keysBuf] with capacity 32,
    so the second time the seventeen inner keys are appended and sorted in
    place, in the array the range over the outer keys is reading. *)
Lemma pooled_hashWriter_changes_digest :
  ∃ d d',
    pooled (H:=doubling) afterNested17
    ∧ MapHash (H:=doubling) newHashWriter nested17 = Ok (d, afterNested17)
    ∧ digest (MapHash (H:=doubling) afterNested17 nested17) = Ok d'
    ∧ cap (keysBuf newHashWriter) = 16%nat
    ∧ cap (keysBuf afterNested17) = 32%nat
    ∧ d ≠ d'.
Proof.
  exists [x1e; x11; x82; xe6; xa9; x7c; xca; x28;
          x13; xf9; x1f; x0d; xc3; xe6; xdf; x56],
         [x28; xa8; x1c; x7d; xda; x60; x27; xae;
          x15; x6a; x00; xe6; x35; x68; x5f; xd6].
  assert (E : MapHash (H:=doubling) newHashWriter nested17
              = Ok ([x1e; x11; x82; xe6; xa9; x7c; xca; x28;
                     x13; xf9; x1f; x0d; xc3; xe6; xdf; x56],
                    afterNested17))
    by (vm_compute; reflexivity).
  split; [eapply pooled_MapHash; [apply pooled_new | exact E]|].
  split; [exact E|].
  repeat split; try (vm_compute; reflexivity).
  discriminate.
Qed.

(** ** The order of Go strings and [sort.Strings] *)

Lemma byteZ_inj a b : byteZ a = byteZ b → a = b.
Proof.
  unfold byteZ. intros E. apply N2Z.inj in E.
  assert (Some a = Some b) as [= ->]; [|done].
  by rewrite <- !Byte.of_to_N, E.
Qed.

Lemma byteZ_range b : 0 ≤ byteZ b < 256.
Proof. unfold byteZ. pose proof (Byte.to_N_bounded b). lia. Qed.

Lemma byteZ_Zbyte z : byteZ (Zbyte z) = z mod 256.
Proof.
  unfold Zbyte, byteZ.
  pose proof (Z.mod_pos_bound z 256 ltac:(lia)) as Hr.
  destruct (Byte.of_N _) as [b|] eqn:E.
  - apply Byte.to_of_N in E. rewrite E. lia.
  - apply Byte.of_N_None_iff in E. lia.
Qed.

Lemma Zbyte_byteZ b : Zbyte (byteZ b) = b.
Proof.
  apply byteZ_inj. rewrite byteZ_Zbyte.
  apply Z.mod_small, byteZ_range.
Qed.

Section lessString.
Implicit Types a b c : key.

Lemma lessString_irrefl a : lessString a a = false.
Proof.
  induction a as [|x a IH]; simpl; [done|].
  by rewrite Z.ltb_irrefl.
Qed.

Lemma lessString_asym a b : lessString a b = true → lessString b a = false.
Proof.
  revert b. induction a as [|x a IH]; intros [|y b]; simpl; try done.
  destruct (Z.ltb_spec (byteZ x) (byteZ y)),
    (Z.ltb_spec (byteZ y) (byteZ x)); try done; try lia.
  apply IH.
Qed.

Lemma lessString_trans a b c :
  lessString a b = true → lessString b c = true → lessString a c = true.
Proof.
  revert b c.
  induction a as [|x a IH]; intros [|y b] [|z c]; simpl; try done.
  destruct (Z.ltb_spec (byteZ x) (byteZ y)),
    (Z.ltb_spec (byteZ y) (byteZ x)),
    (Z.ltb_spec (byteZ y) (byteZ z)),
    (Z.ltb_spec (byteZ z) (byteZ y)),
    (Z.ltb_spec (byteZ x) (byteZ z)),
    (Z.ltb_spec (byteZ z) (byteZ x)); try done; try lia.
  apply IH.
Qed.

Lemma lessString_trichotomy a b :
  lessString a b = false → lessString b a = false → a = b.
Proof.
  revert b. induction a as [|x a IH]; intros [|y b]; simpl; try done.
  destruct (Z.ltb_spec (byteZ x) (byteZ y)),
    (Z.ltb_spec (byteZ y) (byteZ x)); try done.
  intros Hab Hba. f_equal; [apply byteZ_inj; lia | by apply IH].
Qed.

Lemma lessString_le_lt a b c :
  lessString b a = false → lessString b c = true → lessString a c = true.
Proof.
  revert b c.
  induction a as [|x a IH]; intros [|y b] [|z c]; simpl; try done.
  destruct (Z.ltb_spec (byteZ x) (byteZ y)),
    (Z.ltb_spec (byteZ y) (byteZ x)),
    (Z.ltb_spec (byteZ y) (byteZ z)),
    (Z.ltb_spec (byteZ z) (byteZ y)),
    (Z.ltb_spec (byteZ x) (byteZ z)),
    (Z.ltb_spec (byteZ z) (byteZ x)); try done; try lia.
  apply IH.
Qed.

(** Inserting two keys gives the same list in either order. *)
Lemma insertString_comm a b l :
  insertString a (insertString b l) = insertString b (insertString a l).
Proof.
  induction l as [|x l IH]; simpl.
  - destruct (lessString b a) eqn:Hba, (lessString a b) eqn:Hab; try done.
    + by rewrite (lessString_asym _ _ Hba) in Hab.
    + by rewrite (lessString_trichotomy _ _ Hab Hba).
  - destruct (lessString x b) eqn:Hxb, (lessString x a) eqn:Hxa; simpl;
      rewrite ?Hxb, ?Hxa; simpl.
    + by rewrite IH.
    + rewrite (lessString_le_lt _ _ _ Hxa Hxb); simpl. by rewrite ?Hxb.
    + rewrite (lessString_le_lt _ _ _ Hxb Hxa); simpl. by rewrite ?Hxa.
    + destruct (lessString b a) eqn:Hba, (lessString a b) eqn:Hab;
        simpl; rewrite ?Hxa, ?Hxb; try done.
      * by rewrite (lessString_asym _ _ Hba) in Hab.
      * by rewrite (lessString_trichotomy _ _ Hab Hba).
Qed.

Lemma insertString_Permutation a l : insertString a l ≡ₚ a :: l.
Proof.
  induction l as [|x l IH]; simpl; [done|].
  destruct (lessString x a); [|done].
  rewrite IH. apply Permutation_swap.
Qed.

Lemma sortStrings_Permutation l : sortStrings l ≡ₚ l.
Proof.
  induction l as [|x l IH]; simpl; [done|].
  by rewrite insertString_Permutation, IH.
Qed.

Lemma sortStrings_length l : length (sortStrings l) = length l.
Proof. apply Permutation_length, sortStrings_Permutation. Qed.

(** [sort.Strings] forgets the order the keys came in. *)
Lemma sortStrings_perm l l' : l ≡ₚ l' → sortStrings l = sortStrings l'.
Proof.
  induction 1 as [|x l l' _ IH|x y l|l l' l'' _ IH1 _ IH2]; simpl.
  - done.
  - by rewrite IH.
  - apply insertString_comm.
  - by rewrite IH1.
Qed.

End lessString.

(** ** [Get] and the order of insertion *)

Lemma Get_Some_In m k v : Get m k = Some v → In (k, v) m.
Proof.
  induction m as [|[k' v'] m IH]; simpl; [done|].
  destruct (decide (k' = k)) as [->|]; [intros [= ->]; by left|].
  intros Hg. right. by apply IH.
Qed.

Lemma Get_None_keys m k : Get m k = None ↔ ¬ In k (keys m).
Proof.
  induction m as [|[k' v'] m IH]; simpl; [tauto|].
  destruct (decide (k' = k)) as [->|]; [split; [done|tauto]|].
  rewrite IH. tauto.
Qed.

Lemma Get_In m k v : NoDup (keys m) → In (k, v) m → Get m k = Some v.
Proof.
  induction m as [|[k' v'] m IH]; simpl; [done|].
  intros [Hk Hm]%NoDup_cons [[= -> ->]|Hin].
  - by rewrite decide_True.
  - destruct (decide (k' = k)) as [->|]; [|by apply IH].
    exfalso. apply Hk. apply list_elem_of_In.
    change k with (fst (k, v)). by apply in_map.
Qed.

Lemma Get_perm m m' k :
  NoDup (keys m) → m ≡ₚ m' → Get m k = Get m' k.
Proof.
  intros Hnd Hp.
  assert (keys m ≡ₚ keys m') as Hk by (by apply Permutation_map).
  assert (NoDup (keys m')) as Hnd' by (by rewrite <- Hk).
  destruct (Get m k) as [v|] eqn:E.
  - symmetry. apply Get_In; [done|].
    eapply Permutation_in; [exact Hp|]. by apply Get_Some_In.
  - symmetry. apply Get_None_keys. apply Get_None_keys in E.
    intros Hin. apply E.
    eapply Permutation_in; [|exact Hin]. by symmetry.
Qed.

(** ** Induction on values *)

Lemma Value_nested_ind (P : Value → Prop) :
  P VEmpty →
  (∀ s, P (VStr s)) →
  (∀ i, P (VInt i)) →
  (∀ bits, P (VDouble bits)) →
  (∀ b, P (VBool b)) →
  (∀ m, Forall (fun kv => P (snd kv)) m → P (VMap m)) →
  (∀ sl, Forall P sl → P (VSlice sl)) →
  (∀ b, P (VBytes b)) →
  (∀ t, P (VOther t)) →
  ∀ v, P v.
Proof.
  intros HE HS HI HD HB HM HL HY HO.
  fix IH 1.
  intros [|s|i|bits|b|m|sl|b|t];
    [apply HE|apply HS|apply HI|apply HD|apply HB| | |apply HY|apply HO].
  - apply HM. induction m as [|[k v] m IHm]; constructor; [apply IH | exact IHm].
  - apply HL. induction sl as [|v sl IHsl]; constructor; [apply IH | exact IHsl].
Qed.

(** ** Arrays no [range] reads do not matter *)

Section agree.
Context `{Runtime} (G : nat → Prop).

Lemma agree_hWrite b hw1 hw2 :
  agree G hw1 hw2 → agree G (hWrite b hw1) (hWrite b hw2).
Proof. unfold agree. simpl. intros (-> & ?). tauto. Qed.

Lemma agree_set_strBuf b hw1 hw2 :
  agree G hw1 hw2 → agree G (set_strBuf b hw1) (set_strBuf b hw2).
Proof. unfold agree. simpl. tauto. Qed.

Lemma agree_set_numBuf b hw1 hw2 :
  agree G hw1 hw2 → agree G (set_numBuf b hw1) (set_numBuf b hw2).
Proof. unfold agree. simpl. tauto. Qed.

Ltac agree_steps :=
  repeat first
    [ apply agree_hWrite | apply agree_set_strBuf | apply agree_set_numBuf ];
  try done.

Lemma agree_strBuf hw1 hw2 : agree G hw1 hw2 → strBuf hw1 = strBuf hw2.
Proof. unfold agree. tauto. Qed.

Lemma agree_truncateKeys hw1 hw2 :
  agree G hw1 hw2 → agree G (truncateKeys hw1) (truncateKeys hw2).
Proof.
  unfold agree, truncateKeys. simpl.
  intros (? & ? & -> & ?). tauto.
Qed.

Lemma agree_appendKey k hw1 hw2 :
  agree G hw1 hw2 → agree G (appendKey k hw1) (appendKey k hw2).
Proof.
  intros (Hh & Hs & Hk & Hu & Hn & Hl & Hq & Hp & HG).
  unfold appendKey. rewrite <- Hk.
  destruct (len (keysBuf hw1) <? cap (keysBuf hw1))%nat.
  - repeat split; simpl; try done.
    + by rewrite !length_alter.
    + intros q Hnq. rewrite !list_lookup_alter.
      case_decide; [subst q; by rewrite (Hq _ Hp) | by apply Hq].
    + intros q Hgq. rewrite length_alter. by apply HG.
  - rewrite <- (Hq (ptr (keysBuf hw1)) Hp), <- Hl.
    repeat split; simpl; try done.
    + by rewrite !length_app, Hl.
    + intros q Hnq.
      destruct (decide (q < length (heap hw1))%nat).
      * rewrite !lookup_app_l by lia. by apply Hq.
      * rewrite !lookup_app_r by lia. by rewrite Hl.
    + intros Hg. apply HG in Hg. lia.
    + intros q Hgq. rewrite length_app. apply HG in Hgq. lia.
Qed.

Lemma agree_foldl_appendKey ks hw1 hw2 :
  agree G hw1 hw2 →
  agree G (foldl (fun hw k => appendKey k hw) hw1 ks)
          (foldl (fun hw k => appendKey k hw) hw2 ks).
Proof.
  revert hw1 hw2. induction ks as [|k ks IH]; intros hw1 hw2 Ha; simpl.
  - done.
  - by apply IH, agree_appendKey.
Qed.

Lemma agree_sortKeys hw1 hw2 :
  agree G hw1 hw2 → agree G (sortKeys hw1) (sortKeys hw2).
Proof.
  intros (Hh & Hs & Hk & Hu & Hn & Hl & Hq & Hp & HG).
  unfold sortKeys. rewrite <- Hk.
  repeat split; simpl; try done.
  - by rewrite !length_alter.
  - intros q Hnq. rewrite !list_lookup_alter.
    case_decide; [subst q; by rewrite (Hq _ Hp) | by apply Hq].
  - intros q Hgq. rewrite length_alter. by apply HG.
Qed.

Lemma agreeR_bind r1 r2 f1 f2 :
  agreeR G r1 r2 →
  (∀ hw1 hw2, agree G hw1 hw2 → agreeR G (f1 hw1) (f2 hw2)) →
  agreeR G (bind r1 f1) (bind r2 f2).
Proof. destruct r1, r2; simpl; auto; done. Qed.

Lemma agree_rangeKeys n i p body1 body2 hw1 hw2 :
  ¬ G p →
  (∀ k hw1 hw2, agree G hw1 hw2 → agreeR G (body1 k hw1) (body2 k hw2)) →
  agree G hw1 hw2 →
  agreeR G (rangeKeys n i p body1 hw1) (rangeKeys n i p body2 hw2).
Proof.
  intros Hp Hbody. revert i hw1 hw2.
  induction n as [|n IH]; intros i hw1 hw2 Ha; simpl; [done|].
  assert (heap hw1 !! p = heap hw2 !! p) as <-.
  { destruct Ha as (_ & _ & _ & _ & _ & _ & Hq & _). by apply Hq. }
  destruct (heap hw1 !! p ≫= _) as [k|]; simpl; [|done].
  apply agreeR_bind; [by apply Hbody|]. intros. by apply IH.
Qed.

Lemma agree_writeMapHashWith ks get1 get2 hw1 hw2 :
  (∀ k, match get1 k, get2 k with
        | Some w1, Some w2 =>
            ∀ hw1 hw2, agree G hw1 hw2 → agreeR G (w1 hw1) (w2 hw2)
        | None, None => True
        | _, _ => False
        end) →
  agree G hw1 hw2 →
  agreeR G (writeMapHashWith ks get1 hw1) (writeMapHashWith ks get2 hw2).
Proof.
  intros Hget Ha. unfold writeMapHashWith.
  assert (agree G
            (sortKeys (foldl (fun hw k => appendKey k hw) (truncateKeys hw1) ks))
            (sortKeys (foldl (fun hw k => appendKey k hw) (truncateKeys hw2) ks)))
    as Hsorted
    by by apply agree_sortKeys, agree_foldl_appendKey, agree_truncateKeys.
  assert (Hk := Hsorted). destruct Hk as (_ & _ & Hk & _ & _ & _ & _ & Hp & _).
  rewrite <- Hk.
  apply agree_rangeKeys; [exact Hp | | exact Hsorted].
  intros k a b Hab. specialize (Hget k). unfold writeEntry. cbv zeta.
  destruct (get1 k) as [w1|], (get2 k) as [w2|]; try done.
  apply Hget. simpl. agree_steps.
Qed.

(** The encoder takes agreeing [hashWriter]s to agreeing outcomes. *)
Lemma agree_writeValueHash v :
  ∀ hw1 hw2, agree G hw1 hw2 →
    agreeR G (writeValueHash v hw1) (writeValueHash v hw2).
Proof.
  induction v as [|s|i|bits|b|m IHm|sl IHsl|b|t] using Value_nested_ind;
    intros hw1 hw2 Ha.
  - simpl. agree_steps.
  - simpl. agree_steps.
  - simpl. agree_steps.
  - simpl. agree_steps.
  - simpl. destruct b; simpl; agree_steps.
  - rewrite !writeValueHash_VMap.
    apply agreeR_bind; [|intros; simpl; agree_steps].
    apply agree_writeMapHashWith; [|agree_steps].
    intros k. destruct (Get m k) as [v|] eqn:E; simpl; [|done].
    apply Get_Some_In in E.
    rewrite Forall_forall in IHm. apply (IHm (k, v)).
    by apply list_elem_of_In.
  - rewrite !writeValueHash_VSlice.
    apply agreeR_bind; [|intros; simpl; agree_steps].
    assert (agree G (hWrite valSlicePrefix hw1) (hWrite valSlicePrefix hw2))
      as Ha' by agree_steps.
    revert Ha'. generalize (hWrite valSlicePrefix hw1) as a,
      (hWrite valSlicePrefix hw2) as b.
    induction IHsl as [|x sl Hx _ IH]; intros a b Hab; simpl; [done|].
    apply agreeR_bind; [by apply Hx | apply IH].
  - simpl. agree_steps.
  - simpl. agree_steps.
Qed.

End agree.

(** ** Order independence *)

Section order_independence.
Context `{Runtime}.

Lemma collecting_appendKey k1 k2 hw1 hw2 pre1 pre2 :
  collecting hw1 hw2 pre1 pre2 →
  collecting (appendKey k1 hw1) (appendKey k2 hw2)
    (pre1 ++ [k1]) (pre2 ++ [k2]).
Proof.
  intros (Hh & Hs & Hk & Hu & Hn & Hl
          & a1 & a2 & H1 & H2 & L1 & L2 & Hle & T1 & T2 & D).
  unfold appendKey. rewrite <- Hk.
  destruct (Nat.ltb_spec (len (keysBuf hw1)) (cap (keysBuf hw1))) as [Hlt|Hge].
  - repeat split; simpl; try done.
    + by rewrite !length_alter.
    + exists (<[len (keysBuf hw1) := k1]> a1), (<[len (keysBuf hw1) := k2]> a2).
      rewrite !list_lookup_alter_eq, H1, H2, !length_insert.
      repeat split; try done; try lia.
      * erewrite take_S_r
          by (apply list_lookup_insert_eq; lia).
        by rewrite take_insert_ge, T1 by lia.
      * erewrite take_S_r
          by (apply list_lookup_insert_eq; lia).
        by rewrite take_insert_ge, T2 by lia.
      * rewrite !drop_insert_lt by lia.
        replace (S (len (keysBuf hw1))) with (len (keysBuf hw1) + 1)%nat by lia.
        by rewrite <- !drop_drop, D.
  - assert (len (keysBuf hw1) = cap (keysBuf hw1)) as E by lia.
    rewrite H1, H2. simpl.
    set (l := len (keysBuf hw1)) in *.
    set (r := (growslice (cap (keysBuf hw1)) - S l)%nat).
    assert (Hlen : ∀ (a : list key) k, length a = cap (keysBuf hw1) →
              length (take l a ++ k :: replicate r []) = (l + S r)%nat).
    { intros a k La. rewrite length_app, length_take_le by lia. simpl.
      rewrite length_replicate. lia. }
    assert (Htake : ∀ (a : list key) k, length a = cap (keysBuf hw1) →
              take (S l) (take l a ++ k :: replicate r []) = take l a ++ [k]).
    { intros a k La. rewrite (cons_middle k), app_assoc.
      apply take_app_length'. rewrite length_app, length_take_le by lia.
      simpl. lia. }
    assert (Hdrop : ∀ (a : list key) k, length a = cap (keysBuf hw1) →
              drop (S l) (take l a ++ k :: replicate r []) = replicate r []).
    { intros a k La. rewrite (cons_middle k), app_assoc.
      apply drop_app_length'. rewrite length_app, length_take_le by lia.
      simpl. lia. }
    rewrite !Hlen by done.
    repeat split; simpl; try done.
    + by rewrite Hl.
    + by rewrite !length_app, Hl.
    + eexists _, _.
      split; [by apply list_lookup_middle|].
      split; [by apply list_lookup_middle|].
      rewrite !Hlen, !Htake, !Hdrop, T1, T2 by done.
      repeat split; try done; lia.
Qed.

Lemma collecting_foldl ks1 : ∀ ks2 hw1 hw2 pre1 pre2,
  length ks1 = length ks2 →
  collecting hw1 hw2 pre1 pre2 →
  collecting (foldl (fun hw k => appendKey k hw) hw1 ks1)
             (foldl (fun hw k => appendKey k hw) hw2 ks2)
             (pre1 ++ ks1) (pre2 ++ ks2).
Proof.
  induction ks1 as [|k1 ks1 IH]; intros [|k2 ks2] hw1 hw2 pre1 pre2 Hlen Hc;
    simpl in *; try done.
  - by rewrite !app_nil_r.
  - rewrite (cons_middle k1), (cons_middle k2), !app_assoc.
    apply IH; [lia|]. by apply collecting_appendKey.
Qed.

Lemma collecting_truncateKeys hw :
  wfHashWriter hw → collecting (truncateKeys hw) (truncateKeys hw) [] [].
Proof.
  intros (arr & Ha & La & Hle). unfold truncateKeys.
  repeat split; simpl; try done.
  exists arr, arr. repeat split; try done. lia.
Qed.

(** After the keys of two permuted maps have been collected and sorted,
    the two [hashWriter]s differ at most in arrays that were left
    behind. *)
Lemma collecting_sortKeys hw1 hw2 ks1 ks2 :
  ks1 ≡ₚ ks2 →
  collecting hw1 hw2 ks1 ks2 →
  agree (fun q => (q < length (heap hw1))%nat ∧ q ≠ ptr (keysBuf hw1))
    (sortKeys hw1) (sortKeys hw2).
Proof.
  intros Hp (Hh & Hs & Hk & Hu & Hn & Hl
             & a1 & a2 & H1 & H2 & L1 & L2 & Hle & T1 & T2 & D).
  unfold sortKeys. rewrite <- Hk.
  repeat split; simpl; try done.
  - by rewrite !length_alter.
  - intros q Hq. rewrite !list_lookup_alter.
    case_decide as Hpq.
    + rewrite H1, H2. simpl. by rewrite T1, T2, D, (sortStrings_perm _ _ Hp).
    + rewrite !(lookup_ge_None_2 _ q); [done|lia|].
      destruct (decide (q < length (heap hw1))%nat); [|lia].
      exfalso. apply Hq. split; [done|]. by intros ->.
  - intros [_ Hne]. by apply Hne.
  - intros q [Hq _]. by rewrite length_alter.
Qed.

Lemma agreeR_hashSum128 G r1 r2 :
  agreeR G r1 r2 →
  digest (hw <- r1 ;; Ok (hashSum128 hw))
  = digest (hw <- r2 ;; Ok (hashSum128 hw)).
Proof.
  destruct r1 as [hw1|], r2 as [hw2|]; simpl; try done.
  intros (Hh & _). unfold hashSum128, hWrite. simpl. by rewrite Hh.
Qed.

End order_independence.

(** With one and the same [hashWriter], the order in which the entries
    of the outer map were inserted has no part in the outcome: the keys
    are sorted before they are read. *)
Lemma MapHash_one_hashWriter_outer_order `{Runtime}
    (hw : hashWriter) (m m' : Map) :
  wfHashWriter hw →
  NoDup (keys m) →
  m ≡ₚ m' →
  digest (MapHash hw m) = digest (MapHash hw m').
Proof.
  intros Hwf Hnd Hp. unfold MapHash.
  set (hw0 := set_h (xxhash.Reset (h hw)) hw).
  assert (wfHashWriter hw0) as Hwf0 by exact Hwf.
  unfold writeMapHash, writeMapHashWith.
  assert (keys m ≡ₚ keys m') as Hkp by (by apply Permutation_map).
  pose proof (collecting_foldl (keys m) (keys m') _ _ [] []
                (Permutation_length Hkp) (collecting_truncateKeys hw0 Hwf0))
    as Hc.
  simpl in Hc.
  pose proof (collecting_sortKeys _ _ _ _ Hkp Hc) as Ha.
  set (hwA := sortKeys (foldl _ (truncateKeys hw0) (keys m))) in *.
  set (hwB := sortKeys (foldl _ (truncateKeys hw0) (keys m'))) in *.
  assert (keysBuf hwA = keysBuf hwB) as Hk by apply Ha.
  rewrite <- Hk.
  eapply agreeR_hashSum128, agree_rangeKeys; [| |exact Ha].
  - apply Ha.
  - intros k a b Hab. unfold writeEntry. cbv zeta.
    rewrite <- (Get_perm m m' k Hnd Hp).
    destruct (Get m k) as [v|]; simpl; [|done].
    apply agree_writeValueHash.
    repeat first
      [ apply agree_hWrite | apply agree_set_strBuf ]; done.
Qed.

(** C1.  [MapHash] does not keep what its comment promises, the same
    hash for maps with the same key/value pairs in different order.  The
    well-formed map [nested17] and the map [nested17s], which holds the
    same pairs with the entries of the nested map inserted in another
    order, get different digests from a new [hashWriter] each; and
    [nested17r], the entries of [nested17] itself in reverse order, hashed
    by the next call with the [hashWriter] the call on [nested17] has
    returned to the pool, gets a digest other than [nested17] got. *)
Theorem insertion_order_changes_digest :
  ∃ d d',
    d ≠ d'
    ∧ wellFormed (VMap nested17) = true
    ∧ wellFormed (VMap nested17s) = true
    ∧ normalize (VMap nested17) = normalize (VMap nested17s)
    ∧ digest (MapHash (H:=doubling) newHashWriter nested17) = Ok d
    ∧ digest (MapHash (H:=doubling) newHashWriter nested17s) = Ok d'
    ∧ nested17 ≡ₚ nested17r
    ∧ MapHash (H:=doubling) newHashWriter nested17 = Ok (d, afterNested17)
    ∧ digest (MapHash (H:=doubling) afterNested17 nested17r) = Ok d'.
Proof.
  exists [x1e; x11; x82; xe6; xa9; x7c; xca; x28;
          x13; xf9; x1f; x0d; xc3; xe6; xdf; x56],
         [x28; xa8; x1c; x7d; xda; x60; x27; xae;
          x15; x6a; x00; xe6; x35; x68; x5f; xd6].
  split; [discriminate|].
  do 5 (split; [vm_compute; reflexivity|]).
  split; [exact (Permutation_rev nested17)|].
  split; vm_compute; reflexivity.
Qed.

(** ** Termination *)

Section termination.
Context `{Runtime}.

Lemma rangeKeysD_Some n i p bodyD body hw :
  (∀ k hw, bodyD k hw = Some (body k hw)) →
  rangeKeysD n i p bodyD hw = Some (rangeKeys n i p body hw).
Proof.
  intros Hbody. revert i hw.
  induction n as [|n IH]; intros i hw; simpl; [done|].
  destruct (heap hw !! p ≫= _) as [k|]; [|done].
  rewrite Hbody. destruct (body k hw) as [hw'|]; simpl; [apply IH|done].
Qed.

Lemma writeMapHashD_Some rec m hw :
  (∀ k v hw, In (k, v) m → rec v hw = Some (writeValueHash v hw)) →
  writeMapHashD rec m hw = Some (writeMapHash m hw).
Proof.
  intros Hrec. unfold writeMapHashD, writeMapHash, writeMapHashWith.
  apply rangeKeysD_Some. intros k hw'. unfold writeEntry.
  destruct (Get m k) as [v|] eqn:E; simpl; [|done].
  eapply Hrec, Get_Some_In, E.
Qed.

Lemma writeSliceHashD_Some rec sl hw :
  (∀ v hw, In v sl → rec v hw = Some (writeValueHash v hw)) →
  writeSliceHashD rec sl hw = Some (writeSliceHash sl hw).
Proof.
  revert hw. induction sl as [|x sl IH]; intros hw Hrec; simpl; [done|].
  rewrite Hrec by (by left).
  destruct (writeValueHash x hw) as [hw'|]; simpl; [|done].
  apply IH. intros v hw'' Hin. apply Hrec. by right.
Qed.

Lemma depth_entry_lt m k v : In (k, v) m → (depth v < depth (VMap m))%nat.
Proof.
  simpl. induction m as [|[k' v'] m IH]; simpl; [done|].
  intros [[= -> ->]|Hin]; [lia|]. specialize (IH Hin). lia.
Qed.

Lemma depth_element_lt sl v : In v sl → (depth v < depth (VSlice sl))%nat.
Proof.
  simpl. induction sl as [|x sl IH]; simpl; [done|].
  intros [->|Hin]; [lia|]. specialize (IH Hin). lia.
Qed.

(** With more frames than the value is deep, no call finds the stack
    exhausted, and the run is the run of [writeValueHash]. *)
Lemma writeValueHashD_enough v :
  ∀ d hw, (depth v < d)%nat →
    writeValueHashD d v hw = Some (writeValueHash v hw).
Proof.
  induction v as [|s|i|bits|b|m IHm|sl IHsl|b|t] using Value_nested_ind;
    intros [|d] hw Hd; try lia; try reflexivity.
  - cbn [writeValueHashD]. rewrite writeValueHash_VMap.
    rewrite writeMapHashD_Some.
    + by destruct (writeMapHash m _).
    + intros k v hw' Hin. rewrite Forall_forall in IHm.
      apply (IHm (k, v)); [by apply list_elem_of_In|].
      pose proof (depth_entry_lt m k v Hin). simpl. lia.
  - cbn [writeValueHashD]. rewrite writeValueHash_VSlice.
    rewrite writeSliceHashD_Some.
    + by destruct (writeSliceHash sl _).
    + intros v hw' Hin. rewrite Forall_forall in IHsl.
      apply IHsl; [by apply list_elem_of_In|].
      pose proof (depth_element_lt sl v Hin). lia.
Qed.

End termination.

(** C10.  [ValueHash] and [MapHash] return for every value and every map:
    the encoder calls itself on the values nested in its argument only,
    so a stack of as many frames as the input is deep, and one more for
    the outermost call of [writeValueHash], is never exhausted, and the
    outcome is the one the total functions [ValueHash] and [MapHash]
    give. *)
Theorem hashing_terminates `{Runtime}
    (d : nat) (hw : hashWriter) (v : Value) (m : Map) :
  (depth v < d)%nat →
  (depth (VMap m) ≤ d)%nat →
  ValueHashD (S (depth v)) hw v = Some (ValueHash hw v)
  ∧ ValueHashD d hw v = Some (ValueHash hw v)
  ∧ MapHashD (depth (VMap m)) hw m = Some (MapHash hw m)
  ∧ MapHashD d hw m = Some (MapHash hw m).
Proof.
  intros Hv Hm.
  assert (∀ d, (depth (VMap m) ≤ d)%nat →
               MapHashD d hw m = Some (MapHash hw m)) as HM.
  { intros d' Hd'. unfold MapHashD, MapHash.
    rewrite writeMapHashD_Some; [done|].
    intros k v' hw' Hin. apply writeValueHashD_enough.
    pose proof (depth_entry_lt m k v' Hin). lia. }
  unfold ValueHashD, ValueHash.
  rewrite !writeValueHashD_enough by lia.
  repeat split; auto.
Qed.

Lemma hashing_terminates_witness :
  (depth (VMap nested17) < 3)%nat
  ∧ (depth (VMap nested17) ≤ 3)%nat
  ∧ ValueHashD (H:=doubling) 3 newHashWriter (VMap nested17)
    = Some (ValueHash (H:=doubling) newHashWriter (VMap nested17))
  ∧ MapHashD (H:=doubling) 3 newHashWriter nested17
    = Some (MapHash (H:=doubling) newHashWriter nested17).
Proof.
  assert (depth (VMap nested17) < 3)%nat as Hv by (vm_compute; lia).
  assert (depth (VMap nested17) ≤ 3)%nat as Hm by (vm_compute; lia).
  split; [exact Hv|]. split; [exact Hm|].
  pose proof (hashing_terminates (H:=doubling) 3 newHashWriter
                (VMap nested17) nested17 Hv Hm) as (_ & Hvd & _ & Hmd).
  split; [exact Hvd | exact Hmd].
Defined.

(** ** The stream of values free of aliasing *)

Section alias_free.
Context `{Runtime}.

Lemma canonical_VMap m :
  canonical (VMap m)
  = valMapPrefix ++ canonicalEntries m (sortStrings (keys m)) ++ valMapSuffix.
Proof.
  simpl. do 2 f_equal. unfold canonicalEntries.
  apply flat_map_ext. intros k. simpl. do 2 f_equal.
  induction m as [|[k' v'] m IH]; simpl; [done|].
  by destruct (decide (k' = k)).
Qed.

Lemma wfHashWriter_same hw hw' :
  keysBuf hw' = keysBuf hw → heap hw' = heap hw →
  wfHashWriter hw → wfHashWriter hw'.
Proof. unfold wfHashWriter. by intros -> ->. Qed.

Lemma keeps_refl n hw : wfHashWriter hw → keeps n hw hw.
Proof. intros (arr & Ha & _). repeat split. by exists arr, arr. Qed.

Lemma keeps_same_l n hw0 hw hw' :
  keysBuf hw0 = keysBuf hw → heap hw0 = heap hw →
  keeps n hw0 hw' → keeps n hw hw'.
Proof. unfold keeps. by intros -> ->. Qed.

Lemma keeps_same_r n hw hw0 hw' :
  keysBuf hw' = keysBuf hw0 → heap hw' = heap hw0 →
  keeps n hw hw0 → keeps n hw hw'.
Proof. unfold keeps. by intros -> ->. Qed.

Lemma keeps_mono n n' hw hw' :
  (n ≤ n')%nat → keeps n hw hw' → keeps n' hw hw'.
Proof.
  intros Hn (Hp & Hc & arr & arr' & Ha & Ha' & Hd).
  repeat split; try done. exists arr, arr'. repeat split; try done.
  replace n' with (n + (n' - n))%nat by lia.
  by rewrite <- !drop_drop, Hd.
Qed.

Lemma keeps_trans n hw1 hw2 hw3 :
  keeps n hw1 hw2 → keeps n hw2 hw3 → keeps n hw1 hw3.
Proof.
  intros (Hp & Hc & arr & arr' & Ha & Ha' & Hd)
         (Hp' & Hc' & brr & brr' & Hb & Hb' & He).
  rewrite Hp in Hb, Hb'. rewrite Ha' in Hb. injection Hb as <-.
  repeat split; try congruence.
  exists arr, brr'. repeat split; try done. congruence.
Qed.

Lemma appendKey_fed k hw : fed (appendKey k hw) = fed hw.
Proof. unfold appendKey. by destruct (_ <? _)%nat. Qed.

Lemma appendKey_len k hw :
  len (keysBuf (appendKey k hw)) = S (len (keysBuf hw)).
Proof. unfold appendKey. by destruct (_ <? _)%nat. Qed.

Lemma foldl_appendKey_fed ks hw :
  fed (foldl (fun hw k => appendKey k hw) hw ks) = fed hw.
Proof.
  revert hw. induction ks as [|k ks IH]; intros hw; simpl; [done|].
  by rewrite IH, appendKey_fed.
Qed.

Lemma foldl_appendKey_len ks hw :
  len (keysBuf (foldl (fun hw k => appendKey k hw) hw ks))
  = (len (keysBuf hw) + length ks)%nat.
Proof.
  revert hw. induction ks as [|k ks IH]; intros hw; simpl; [lia|].
  rewrite IH, appendKey_len. lia.
Qed.

Lemma sortKeys_spec hw arr :
  heap hw !! ptr (keysBuf hw) = Some arr →
  fed (sortKeys hw) = fed hw
  ∧ keysBuf (sortKeys hw) = keysBuf hw
  ∧ heap (sortKeys hw) !! ptr (keysBuf hw)
    = Some (sortStrings (take (len (keysBuf hw)) arr)
            ++ drop (len (keysBuf hw)) arr).
Proof.
  intros Ha. unfold sortKeys. simpl.
  by rewrite list_lookup_alter_eq, Ha.
Qed.

(** Collecting and sorting the keys, whether or not the array grows. *)
Lemma collect_sorted ks hw :
  wfHashWriter hw →
  let hw' := sortKeys (foldl (fun hw k => appendKey k hw) (truncateKeys hw) ks) in
  fed hw' = fed hw
  ∧ wfHashWriter hw'
  ∧ len (keysBuf hw') = length ks
  ∧ ∃ arr', heap hw' !! ptr (keysBuf hw') = Some arr'
            ∧ take (length ks) arr' = sortStrings ks.
Proof.
  intros Hwf hw'.
  pose proof (collecting_foldl ks ks _ _ [] [] eq_refl
                (collecting_truncateKeys hw Hwf)) as Hc.
  pose proof (foldl_appendKey_len ks (truncateKeys hw)) as Hlen.
  pose proof (foldl_appendKey_fed ks (truncateKeys hw)) as Hfed.
  simpl in Hc, Hlen. change (fed (truncateKeys hw)) with (fed hw) in Hfed.
  subst hw'.
  set (hwc := foldl (fun hw k => appendKey k hw) (truncateKeys hw) ks) in *.
  clearbody hwc.
  destruct Hc as (_ & _ & _ & _ & _ & _
                  & a1 & _ & H1 & _ & L1 & _ & Hle & T1 & _ & _).
  rewrite Hlen in *.
  destruct (sortKeys_spec hwc a1 H1) as (Hf & Hk & Hh).
  rewrite Hlen, T1 in Hh.
  assert (length (sortStrings ks) = length ks) as Hsl
    by apply sortStrings_length.
  split; [congruence|].
  split.
  { unfold wfHashWriter. rewrite Hk, Hh. eexists. split; [reflexivity|].
    rewrite length_app, length_drop, Hsl. split; lia. }
  split; [by rewrite Hk|].
  rewrite Hk, Hh. eexists. split; [reflexivity|].
  by apply take_app_length'.
Qed.

Lemma appendKey_inplace k hw arr :
  heap hw !! ptr (keysBuf hw) = Some arr →
  (len (keysBuf hw) < cap (keysBuf hw))%nat →
  keysBuf (appendKey k hw)
  = mkSlice (ptr (keysBuf hw)) (S (len (keysBuf hw))) (cap (keysBuf hw))
  ∧ heap (appendKey k hw) !! ptr (keysBuf hw)
    = Some (<[len (keysBuf hw) := k]> arr).
Proof.
  intros Ha Hlt. unfold appendKey.
  destruct (Nat.ltb_spec (len (keysBuf hw)) (cap (keysBuf hw))); [|lia].
  simpl. by rewrite list_lookup_alter_eq, Ha.
Qed.

Lemma foldl_appendKey_inplace ks : ∀ hw arr,
  heap hw !! ptr (keysBuf hw) = Some arr →
  length arr = cap (keysBuf hw) →
  (len (keysBuf hw) + length ks ≤ cap (keysBuf hw))%nat →
  let hw' := foldl (fun hw k => appendKey k hw) hw ks in
  keysBuf hw'
  = mkSlice (ptr (keysBuf hw)) (len (keysBuf hw) + length ks) (cap (keysBuf hw))
  ∧ heap hw' !! ptr (keysBuf hw)
    = Some (take (len (keysBuf hw)) arr ++ ks
            ++ drop (len (keysBuf hw) + length ks) arr).
Proof.
  induction ks as [|k ks IH]; intros hw arr Ha La Hle; simpl in *.
  - rewrite Nat.add_0_r, take_drop. split; [by destruct (keysBuf hw)|done].
  - destruct (appendKey_inplace k hw arr Ha ltac:(lia)) as [Hk Hh].
    specialize (IH (appendKey k hw) (<[len (keysBuf hw) := k]> arr)).
    rewrite Hk in IH. simpl in IH.
    destruct IH as [Hk' Hh']; [done|by rewrite length_insert|lia|].
    rewrite Hk', Hh'. split; [f_equal; lia|]. f_equal.
    rewrite (take_S_r _ _ k) by (apply list_lookup_insert_eq; lia).
    rewrite take_insert_ge by lia.
    rewrite <- app_assoc. simpl. rewrite drop_insert_lt by lia.
    by rewrite Nat.add_succ_r.
Qed.

(** Collecting and sorting keys the array has room for. *)
Lemma collect_sorted_inplace ks hw arr :
  heap hw !! ptr (keysBuf hw) = Some arr →
  length arr = cap (keysBuf hw) →
  (length ks ≤ cap (keysBuf hw))%nat →
  let hw' := sortKeys (foldl (fun hw k => appendKey k hw) (truncateKeys hw) ks) in
  ptr (keysBuf hw') = ptr (keysBuf hw)
  ∧ cap (keysBuf hw') = cap (keysBuf hw)
  ∧ heap hw' !! ptr (keysBuf hw)
    = Some (sortStrings ks ++ drop (length ks) arr).
Proof.
  intros Ha La Hle hw'.
  destruct (foldl_appendKey_inplace ks (truncateKeys hw) arr) as [Hk Hh];
    simpl; try done.
  simpl in Hk, Hh. subst hw'. unfold sortKeys. simpl. rewrite Hk. simpl.
  repeat split.
  rewrite list_lookup_alter_eq, Hh. simpl. f_equal.
  by rewrite take_app_length, drop_app_length.
Qed.


Lemma maxKeys_entry m k v : In (k, v) m → (maxKeys v ≤ maxKeys (VMap m))%nat.
Proof.
  simpl. induction m as [|[k' v'] m IH]; simpl; [done|].
  intros [[= -> ->]|Hin]; [lia|]. specialize (IH Hin). lia.
Qed.

Lemma maxKeys_length m : (length m ≤ maxKeys (VMap m))%nat.
Proof. simpl. lia. Qed.

Lemma maxKeys_element sl v : In v sl → (maxKeys v ≤ maxKeys (VSlice sl))%nat.
Proof.
  simpl. induction sl as [|x sl IH]; simpl; [done|].
  intros [->|Hin]; [lia|]. specialize (IH Hin). lia.
Qed.

Lemma aliasFree_VMap m :
  aliasFree (VMap m) = true →
  (∀ k v, In (k, v) m → aliasFree v = true)
  ∧ (∀ t k v, (S t < length m)%nat →
       sortStrings (keys m) !! t = Some k → Get m k = Some v →
       (maxKeys v ≤ S t)%nat).
Proof.
  simpl. intros [Ha Hb]%andb_true_iff. split.
  - intros k v Hin. rewrite forallb_forall in Ha. apply (Ha (k, v) Hin).
  - intros t k v Ht Hk Hv. rewrite forallb_forall in Hb.
    specialize (Hb t). rewrite Hk in Hb. simpl in Hb. rewrite Hv in Hb.
    apply Nat.leb_le, Hb, in_seq. lia.
Qed.

Lemma sortStrings_keys_Get m k :
  In k (sortStrings (keys m)) → ∃ v, Get m k = Some v ∧ In (k, v) m.
Proof.
  intros Hin.
  apply (Permutation_in _ (sortStrings_Permutation (keys m))) in Hin.
  destruct (Get m k) as [v|] eqn:E.
  - exists v. split; [done|by apply Get_Some_In].
  - by apply Get_None_keys in E.
Qed.

Lemma canonicalEntries_cons m k ks :
  canonicalEntries m (k :: ks)
  = keyPrefix ++ k ++ from_option canonical [] (Get m k)
    ++ canonicalEntries m ks.
Proof. unfold canonicalEntries. simpl. by rewrite <- !app_assoc. Qed.

Lemma writeEntry_Get m k v hw :
  Get m k = Some v →
  writeEntry (fun k => writeValueHash <$> Get m k) k hw
  = writeValueHash v
      (hWrite (keyPrefix ++ k)
         (set_strBuf (keyPrefix ++ k)
            (set_strBuf keyPrefix (set_strBuf [] hw)))).
Proof. intros E. unfold writeEntry. by rewrite E. Qed.

(** The loop of [writeMapHash] from its iteration [i] on, when the keys
    it has yet to read are in place. *)
Lemma rangeKeys_entries m sk :
  (∀ k v, In (k, v) m → runsCanonically v) →
  (∀ k, In k sk → ∃ v, Get m k = Some v ∧ In (k, v) m) →
  ∀ j i hw arr,
    (i + j = length sk)%nat →
    wfHashWriter hw →
    heap hw !! ptr (keysBuf hw) = Some arr →
    (length sk ≤ cap (keysBuf hw))%nat →
    (∀ t, (i ≤ t < length sk)%nat → arr !! t = sk !! t) →
    (∀ t k v, (i ≤ t)%nat → (S t < length sk)%nat →
       sk !! t = Some k → Get m k = Some v → (maxKeys v ≤ S t)%nat) →
    ∃ hw',
      rangeKeys j i (ptr (keysBuf hw))
        (writeEntry (fun k => writeValueHash <$> Get m k)) hw = Ok hw'
      ∧ wfHashWriter hw'
      ∧ fed hw' = fed hw ++ canonicalEntries m (drop i sk)
      ∧ ∀ N, (∀ k v, In (k, v) m → (maxKeys v ≤ N)%nat) →
             (N ≤ cap (keysBuf hw))%nat → keeps N hw hw'.
Proof.
  intros IHm Hget.
  induction j as [|j IH]; intros i hw arr Hij Hwf Harr Hcap Hsk Hmax.
  - exists hw. simpl. rewrite drop_ge by lia.
    repeat split; try done.
    + by rewrite app_nil_r.
    + intros. by apply keeps_refl.
  - destruct (lookup_lt_is_Some_2 sk i) as [k Hk]; [lia|].
    destruct (Hget k) as (v & Hv & Hin);
      [by eapply list_elem_of_In, list_elem_of_lookup_2|].
    simpl. rewrite Harr. simpl. rewrite (Hsk i) by lia. rewrite Hk.
    rewrite (writeEntry_Get m k v hw Hv).
    set (hwk := hWrite (keyPrefix ++ k) _).
    assert (wfHashWriter hwk) as Hwfk by exact Hwf.
    destruct (IHm k v Hin hwk Hwfk) as (hw1 & Hrun & Hwf1 & Hfed1 & Hkeep1).
    rewrite Hrun. simpl.
    rewrite (drop_S _ _ _ Hk), canonicalEntries_cons, Hv. simpl from_option.
    destruct j as [|j].
    + exists hw1. simpl. rewrite drop_ge by lia.
      split; [done|]. split; [done|]. split.
      * rewrite Hfed1. unfold hwk, fed, hWrite. simpl.
        unfold canonicalEntries. simpl.
        by rewrite <- !app_assoc, app_nil_r.
      * intros N HN HNc.
        apply (keeps_same_l _ hwk); [done|done|].
        eapply keeps_mono; [apply (HN k v Hin)|].
        apply Hkeep1. specialize (HN k v Hin).
        change (cap (keysBuf hwk)) with (cap (keysBuf hw)). lia.
    + assert (maxKeys v ≤ S i)%nat as Hmk by (eapply (Hmax i); [lia|lia|done|done]).
      destruct Hkeep1 as (Hp1 & Hc1 & arr0 & arr1 & Ha0 & Ha1 & Hd1).
      { change (cap (keysBuf hwk)) with (cap (keysBuf hw)). lia. }
      change (ptr (keysBuf hwk)) with (ptr (keysBuf hw)) in *.
      change (cap (keysBuf hwk)) with (cap (keysBuf hw)) in *.
      change (heap hwk) with (heap hw) in *.
      rewrite Harr in Ha0. injection Ha0 as <-.
      destruct (IH (S i) hw1 arr1) as (hw' & Hrun' & Hwf' & Hfed' & Hkeep');
        try (rewrite ?Hp1, ?Hc1; done || lia).
      * intros t Ht. rewrite <- Hsk by lia.
        assert (drop (maxKeys v) arr1 !! (t - maxKeys v)%nat
                = drop (maxKeys v) arr !! (t - maxKeys v)%nat) as Hlk
          by by rewrite Hd1.
        rewrite !lookup_drop in Hlk.
        by replace (maxKeys v + (t - maxKeys v))%nat with t in Hlk by lia.
      * intros t k' v' Ht. apply Hmax. lia.
      * rewrite Hp1 in Hrun'. exists hw'.
        split; [done|]. split; [done|]. split.
        -- rewrite Hfed', Hfed1. unfold hwk, fed, hWrite. simpl.
           by rewrite <- !app_assoc.
        -- intros N HN HNc.
           apply (keeps_trans _ _ hw1).
           ++ apply (keeps_mono (maxKeys v)); [by apply (HN k v)|].
              repeat split; try done. by exists arr, arr1.
           ++ apply Hkeep'; [done|]. by rewrite Hc1.
Qed.


Lemma keys_length (m : Map) : length (keys m) = length m.
Proof. apply length_map. Qed.

(** [writeMapHash] on a map free of aliasing feeds its entries in key
    order. *)
Lemma writeMapHash_entries m hw :
  (∀ k v, In (k, v) m → runsCanonically v) →
  (∀ t k v, (S t < length m)%nat →
     sortStrings (keys m) !! t = Some k → Get m k = Some v →
     (maxKeys v ≤ S t)%nat) →
  wfHashWriter hw →
  ∃ hw', writeMapHash m hw = Ok hw'
         ∧ wfHashWriter hw'
         ∧ fed hw' = fed hw ++ canonicalEntries m (sortStrings (keys m))
         ∧ ((maxKeys (VMap m) ≤ cap (keysBuf hw))%nat →
            keeps (maxKeys (VMap m)) hw hw').
Proof.
  intros IHm Hmax Hwf. unfold writeMapHash, writeMapHashWith.
  destruct (collect_sorted (keys m) hw Hwf) as (Hfed & Hwf2 & Hlen & arr2 & Ha2 & Ht2).
  set (hw2 := sortKeys _) in *.
  assert (length (sortStrings (keys m)) = length m) as Hsl
    by by rewrite sortStrings_length, keys_length.
  rewrite keys_length in Hlen, Ht2.
  assert (Hwf2' := Hwf2). destruct Hwf2' as (arr2' & Ha2' & La2 & Hle2).
  rewrite Ha2 in Ha2'. injection Ha2' as <-.
  destruct (rangeKeys_entries m (sortStrings (keys m)) IHm
              (sortStrings_keys_Get m) (length m) 0 hw2 arr2)
    as (hw' & Hrun & Hwf' & Hfed' & Hkeep'); try done; try lia.
  - intros t Ht. rewrite <- Ht2. by rewrite lookup_take_lt by lia.
  - intros t k v _ Ht. apply Hmax. lia.
  - rewrite Hlen, Hrun. exists hw'.
    split; [done|]. split; [done|]. split; [by rewrite Hfed', Hfed|].
    intros HN.
    pose proof (maxKeys_length m) as Hn.
    destruct Hwf as (arr & Ha & La & Hle).
    destruct (collect_sorted_inplace (keys m) hw arr Ha La) as (Hp & Hc & Hh).
    { rewrite keys_length. lia. }
    fold hw2 in Hp, Hc, Hh. rewrite keys_length in Hh.
    destruct (Hkeep' (maxKeys (VMap m))) as (Hp' & Hc' & brr & brr' & Hb & Hb' & Hd).
    { intros k v Hin. by apply (maxKeys_entry m k). }
    { by rewrite Hc. }
    rewrite Hp in Hb, Hb'. rewrite Hh in Hb. injection Hb as <-.
    repeat split; try congruence.
    exists arr, brr'. repeat split; try done.
    rewrite Hd. rewrite drop_app_ge by (rewrite Hsl; lia).
    rewrite Hsl, drop_drop. f_equal. lia.
Qed.

Lemma writeSliceHash_elements sl :
  Forall runsCanonically sl →
  ∀ hw, wfHashWriter hw →
    ∃ hw', writeSliceHash sl hw = Ok hw'
           ∧ wfHashWriter hw'
           ∧ fed hw' = fed hw ++ flat_map canonical sl
           ∧ ((maxKeys (VSlice sl) ≤ cap (keysBuf hw))%nat →
              keeps (maxKeys (VSlice sl)) hw hw').
Proof.
  induction 1 as [|x sl Hx _ IH]; intros hw Hwf.
  - exists hw. simpl. rewrite app_nil_r. repeat split; try done.
    intros. by apply keeps_refl.
  - destruct (Hx hw Hwf) as (hw1 & Hrun & Hwf1 & Hfed1 & Hkeep1).
    destruct (IH hw1 Hwf1) as (hw' & Hrun' & Hwf' & Hfed' & Hkeep').
    exists hw'. cbn [writeSliceHash]. rewrite Hrun. simpl bind.
    split; [done|]. split; [done|]. split.
    + rewrite Hfed', Hfed1. simpl. by rewrite app_assoc.
    + intros HN.
      assert (maxKeys x ≤ maxKeys (VSlice (x :: sl)))%nat as Hmx
        by (apply maxKeys_element; by left).
      assert (maxKeys (VSlice sl) ≤ maxKeys (VSlice (x :: sl)))%nat as Hms
        by (simpl; lia).
      assert (keeps (maxKeys x) hw hw1) as K1 by (apply Hkeep1; lia).
      apply (keeps_trans _ _ hw1).
      * by apply (keeps_mono (maxKeys x)).
      * apply (keeps_mono (maxKeys (VSlice sl))); [done|].
        apply Hkeep'. destruct K1 as (_ & -> & _). lia.
Qed.

(** On a value free of aliasing the encoder feeds the canonical
    encoding. *)
Lemma aliasFree_runsCanonically v :
  aliasFree v = true → runsCanonically v.
Proof.
  induction v as [|s|i|bits|b|m IHm|sl IHsl|b|t] using Value_nested_ind;
    intros Haf hw Hwf;
    try (eexists; split; [reflexivity|];
         split; [exact Hwf|]; split;
         [unfold fed; simpl; by rewrite <- ?app_assoc
         |intros _; apply (keeps_same_r _ _ hw);
          [done|done|by apply keeps_refl]]).
  - exists (hWrite (if b then valBoolTrue else valBoolFalse) hw).
    destruct b;
      (split; [reflexivity|]; split; [exact Hwf|]; split;
       [done|intros _; apply (keeps_same_r _ _ hw);
             [done|done|by apply keeps_refl]]).
  - apply aliasFree_VMap in Haf as [Hall Hmax].
    rewrite writeValueHash_VMap, canonical_VMap.
    destruct (writeMapHash_entries m (hWrite valMapPrefix hw))
      as (hw' & Hrun & Hwf' & Hfed' & Hkeep'); try done.
    { intros k v Hin. rewrite Forall_forall in IHm.
      apply (IHm (k, v)); [by apply list_elem_of_In|by apply (Hall k)]. }
    rewrite Hrun. simpl bind. eexists. split; [reflexivity|].
    split; [exact Hwf'|]. split.
    + unfold fed in *. simpl in *. rewrite Hfed'. by rewrite <- !app_assoc.
    + intros HN. apply (keeps_same_r _ _ hw'); [done|done|].
      apply (keeps_same_l _ (hWrite valMapPrefix hw)); [done|done|].
      by apply Hkeep'.
  - rewrite writeValueHash_VSlice.
    destruct (writeSliceHash_elements sl) with (hw := hWrite valSlicePrefix hw)
      as (hw' & Hrun & Hwf' & Hfed' & Hkeep'); try done.
    { simpl in Haf. rewrite forallb_forall in Haf.
      rewrite Forall_forall in *. intros x Hx. apply IHsl; [done|].
      by apply Haf, list_elem_of_In. }
    rewrite Hrun. simpl bind. eexists. split; [reflexivity|].
    split; [exact Hwf'|]. split.
    + unfold fed in *. simpl in *. rewrite Hfed'. by rewrite <- !app_assoc.
    + intros HN. apply (keeps_same_r _ _ hw'); [done|done|].
      apply (keeps_same_l _ (hWrite valSlicePrefix hw)); [done|done|].
      by apply Hkeep'.
Qed.

End alias_free.

(** ** The stream [MapHash] feeds *)

Lemma ValueHashStream_canonical `{Runtime} hw v :
  wfHashWriter hw → aliasFree v = true →
  ValueHashStream hw v = Ok (canonical v).
Proof.
  intros Hwf Haf. unfold ValueHashStream.
  destruct (aliasFree_runsCanonically v Haf (set_h (xxhash.Reset (h hw)) hw))
    as (hw' & Hrun & _ & Hfed & _); [exact Hwf|].
  rewrite Hrun. simpl. by rewrite Hfed.
Qed.

(** C3, amended.  For a map free of aliasing the stream [MapHash] feeds is
    exactly its entries in byte-wise key order, each the key marker, the
    key and the encoding of its value, with no map-open marker before
    them and no map-close marker after them; the two markers enclose the
    same entries when the map is hashed as a value by [ValueHash]. *)
Theorem MapHash_stream_is_sorted_entries `{Runtime}
    (hw : hashWriter) (m : Map) :
  wfHashWriter hw →
  aliasFree (VMap m) = true →
  MapHashStream hw m = Ok (canonicalEntries m (sortStrings (keys m)))
  ∧ digest (MapHash hw m)
    = Ok (sum128 (canonicalEntries m (sortStrings (keys m))))
  ∧ ValueHashStream hw (VMap m)
    = Ok (valMapPrefix ++ canonicalEntries m (sortStrings (keys m))
          ++ valMapSuffix).
Proof.
  intros Hwf Haf.
  assert (MapHashStream hw m = Ok (canonicalEntries m (sortStrings (keys m))))
    as Hs.
  { unfold MapHashStream. apply aliasFree_VMap in Haf as [Hall Hmax].
    destruct (writeMapHash_entries m (set_h (xxhash.Reset (h hw)) hw))
      as (hw' & Hrun & _ & Hfed & _); try done.
    - intros k v Hin. by apply aliasFree_runsCanonically, (Hall k).
    - rewrite Hrun. simpl. by rewrite Hfed. }
  split; [exact Hs|]. split.
  - by rewrite MapHash_digest, Hs.
  - by rewrite ValueHashStream_canonical, canonical_VMap.
Qed.

Lemma MapHash_stream_is_sorted_entries_witness :
  wfHashWriter newHashWriter
  ∧ aliasFree (VMap [(str "b", VInt 2); (str "a", VStr (str "x"))]) = true
  ∧ MapHashStream (H:=doubling) newHashWriter
      [(str "b", VInt 2); (str "a", VStr (str "x"))]
    = Ok (canonicalEntries [(str "b", VInt 2); (str "a", VStr (str "x"))]
            [str "a"; str "b"]).
Proof.
  assert (wfHashWriter newHashWriter) as Hwf.
  { exists (replicate 16 []). repeat split. simpl. lia. }
  assert (aliasFree (VMap [(str "b", VInt 2); (str "a", VStr (str "x"))])
          = true) as Haf by reflexivity.
  split; [exact Hwf|]. split; [exact Haf|].
  exact (proj1 (MapHash_stream_is_sorted_entries (H:=doubling)
                  newHashWriter _ Hwf Haf)).
Defined.

(** ** Injectivity of the encoding without markers in payloads *)

Lemma Zbyte_eq_mod a b : Zbyte a = Zbyte b → a mod 256 = b mod 256.
Proof. intros E. apply (f_equal byteZ) in E. by rewrite !byteZ_Zbyte in E. Qed.

Lemma shifted_byte_bits x y s n :
  0 ≤ s →
  Zbyte (Z.shiftr x s) = Zbyte (Z.shiftr y s) →
  s ≤ n < s + 8 →
  Z.testbit x n = Z.testbit y n.
Proof.
  intros Hs E%Zbyte_eq_mod Hn.
  replace n with ((n - s) + s) by lia.
  rewrite <- !Z.shiftr_spec by lia.
  rewrite <- (Z.mod_pow2_bits_low (Z.shiftr x s) 8) by lia.
  rewrite <- (Z.mod_pow2_bits_low (Z.shiftr y s) 8) by lia.
  change (2 ^ 8) with 256. by rewrite E.
Qed.

Lemma PutUint64_inj x y :
  PutUint64 x = PutUint64 y → x mod 2 ^ 64 = y mod 2 ^ 64.
Proof.
  unfold PutUint64. intros [= E0 E1 E2 E3 E4 E5 E6 E7].
  change x with (Z.shiftr x 0) in E0. change y with (Z.shiftr y 0) in E0.
  apply Z.bits_inj'. intros n Hn.
  destruct (Z.lt_ge_cases n 64) as [Hlt|Hge].
  - rewrite !Z.mod_pow2_bits_low by lia.
    destruct (Z.lt_ge_cases n 8); [by eapply shifted_byte_bits; [|exact E0|]|].
    destruct (Z.lt_ge_cases n 16); [by eapply shifted_byte_bits; [|exact E1|]|].
    destruct (Z.lt_ge_cases n 24); [by eapply shifted_byte_bits; [|exact E2|]|].
    destruct (Z.lt_ge_cases n 32); [by eapply shifted_byte_bits; [|exact E3|]|].
    destruct (Z.lt_ge_cases n 40); [by eapply shifted_byte_bits; [|exact E4|]|].
    destruct (Z.lt_ge_cases n 48); [by eapply shifted_byte_bits; [|exact E5|]|].
    destruct (Z.lt_ge_cases n 56); [by eapply shifted_byte_bits; [|exact E6|]|].
    by eapply shifted_byte_bits; [|exact E7|].
  - by rewrite !Z.mod_pow2_bits_high by lia.
Qed.

Lemma PutUint64_length x : length (PutUint64 x) = 8%nat.
Proof. reflexivity. Qed.

Lemma PutUint64_int64_inj i j :
  - 2 ^ 63 ≤ i < 2 ^ 63 → - 2 ^ 63 ≤ j < 2 ^ 63 →
  PutUint64 (uint64 i) = PutUint64 (uint64 j) → i = j.
Proof.
  intros Hi Hj E%PutUint64_inj. unfold uint64 in E.
  rewrite !Z.mod_mod in E by lia.
  assert ((i - j) mod 2 ^ 64 = 0) as Hm.
  { rewrite Zminus_mod, E, Z.sub_diag. reflexivity. }
  apply Z.mod_divide in Hm; [|lia]. destruct Hm as [q Hq]. lia.
Qed.

Lemma PutUint64_bits_inj x y :
  0 ≤ x < 2 ^ 64 → 0 ≤ y < 2 ^ 64 → PutUint64 x = PutUint64 y → x = y.
Proof.
  intros Hx Hy E%PutUint64_inj. by rewrite !Z.mod_small in E.
Qed.

Lemma plain_cons b s : plain (b :: s) = true ↔ byteZ b < 0xF4 ∧ plain s = true.
Proof.
  unfold plain. simpl. rewrite andb_true_iff, Z.ltb_lt. tauto.
Qed.

(** A payload without markers ends where the next marker stands. *)
Lemma plain_split s1 : ∀ s2 r1 r2,
  plain s1 = true → plain s2 = true → boundary r1 → boundary r2 →
  s1 ++ r1 = s2 ++ r2 → s1 = s2 ∧ r1 = r2.
Proof.
  induction s1 as [|a s1 IH]; intros [|b s2] r1 r2 P1 P2 B1 B2 E; simpl in E.
  - done.
  - subst r1. simpl in B1. apply plain_cons in P2. lia.
  - subst r2. simpl in B2. apply plain_cons in P1. lia.
  - injection E as -> E. apply plain_cons in P1 as [_ P1].
    apply plain_cons in P2 as [_ P2].
    destruct (IH s2 r1 r2 P1 P2 B1 B2 E) as [-> ->]. done.
Qed.

(** The encoding of a well-formed value starts with the marker of its
    variant, which is neither the key marker nor a close marker. *)
Lemma canonical_head v :
  wellFormed v = true →
  ∃ t rest, canonical v = t :: rest
            ∧ 0xF5 ≤ byteZ t ∧ t ≠ xfd ∧ t ≠ xff.
Proof.
  destruct v as [|s|i|bits|[]|m|sl|b|t]; simpl; try discriminate; intros _;
    eexists _, _; (split; [reflexivity|]); vm_compute; (split; [discriminate|]);
    split; discriminate.
Qed.

Lemma canonical_boundary v r : wellFormed v = true → boundary (canonical v ++ r).
Proof.
  intros (t & rest & -> & Ht & _)%canonical_head. simpl. lia.
Qed.

Lemma normalize_VMap m :
  normalize (VMap m) = VMap (normalEntries m (sortStrings (keys m))).
Proof.
  simpl. unfold normalEntries. f_equal. apply map_ext. intros k. f_equal.
  induction m as [|[k' v'] m IH]; simpl; [done|].
  by destruct (decide (k' = k)).
Qed.

Lemma encodable_entry m k v :
  encodable (VMap m) → In (k, v) m → plain k = true ∧ encodable v.
Proof.
  intros [Hw Hm] Hin. simpl in Hw, Hm.
  apply andb_true_iff in Hw as [_ Hw].
  rewrite forallb_forall in Hw, Hm.
  specialize (Hw _ Hin). specialize (Hm _ Hin). simpl in Hw, Hm.
  apply andb_true_iff in Hm as [Hp Hm]. by repeat split.
Qed.

Lemma encodable_element sl v : encodable (VSlice sl) → In v sl → encodable v.
Proof.
  intros [Hw Hm] Hin. simpl in Hw, Hm. rewrite forallb_forall in Hw, Hm.
  split; auto.
Qed.

Lemma canonicalEntries_boundary m ks r :
  boundary (canonicalEntries m ks ++ xfd :: r).
Proof. destruct ks; simpl; vm_compute; discriminate. Qed.

Lemma flat_map_canonical_boundary sl r :
  (∀ v, In v sl → encodable v) →
  boundary (flat_map canonical sl ++ xff :: r).
Proof.
  destruct sl as [|x sl]; intros Hsl; simpl; [vm_compute; discriminate|].
  rewrite <- app_assoc. apply canonical_boundary, Hsl. by left.
Qed.

(** The elements of a slice, up to its close marker. *)
Lemma decodable_elements sl1 :
  Forall decodable sl1 →
  ∀ sl2 r1 r2,
    (∀ v, In v sl1 → encodable v) → (∀ v, In v sl2 → encodable v) →
    flat_map canonical sl1 ++ xff :: r1 = flat_map canonical sl2 ++ xff :: r2 →
    map normalize sl1 = map normalize sl2 ∧ r1 = r2.
Proof.
  induction 1 as [|x sl1 Hx _ IH]; intros [|y sl2] r1 r2 H1 H2 E; simpl in E.
  - by injection E as ->.
  - destruct (canonical_head y) as (t & rest & Hy & _ & _ & Ht);
      [by apply H2; left|].
    rewrite Hy in E. simpl in E. by injection E as <-.
  - destruct (canonical_head x) as (t & rest & Hc & _ & _ & Ht);
      [by apply H1; left|].
    rewrite Hc in E. simpl in E. by injection E as ->.
  - rewrite <- !app_assoc in E.
    destruct (Hx y _ _ (H1 x ltac:(by left)) (H2 y ltac:(by left))
                (flat_map_canonical_boundary sl1 r1
                   (fun v Hv => H1 v (or_intror Hv)))
                (flat_map_canonical_boundary sl2 r2
                   (fun v Hv => H2 v (or_intror Hv))) E) as [Hn E'].
    destruct (IH sl2 r1 r2) as [Hs ->]; try done.
    + intros v Hv. apply H1. by right.
    + intros v Hv. apply H2. by right.
    + simpl. by rewrite Hn, Hs.
Qed.

(** The entries of a map, up to its close marker. *)
Lemma decodable_entries m1 m2 ks1 :
  (∀ k v, In (k, v) m1 → decodable v) →
  encodable (VMap m1) → encodable (VMap m2) →
  ∀ ks2 r1 r2,
    (∀ k, In k ks1 → ∃ v, Get m1 k = Some v ∧ In (k, v) m1) →
    (∀ k, In k ks2 → ∃ v, Get m2 k = Some v ∧ In (k, v) m2) →
    canonicalEntries m1 ks1 ++ xfd :: r1 = canonicalEntries m2 ks2 ++ xfd :: r2 →
    normalEntries m1 ks1 = normalEntries m2 ks2 ∧ r1 = r2.
Proof.
  intros IHm E1 E2.
  induction ks1 as [|k1 ks1 IH]; intros [|k2 ks2] r1 r2 G1 G2 E.
  - simpl in E. by injection E as ->.
  - rewrite canonicalEntries_cons in E. simpl in E. discriminate.
  - rewrite canonicalEntries_cons in E. simpl in E. discriminate.
  - rewrite !canonicalEntries_cons in E. simpl in E. injection E as E.
    destruct (G1 k1 ltac:(by left)) as (v1 & Hv1 & Hin1).
    destruct (G2 k2 ltac:(by left)) as (v2 & Hv2 & Hin2).
    rewrite Hv1, Hv2 in E. simpl in E. rewrite <- !app_assoc in E.
    destruct (encodable_entry m1 k1 v1 E1 Hin1) as [Hp1 He1].
    destruct (encodable_entry m2 k2 v2 E2 Hin2) as [Hp2 He2].
    apply plain_split in E as [-> E]; try done;
      try (apply canonical_boundary; by destruct He1, He2).
    destruct (IHm k2 v1 Hin1 v2 _ _ He1 He2
                (canonicalEntries_boundary m1 ks1 r1)
                (canonicalEntries_boundary m2 ks2 r2) E) as [Hn E'].
    destruct (IH ks2 r1 r2) as [Hs ->]; try done.
    + intros k Hk. apply G1. by right.
    + intros k Hk. apply G2. by right.
    + unfold normalEntries in *. simpl. rewrite Hv1, Hv2. simpl.
      by rewrite Hn, Hs.
Qed.

Lemma fixed_payload_inj (t : byte) x y r1 r2 :
  (t :: PutUint64 x) ++ r1 = (t :: PutUint64 y) ++ r2 →
  PutUint64 x = PutUint64 y ∧ r1 = r2.
Proof.
  intros E. rewrite <- !app_comm_cons in E.
  apply (f_equal tail) in E. cbn [tail] in E.
  by apply app_inj_1 in E.
Qed.

Lemma decodable_all v : decodable v.
Proof.
  induction v as [|s|i|bits|b|m IHm|sl IHsl|b|t] using Value_nested_ind;
    intros v2 r1 r2 E1 E2 B1 B2 E.
  - destruct v2 as [|s2|i2|bits2|[]|m2|sl2|b2|t2], E2 as [W2 M2];
      try discriminate. by injection E as ->.
  - destruct v2 as [|s2|i2|bits2|[]|m2|sl2|b2|t2], E1 as [W1 M1], E2 as [W2 M2];
      try discriminate.
    simpl in E. injection E as E.
    by apply plain_split in E as [-> ->].
  - destruct v2 as [|s2|i2|bits2|[]|m2|sl2|b2|t2], E1 as [W1 M1], E2 as [W2 M2];
      try discriminate.
    change (canonical (VInt i)) with (xfa :: PutUint64 (uint64 i)) in E.
    change (canonical (VInt i2)) with (xfa :: PutUint64 (uint64 i2)) in E.
    apply fixed_payload_inj in E as [E ->].
    simpl in W1, W2.
    apply andb_true_iff in W1 as [?%Z.leb_le ?%Z.ltb_lt].
    apply andb_true_iff in W2 as [?%Z.leb_le ?%Z.ltb_lt].
    by rewrite (PutUint64_int64_inj i i2).
  - destruct v2 as [|s2|i2|bits2|[]|m2|sl2|b2|t2], E1 as [W1 M1], E2 as [W2 M2];
      try discriminate.
    change (canonical (VDouble bits)) with (xfb :: PutUint64 bits) in E.
    change (canonical (VDouble bits2)) with (xfb :: PutUint64 bits2) in E.
    apply fixed_payload_inj in E as [E ->].
    simpl in W1, W2.
    apply andb_true_iff in W1 as [?%Z.leb_le ?%Z.ltb_lt].
    apply andb_true_iff in W2 as [?%Z.leb_le ?%Z.ltb_lt].
    by rewrite (PutUint64_bits_inj bits bits2).
  - destruct b, v2 as [|s2|i2|bits2|[]|m2|sl2|b2|t2], E2 as [W2 M2];
      try discriminate; by injection E as ->.
  - destruct v2 as [|s2|i2|bits2|[]|m2|sl2|b2|t2];
      try (destruct E2 as [W2 M2]; discriminate).
    rewrite !canonical_VMap in E. simpl in E. injection E as E.
    rewrite <- !app_assoc in E. simpl in E.
    rewrite !normalize_VMap.
    destruct (decodable_entries m m2 (sortStrings (keys m))) with
      (ks2 := sortStrings (keys m2)) (r1 := r1) (r2 := r2) as [-> ->];
      try done; try apply sortStrings_keys_Get.
    intros k v Hin. rewrite Forall_forall in IHm.
    apply (IHm (k, v)). by apply list_elem_of_In.
  - destruct v2 as [|s2|i2|bits2|[]|m2|sl2|b2|t2];
      try (destruct E2 as [W2 M2]; discriminate).
    simpl in E. injection E as E.
    rewrite <- !app_assoc in E. simpl in E.
    destruct (decodable_elements sl IHsl sl2 r1 r2
                (fun v Hv => encodable_element sl v E1 Hv)
                (fun v Hv => encodable_element sl2 v E2 Hv) E) as [Hn ->].
    simpl. by rewrite Hn.
  - destruct v2 as [|s2|i2|bits2|[]|m2|sl2|b2|t2], E1 as [W1 M1], E2 as [W2 M2];
      try discriminate.
    simpl in E. injection E as E.
    by apply plain_split in E as [-> ->].
  - by destruct E1.
Qed.

(** The canonical encoding is injective, up to the order of insertion of
    map entries, on well-formed values without markers in payloads and
    keys. *)
Lemma canonical_injective v1 v2 :
  encodable v1 → encodable v2 →
  canonical v1 = canonical v2 → normalize v1 = normalize v2.
Proof.
  intros E1 E2 E.
  destruct (decodable_all v1 v2 [] [] E1 E2 I I) as [Hn _]; [|done].
  by rewrite !app_nil_r.
Qed.

(** Two maps with the same entries in different orders have the same
    normal form. *)
Lemma normalize_perm (m m' : Map) :
  NoDup (keys m) → m ≡ₚ m' → normalize (VMap m) = normalize (VMap m').
Proof.
  intros Hnd Hp. rewrite !normalize_VMap. f_equal. unfold normalEntries.
  rewrite (sortStrings_perm (keys m) (keys m')) by (by apply Permutation_map).
  apply map_ext. intros k. by rewrite (Get_perm m m' k Hnd Hp).
Qed.

(** C2, amended.  On well-formed values free of aliasing whose string and
    byte payloads and map keys hold none of the marker bytes 0xF4 to 0xFF,
    the encoder is injective up to the order of insertion of map entries:
    two such values with different normal forms feed different streams. *)
Theorem encoder_injective_without_markers `{Runtime}
    (hw1 hw2 : hashWriter) (v1 v2 : Value) :
  wfHashWriter hw1 → wfHashWriter hw2 →
  wellFormed v1 = true → wellFormed v2 = true →
  markerFree v1 = true → markerFree v2 = true →
  aliasFree v1 = true → aliasFree v2 = true →
  normalize v1 ≠ normalize v2 →
  ValueHashStream hw1 v1 ≠ ValueHashStream hw2 v2.
Proof.
  intros Hw1 Hw2 W1 W2 M1 M2 A1 A2 Hne.
  rewrite !ValueHashStream_canonical by done.
  intros [= E]. apply Hne. by apply canonical_injective.
Qed.

Lemma encoder_injective_without_markers_witness :
  wfHashWriter newHashWriter
  ∧ wellFormed (VStr (str "1")) = true ∧ wellFormed (VInt 1) = true
  ∧ markerFree (VStr (str "1")) = true ∧ markerFree (VInt 1) = true
  ∧ aliasFree (VStr (str "1")) = true ∧ aliasFree (VInt 1) = true
  ∧ normalize (VStr (str "1")) ≠ normalize (VInt 1)
  ∧ ValueHashStream (H:=doubling) newHashWriter (VStr (str "1"))
    ≠ ValueHashStream (H:=doubling) newHashWriter (VInt 1).
Proof.
  assert (wfHashWriter newHashWriter) as Hwf.
  { exists (replicate 16 []). repeat split. simpl. lia. }
  assert (normalize (VStr (str "1")) ≠ normalize (VInt 1)) as Hne
    by (simpl; discriminate).
  split; [exact Hwf|]. do 6 (split; [reflexivity|]). split; [exact Hne|].
  exact (encoder_injective_without_markers (H:=doubling)
           newHashWriter newHashWriter (VStr (str "1")) (VInt 1)
           Hwf Hwf eq_refl eq_refl eq_refl eq_refl eq_refl eq_refl Hne).
Defined.

(** ** Arithmetic of the digest engine *)

Section xxhash_facts.
Import xxhash.

Lemma two64_pow : two64 = 2 ^ 64.
Proof. reflexivity. Qed.

Lemma u64_w64 x : w64 (u64 x).
Proof. unfold w64, u64. apply Z.mod_pos_bound. reflexivity. Qed.

Lemma u64_small x : w64 x → u64 x = x.
Proof. intros Hx. unfold u64. by apply Z.mod_small. Qed.

Lemma w64_testbit_high x m : w64 x → 64 ≤ m → Z.testbit x m = false.
Proof.
  intros Hx Hm. rewrite <- (u64_small x Hx). unfold u64. rewrite two64_pow.
  apply Z.mod_pow2_bits_high. lia.
Qed.

Lemma w64_bits_inj x y :
  w64 x → w64 y →
  (∀ m, 0 ≤ m < 64 → Z.testbit x m = Z.testbit y m) → x = y.
Proof.
  intros Hx Hy Hb. apply Z.bits_inj'. intros m Hm.
  destruct (Z.lt_ge_cases m 64); [apply Hb; lia|].
  by rewrite !w64_testbit_high.
Qed.

Lemma u64_lxor x y : u64 (Z.lxor x y) = Z.lxor (u64 x) (u64 y).
Proof.
  unfold u64. rewrite two64_pow, <- !Z.land_ones by lia.
  apply Z.bits_inj'. intros m Hm.
  rewrite !Z.lxor_spec, !Z.land_spec, !Z.lxor_spec.
  by destruct (Z.testbit x m), (Z.testbit y m), (Z.testbit (Z.ones 64) m).
Qed.

Lemma lxor_w64 x y : w64 x → w64 y → w64 (Z.lxor x y).
Proof.
  intros Hx Hy.
  rewrite <- (u64_small x Hx), <- (u64_small y Hy), <- u64_lxor.
  apply u64_w64.
Qed.

Lemma shiftr_w64 x k : w64 x → 0 ≤ k → w64 (Z.shiftr x k).
Proof.
  intros [Hx0 Hx1] Hk. rewrite Z.shiftr_div_pow2 by lia. split.
  - apply Z.div_pos; lia.
  - apply Z.le_lt_trans with x; [|done].
    apply Z.div_le_upper_bound; [lia|]. nia.
Qed.

Lemma lxor_cancel_r x y k : Z.lxor x k = Z.lxor y k → x = y.
Proof.
  intros E. apply (f_equal (fun z => Z.lxor z k)) in E.
  by rewrite !Z.lxor_assoc, Z.lxor_nilpotent, !Z.lxor_0_r in E.
Qed.

(** [h ^= h >> k] can be undone. *)
Lemma xorshift_inj k x y :
  0 < k → w64 x → w64 y →
  Z.lxor x (Z.shiftr x k) = Z.lxor y (Z.shiftr y k) → x = y.
Proof.
  intros Hk Hx Hy E.
  assert (∀ n : nat, ∀ m, 64 - Z.of_nat n ≤ m → 0 ≤ m →
            Z.testbit x m = Z.testbit y m) as Hbits.
  { induction n as [|n IH]; intros m Hm Hm0.
    - rewrite (w64_testbit_high x m Hx), (w64_testbit_high y m Hy) by lia.
      done.
    - assert (Z.testbit (Z.lxor x (Z.shiftr x k)) m
              = Z.testbit (Z.lxor y (Z.shiftr y k)) m) as Eb by by rewrite E.
      rewrite !Z.lxor_spec, !Z.shiftr_spec in Eb by lia.
      rewrite (IH (m + k)) in Eb by lia.
      by destruct (Z.testbit x m), (Z.testbit y m), (Z.testbit y (m + k)). }
  apply Z.bits_inj'. intros m Hm. apply (Hbits 64%nat); lia.
Qed.

(** Multiplication by a unit of the ring of 64-bit words can be undone. *)
Lemma mul_unit_inj p q x y :
  u64 (p * q) = 1 → w64 x → w64 y → u64 (x * p) = u64 (y * p) → x = y.
Proof.
  intros Hpq Hx Hy E.
  assert (∀ z, w64 z → u64 (u64 (z * p) * q) = z) as Hinv.
  { intros z Hz. unfold u64 in *.
    rewrite Z.mul_mod_idemp_l by done.
    rewrite <- Z.mul_assoc, <- Z.mul_mod_idemp_r, Hpq, Z.mul_1_r by done.
    by apply Z.mod_small. }
  by rewrite <- (Hinv x Hx), <- (Hinv y Hy), E.
Qed.

Lemma prime1_unit : u64 (prime1 * 614540362697595703) = 1.
Proof. reflexivity. Qed.

Lemma prime2_unit : u64 (prime2 * 839798700976720815) = 1.
Proof. reflexivity. Qed.

Lemma prime3_unit : u64 (prime3 * 16855272203555305545) = 1.
Proof. reflexivity. Qed.

Lemma add_const_inj c x y : u64 (x + c) = u64 (y + c) → u64 x = u64 y.
Proof.
  intros E. unfold u64 in *.
  replace x with ((x + c) - c) by lia. replace y with ((y + c) - c) by lia.
  by rewrite Zminus_mod, E, <- Zminus_mod.
Qed.

(** Bit [m] of a word rotated left by [r] is bit [m - r] of the word,
    counted modulo 64. *)
Lemma rol_bits r x m :
  0 < r < 64 → w64 x → 0 ≤ m < 64 →
  Z.testbit (rol r x) m = Z.testbit x ((m - r) mod 64).
Proof.
  intros Hr Hx Hm. unfold rol, u64. rewrite two64_pow.
  rewrite Z.mod_pow2_bits_low by lia.
  rewrite Z.lor_spec, Z.shiftl_spec, Z.shiftr_spec by lia.
  destruct (Z.lt_ge_cases m r) as [Hlt|Hge].
  - rewrite (Z.testbit_neg_r x (m - r)) by lia. simpl.
    f_equal. apply (Z.mod_unique _ _ (-1)); lia.
  - rewrite (w64_testbit_high x (m + (64 - r)) Hx) by lia.
    rewrite orb_false_r. f_equal. symmetry. apply Z.mod_small. lia.
Qed.

Lemma rol_w64 r x : w64 (rol r x).
Proof. apply u64_w64. Qed.

Lemma rol_inj r x y :
  0 < r < 64 → w64 x → w64 y → rol r x = rol r y → x = y.
Proof.
  intros Hr Hx Hy E. apply w64_bits_inj; try done. intros j Hj.
  pose proof (Z.mod_pos_bound (j + r) 64 ltac:(lia)) as Hm.
  assert (((j + r) mod 64 - r) mod 64 = j) as Hback.
  { rewrite Zminus_mod_idemp_l. replace (j + r - r) with j by lia.
    apply Z.mod_small. lia. }
  rewrite <- Hback, <- !rol_bits by done. by rewrite E.
Qed.

Lemma pow2_w64 n : 0 ≤ n < 64 → w64 (2 ^ n).
Proof.
  intros Hn. unfold w64. rewrite two64_pow. split; [lia|].
  apply Z.pow_lt_mono_r; lia.
Qed.

(** Flipping the lowest bit before a rotation by 27 flips bit 27 after. *)
Lemma rol27_lxor_1 x :
  w64 x → rol 27 (Z.lxor x 1) = Z.lxor (rol 27 x) (2 ^ 27).
Proof.
  intros Hx.
  assert (w64 1) as H1 by (apply (pow2_w64 0); lia).
  apply w64_bits_inj.
  - apply rol_w64.
  - apply lxor_w64; [apply rol_w64 | apply pow2_w64; lia].
  - intros m Hm.
    rewrite rol_bits by (lia || done || by apply lxor_w64).
    rewrite !Z.lxor_spec, rol_bits by (lia || done). f_equal.
    change 1 with (2 ^ 0) at 1.
    pose proof (Z.mod_pos_bound (m - 27) 64 ltac:(lia)) as Hb.
    rewrite !Z.pow2_bits_eqb by lia.
    destruct (decide (m = 27)) as [->|Hne]; [reflexivity|].
    destruct (Z.eqb_spec 0 ((m - 27) mod 64)) as [E0|_],
             (Z.eqb_spec 27 m) as [E1|_]; try done; try lia.
    exfalso. destruct (Z.lt_ge_cases m 27).
    + assert ((m - 27) mod 64 = m - 27 + 64)
        by (symmetry; apply (Z.mod_unique _ _ (-1)); lia). lia.
    + rewrite Z.mod_small in E0 by lia. lia.
Qed.

(** Flipping a bit adds or subtracts its weight. *)
Lemma lxor_pow2 x n :
  0 ≤ x → 0 ≤ n →
  Z.lxor x (2 ^ n) = x + 2 ^ n ∨ Z.lxor x (2 ^ n) = x - 2 ^ n.
Proof.
  intros Hx Hn.
  assert (∀ z, Z.testbit z n = false → Z.lxor z (2 ^ n) = z + 2 ^ n) as Hadd.
  { intros z Hz. symmetry. apply Z.add_nocarry_lxor.
    apply Z.bits_inj'. intros m Hm.
    rewrite Z.land_spec, Z.pow2_bits_eqb, Z.bits_0 by lia.
    destruct (Z.eqb_spec n m) as [->|]; [by rewrite Hz|apply andb_false_r]. }
  destruct (Z.testbit x n) eqn:Hb.
  - right.
    assert (Z.testbit (Z.lxor x (2 ^ n)) n = false) as Hc.
    { rewrite Z.lxor_spec, Hb, Z.pow2_bits_eqb, Z.eqb_refl by lia. done. }
    apply Hadd in Hc.
    rewrite Z.lxor_assoc, Z.lxor_nilpotent, Z.lxor_0_r in Hc. lia.
  - left. by apply Hadd.
Qed.

Lemma avalanche_inj x y : w64 x → w64 y → avalanche x = avalanche y → x = y.
Proof.
  intros Hx Hy E. unfold avalanche in E. cbv zeta in E.
  apply xorshift_inj in E; try (lia || apply u64_w64).
  apply (mul_unit_inj _ _ _ _ prime3_unit) in E;
    try (apply lxor_w64; [apply u64_w64 | apply shiftr_w64; [apply u64_w64|lia]]).
  apply xorshift_inj in E; try (lia || apply u64_w64).
  apply (mul_unit_inj _ _ _ _ prime2_unit) in E;
    try (apply lxor_w64; [done | apply shiftr_w64; [done|lia]]).
  by apply xorshift_inj in E.
Qed.

Lemma avalanche_w64 x : w64 (avalanche x).
Proof.
  unfold avalanche. cbv zeta.
  apply lxor_w64; [apply u64_w64 | apply shiftr_w64; [apply u64_w64|lia]].
Qed.

Lemma byte_key_w64 b : w64 (u64 (byteZ b * prime5)).
Proof. apply u64_w64. Qed.

(** Two words that mix to the same word with their bytes differ by the
    difference of the keys of the bytes. *)
Lemma mixByte_eq h1 h2 b1 b2 :
  w64 h1 → w64 h2 →
  mixByte h1 b1 = mixByte h2 b2 →
  Z.lxor h1 (u64 (byteZ b1 * prime5)) = Z.lxor h2 (u64 (byteZ b2 * prime5)).
Proof.
  intros H1 H2 E. unfold mixByte in E.
  apply (mul_unit_inj _ _ _ _ prime1_unit) in E; try apply rol_w64.
  apply rol_inj in E; try lia; try (apply lxor_w64; [done|apply u64_w64]).
Qed.

Lemma mixByte_inj h1 h2 b :
  w64 h1 → w64 h2 → mixByte h1 b = mixByte h2 b → h1 = h2.
Proof.
  intros H1 H2 E%mixByte_eq; try done. by apply lxor_cancel_r in E.
Qed.

Lemma mixByte_w64 h b : w64 (mixByte h b).
Proof. apply u64_w64. Qed.

Lemma round0_inj k1 k2 : w64 k1 → w64 k2 → round 0 k1 = round 0 k2 → k1 = k2.
Proof.
  intros H1 H2 E. unfold round in E. rewrite !Z.add_0_l in E.
  apply (mul_unit_inj _ _ _ _ prime1_unit) in E; try apply rol_w64.
  apply rol_inj in E; try lia; try apply u64_w64.
  by apply (mul_unit_inj _ _ _ _ prime2_unit) in E.
Qed.

Lemma mixWord64_inj h k1 k2 :
  w64 h → w64 k1 → w64 k2 → mixWord64 h k1 = mixWord64 h k2 → k1 = k2.
Proof.
  intros Hh H1 H2 E. unfold mixWord64 in E.
  apply add_const_inj in E.
  apply (mul_unit_inj _ _ _ _ prime1_unit) in E; try apply rol_w64.
  apply rol_inj in E; try lia; try (apply lxor_w64; [done|apply u64_w64]).
  rewrite !(Z.lxor_comm h) in E. apply lxor_cancel_r in E.
  by apply round0_inj.
Qed.

End xxhash_facts.

(** ** Doubles: the bit pattern decides the digest *)

Section doubles.
Import xxhash.

Lemma sum64_double bits :
  sum64 (valDoublePrefix ++ PutUint64 bits)
  = avalanche (mixByte (mixWord64 seed9 (laneOf bits)) (topByte bits)).
Proof. reflexivity. Qed.

Lemma sum64_double_extra bits :
  sum64 ((valDoublePrefix ++ PutUint64 bits) ++ extraByte)
  = avalanche
      (mixByte (mixByte (mixWord64 seed10 (laneOf bits)) (topByte bits)) xf3).
Proof. reflexivity. Qed.

Lemma laneOf_value bits : laneOf bits = 0xFB + 256 * (bits mod 2 ^ 56).
Proof.
  unfold laneOf. cbn [le]. rewrite !byteZ_Zbyte.
  rewrite !Z.shiftr_div_pow2 by lia.
  change (byteZ xfb) with 0xFB.
  pose proof (Z.div_mod bits 256 ltac:(lia)) as H0.
  pose proof (Z.div_mod (bits / 2 ^ 8) 256 ltac:(lia)) as H1.
  pose proof (Z.div_mod (bits / 2 ^ 16) 256 ltac:(lia)) as H2.
  pose proof (Z.div_mod (bits / 2 ^ 24) 256 ltac:(lia)) as H3.
  pose proof (Z.div_mod (bits / 2 ^ 32) 256 ltac:(lia)) as H4.
  pose proof (Z.div_mod (bits / 2 ^ 40) 256 ltac:(lia)) as H5.
  pose proof (Z.div_mod (bits / 2 ^ 48) 256 ltac:(lia)) as H6.
  rewrite !Z.div_div in * by lia.
  change (2 ^ 8 * 256) with (2 ^ 16) in *.
  change (2 ^ 16 * 256) with (2 ^ 24) in *.
  change (2 ^ 24 * 256) with (2 ^ 32) in *.
  change (2 ^ 32 * 256) with (2 ^ 40) in *.
  change (2 ^ 40 * 256) with (2 ^ 48) in *.
  change (2 ^ 48 * 256) with (2 ^ 56) in *.
  change (bits / 256) with (bits / 2 ^ 8) in *.
  rewrite (Z.mod_eq bits (2 ^ 56)) by lia.
  lia.
Qed.

Lemma laneOf_w64 bits : w64 (laneOf bits).
Proof.
  rewrite laneOf_value. unfold w64, two64.
  pose proof (Z.mod_pos_bound bits (2 ^ 56) ltac:(lia)). lia.
Qed.

Lemma topByte_value bits : w64 bits → byteZ (topByte bits) = bits / 2 ^ 56.
Proof.
  intros [H0 H1]. unfold topByte. rewrite byteZ_Zbyte.
  rewrite Z.shiftr_div_pow2 by lia. apply Z.mod_small. split.
  - apply Z.div_pos; lia.
  - apply Z.div_lt_upper_bound; [lia|]. unfold two64 in H1. lia.
Qed.

(** The lane and the top byte determine the bit pattern. *)
Lemma lane_top_inj bits1 bits2 :
  w64 bits1 → w64 bits2 →
  laneOf bits1 = laneOf bits2 → topByte bits1 = topByte bits2 →
  bits1 = bits2.
Proof.
  intros H1 H2 El Et. rewrite !laneOf_value in El.
  apply (f_equal byteZ) in Et. rewrite !topByte_value in Et by done.
  rewrite (Z.div_mod bits1 (2 ^ 56)), (Z.div_mod bits2 (2 ^ 56)) by lia.
  lia.
Qed.

Lemma isNaN_w64 bits : isNaN bits = true → w64 bits.
Proof.
  unfold isNaN. rewrite !andb_true_iff, Z.leb_le, Z.ltb_lt.
  unfold w64, two64. lia.
Qed.

(** The top byte of a NaN is 0x7F or 0xFF. *)
Lemma isNaN_topByte bits :
  isNaN bits = true → byteZ (topByte bits) = 127 ∨ byteZ (topByte bits) = 255.
Proof.
  intros Hn. pose proof (isNaN_w64 bits Hn) as Hw.
  rewrite topByte_value by done.
  unfold isNaN in Hn. rewrite !andb_true_iff, Z.eqb_eq in Hn.
  destruct Hn as [[_ He] _].
  change 0x7FF with (Z.ones 11) in He at 1.
  rewrite Z.land_ones, Z.shiftr_div_pow2 in He by lia.
  destruct Hw as [H0 H1]. unfold two64 in H1.
  assert (bits / 2 ^ 56 = bits / 2 ^ 52 / 2 ^ 4) as ->
    by (rewrite Z.div_div by lia; reflexivity).
  assert (0 ≤ bits / 2 ^ 52 < 4096) as Hr.
  { split; [apply Z.div_pos; lia|apply Z.div_lt_upper_bound; lia]. }
  pose proof (Z.div_mod (bits / 2 ^ 52) (2 ^ 11) ltac:(lia)) as Hd.
  assert (bits / 2 ^ 52 / 2 ^ 11 = 0 ∨ bits / 2 ^ 52 / 2 ^ 11 = 1) as [Hq|Hq].
  { assert (0 ≤ bits / 2 ^ 52 / 2 ^ 11 < 2);
      [split; [apply Z.div_pos; lia|apply Z.div_lt_upper_bound; lia]|lia]. }
  - left. replace (bits / 2 ^ 52) with 2047 by lia. reflexivity.
  - right. replace (bits / 2 ^ 52) with 4095 by lia. reflexivity.
Qed.


Lemma window_land x : window x = Z.land (Z.shiftr x 27) (Z.ones 5).
Proof. unfold window. by rewrite Z.land_ones, Z.shiftr_div_pow2 by lia. Qed.

Lemma window_lxor x y : window (Z.lxor x y) = Z.lxor (window x) (window y).
Proof.
  rewrite !window_land, Z.shiftr_lxor.
  apply Z.bits_inj'. intros m Hm.
  rewrite !Z.lxor_spec, !Z.land_spec, !Z.lxor_spec.
  by destruct (Z.testbit (Z.shiftr x 27) m), (Z.testbit (Z.shiftr y 27) m),
    (Z.testbit (Z.ones 5) m).
Qed.

Lemma window_range x : 0 ≤ window x < 32.
Proof. unfold window. apply Z.mod_pos_bound. lia. Qed.

Lemma window_u64 z : window (u64 z) = (z / 2 ^ 27) mod 32.
Proof.
  unfold window, u64, two64.
  rewrite (Z.div_mod z 18446744073709551616) at 2 by lia.
  replace (18446744073709551616 * (z / 18446744073709551616)
           + z mod 18446744073709551616)
    with (z mod 18446744073709551616
          + (137438953472 * (z / 18446744073709551616)) * 2 ^ 27) by lia.
  rewrite Z.div_add by lia.
  replace (137438953472 * (z / 18446744073709551616))
    with (4294967296 * (z / 18446744073709551616) * 32) by lia.
  by rewrite Z.mod_add by lia.
Qed.

(** Bits 27 to 31 of a word with [k * 2 ^ 27] added. *)
Lemma window_add z k :
  window (u64 (z + k * 2 ^ 27)) = (window (u64 z) + k mod 32) mod 32.
Proof.
  rewrite !window_u64, Z.div_add by lia.
  by rewrite Zplus_mod_idemp_l, Zplus_mod_idemp_r.
Qed.

(** Hashing one byte more moves bits 27 to 31 of the accumulator by 7, up
    or down. *)
Lemma mixWord64_window k :
  w64 k →
  window (mixWord64 seed10 k) = (window (mixWord64 seed9 k) + 7) mod 32
  ∨ window (mixWord64 seed10 k) = (window (mixWord64 seed9 k) + 25) mod 32.
Proof.
  intros Hk. unfold mixWord64.
  assert (w64 (round 0 k)) as Hu by apply u64_w64.
  assert (w64 seed9) as H9 by apply u64_w64.
  set (x := Z.lxor seed9 (round 0 k)).
  assert (w64 x) as Hx by by apply lxor_w64.
  assert (Z.lxor seed10 (round 0 k) = Z.lxor x 1) as ->.
  { unfold x. change seed10 with (Z.lxor seed9 1).
    by rewrite !Z.lxor_assoc, (Z.lxor_comm 1). }
  rewrite rol27_lxor_1 by done.
  pose proof (rol_w64 27 x) as [Ha0 _].
  destruct (lxor_pow2 (rol 27 x) 27 Ha0 ltac:(lia)) as [->| ->].
  - left.
    replace ((rol 27 x + 2 ^ 27) * prime1 + prime4)
      with ((rol 27 x * prime1 + prime4) + prime1 * 2 ^ 27) by lia.
    by rewrite window_add.
  - right.
    replace ((rol 27 x - 2 ^ 27) * prime1 + prime4)
      with ((rol 27 x * prime1 + prime4) + (- prime1) * 2 ^ 27) by lia.
    by rewrite window_add.
Qed.

Lemma windowCheck_true : windowCheck = true.
Proof. vm_compute. reflexivity. Qed.

Lemma window_moves_apart a b a' b' s1 s2 :
  0 ≤ a < 32 →
  Z.lxor a b = 10 →
  (s1 = 7 ∨ s1 = 25) → (s2 = 7 ∨ s2 = 25) →
  a' = (a + s1) mod 32 → b' = (b + s2) mod 32 →
  Z.lxor a' b' ≠ 10.
Proof.
  intros Ha Hab Hs1 Hs2 -> ->.
  assert (b = Z.lxor a 10) as ->.
  { by rewrite <- Hab, <- Z.lxor_assoc, Z.lxor_nilpotent, Z.lxor_0_l. }
  assert (In a (map Z.of_nat (seq 0 32))) as Hin.
  { apply in_map_iff. exists (Z.to_nat a). split; [lia|]. apply in_seq. lia. }
  assert (In s1 [7; 25]) as Hin1 by (destruct Hs1 as [->| ->]; simpl; auto).
  assert (In s2 [7; 25]) as Hin2 by (destruct Hs2 as [->| ->]; simpl; auto).
  pose proof windowCheck_true as Hc. unfold windowCheck in Hc.
  rewrite forallb_forall in Hc. specialize (Hc a Hin).
  rewrite forallb_forall in Hc. specialize (Hc s1 Hin1).
  rewrite forallb_forall in Hc. specialize (Hc s2 Hin2).
  by apply negb_true_iff, Z.eqb_neq in Hc.
Qed.

(** Two NaN patterns with different top bytes cannot agree on both halves
    of the digest. *)
Lemma nan_halves_differ bits1 bits2 :
  isNaN bits1 = true → isNaN bits2 = true →
  topByte bits1 ≠ topByte bits2 →
  mixByte (mixWord64 seed9 (laneOf bits1)) (topByte bits1)
  = mixByte (mixWord64 seed9 (laneOf bits2)) (topByte bits2) →
  mixByte (mixWord64 seed10 (laneOf bits1)) (topByte bits1)
  = mixByte (mixWord64 seed10 (laneOf bits2)) (topByte bits2) →
  False.
Proof.
  intros N1 N2 Hne E9 E10.
  apply mixByte_eq in E9; try apply u64_w64.
  apply mixByte_eq in E10; try apply u64_w64.
  set (T1 := mixWord64 seed9 (laneOf bits1)) in *.
  set (T2 := mixWord64 seed9 (laneOf bits2)) in *.
  set (T1' := mixWord64 seed10 (laneOf bits1)) in *.
  set (T2' := mixWord64 seed10 (laneOf bits2)) in *.
  assert (∀ A B k1 k2, Z.lxor A k1 = Z.lxor B k2 →
            Z.lxor A B = Z.lxor k1 k2) as Hx.
  { intros A B k1 k2 E.
    apply (f_equal (fun z => Z.lxor z (Z.lxor B k1))) in E.
    rewrite (Z.lxor_comm B k1) in E at 1.
    rewrite <- !Z.lxor_assoc in E.
    rewrite (Z.lxor_assoc A k1 k1), Z.lxor_nilpotent, Z.lxor_0_r in E.
    rewrite (Z.lxor_assoc B k2 B), (Z.lxor_comm k2 B), <- (Z.lxor_assoc B B k2),
      Z.lxor_nilpotent, Z.lxor_0_l in E.
    by rewrite E, Z.lxor_comm. }
  apply Hx in E9. apply Hx in E10.
  assert (window (Z.lxor (u64 (byteZ (topByte bits1) * prime5))
                         (u64 (byteZ (topByte bits2) * prime5))) = 10) as Hc.
  { destruct (isNaN_topByte bits1 N1) as [B1|B1],
             (isNaN_topByte bits2 N2) as [B2|B2];
      try (exfalso; apply Hne, byteZ_inj; congruence);
      rewrite B1, B2; reflexivity. }
  apply (f_equal window) in E9, E10. rewrite Hc, window_lxor in E9, E10.
  destruct (mixWord64_window (laneOf bits1) (laneOf_w64 bits1)) as [M1|M1],
           (mixWord64_window (laneOf bits2) (laneOf_w64 bits2)) as [M2|M2];
    fold T1 T1' in M1; fold T2 T2' in M2.
  - exact (window_moves_apart _ _ _ _ 7 7 (window_range T1) E9
             (or_introl eq_refl) (or_introl eq_refl) M1 M2 E10).
  - exact (window_moves_apart _ _ _ _ 7 25 (window_range T1) E9
             (or_introl eq_refl) (or_intror eq_refl) M1 M2 E10).
  - exact (window_moves_apart _ _ _ _ 25 7 (window_range T1) E9
             (or_intror eq_refl) (or_introl eq_refl) M1 M2 E10).
  - exact (window_moves_apart _ _ _ _ 25 25 (window_range T1) E9
             (or_intror eq_refl) (or_intror eq_refl) M1 M2 E10).
Qed.

Lemma be8_inj a b : w64 a → w64 b → be8 a = be8 b → a = b.
Proof.
  intros Ha Hb E. apply PutUint64_bits_inj; try done.
  apply (f_equal (@rev byte)) in E. exact E.
Qed.

(** The sixteen bytes made of the stream of a NaN tell its bit pattern. *)
Lemma sum128_nan_inj bits1 bits2 :
  isNaN bits1 = true → isNaN bits2 = true →
  sum128 (valDoublePrefix ++ PutUint64 bits1)
  = sum128 (valDoublePrefix ++ PutUint64 bits2) →
  bits1 = bits2.
Proof.
  intros N1 N2 E. unfold sum128 in E.
  apply app_inj_1 in E as [E9 E10]; [|reflexivity].
  apply be8_inj in E9; try apply avalanche_w64.
  apply be8_inj in E10; try apply avalanche_w64.
  rewrite !sum64_double in E9. rewrite !sum64_double_extra in E10.
  apply avalanche_inj in E9; try apply mixByte_w64.
  apply avalanche_inj in E10; try apply mixByte_w64.
  apply mixByte_inj in E10; try apply mixByte_w64.
  destruct (decide (topByte bits1 = topByte bits2)) as [Et|Hne].
  - rewrite Et in E9. apply mixByte_inj in E9; try apply u64_w64.
    apply mixWord64_inj in E9; try apply laneOf_w64; try apply u64_w64.
    apply lane_top_inj; try done; by apply isNaN_w64.
  - exfalso. by apply (nan_halves_differ bits1 bits2).
Qed.

End doubles.

(** C7.  A double is fed as the double marker followed by the eight bytes
    of its bit pattern, least significant first, and two doubles holding
    different NaN bit patterns get different digests, whatever
    [hashWriter] each call draws. *)
Theorem NaN_patterns_hash_differently `{Runtime}
    (hw1 hw2 : hashWriter) (bits1 bits2 : Z) :
  isNaN bits1 = true →
  isNaN bits2 = true →
  bits1 ≠ bits2 →
  ValueHashStream hw1 (VDouble bits1) = Ok (valDoublePrefix ++ PutUint64 bits1)
  ∧ ValueHashStream hw2 (VDouble bits2) = Ok (valDoublePrefix ++ PutUint64 bits2)
  ∧ digest (ValueHash hw1 (VDouble bits1))
    ≠ digest (ValueHash hw2 (VDouble bits2)).
Proof.
  intros N1 N2 Hne.
  assert (∀ hw bits, ValueHashStream hw (VDouble bits)
                     = Ok (valDoublePrefix ++ PutUint64 bits)) as Hs
    by reflexivity.
  split; [apply Hs|]. split; [apply Hs|].
  rewrite !ValueHash_digest, !Hs. unfold bind.
  intros E%Ok_inj. apply Hne. by apply sum128_nan_inj.
Qed.

Lemma NaN_patterns_hash_differently_witness :
  isNaN 0x7FF8000000000000 = true
  ∧ isNaN 0x7FF8000000000001 = true
  ∧ 0x7FF8000000000000 ≠ 0x7FF8000000000001
  ∧ digest (ValueHash (H:=doubling) newHashWriter (VDouble 0x7FF8000000000000))
    ≠ digest (ValueHash (H:=doubling) newHashWriter
                (VDouble 0x7FF8000000000001)).
Proof.
  assert (0x7FF8000000000000 ≠ 0x7FF8000000000001) as Hne by lia.
  split; [reflexivity|]. split; [reflexivity|]. split; [exact Hne|].
  exact (proj2 (proj2 (NaN_patterns_hash_differently (H:=doubling)
                         newHashWriter newHashWriter
                         0x7FF8000000000000 0x7FF8000000000001
                         eq_refl eq_refl Hne))).
Defined.

(** ** The encoder keeps a [hashWriter] well-formed *)

Section pool.
Context `{Runtime}.

Lemma wfHashWriter_appendKey k hw :
  wfHashWriter hw → wfHashWriter (appendKey k hw).
Proof.
  intros (arr & Ha & La & Hle).
  assert (collecting hw hw (take (len (keysBuf hw)) arr)
            (take (len (keysBuf hw)) arr)) as Hc.
  { repeat split; try done. by exists arr, arr. }
  apply (collecting_appendKey k k) in Hc.
  destruct Hc as (_ & _ & _ & _ & _ & _ & a1 & _ & H1 & _ & L1 & _ & Hle1 & _).
  by exists a1.
Qed.

Lemma wfHashWriter_truncateKeys hw :
  wfHashWriter hw → wfHashWriter (truncateKeys hw).
Proof.
  intros (arr & Ha & La & Hle). exists arr. repeat split; try done.
  simpl. lia.
Qed.

Lemma wfHashWriter_foldl_appendKey ks hw :
  wfHashWriter hw →
  wfHashWriter (foldl (fun hw k => appendKey k hw) hw ks).
Proof.
  revert hw. induction ks as [|k ks IH]; intros hw Hwf; simpl; [done|].
  by apply IH, wfHashWriter_appendKey.
Qed.

Lemma wfHashWriter_sortKeys hw : wfHashWriter hw → wfHashWriter (sortKeys hw).
Proof.
  intros (arr & Ha & La & Hle).
  destruct (sortKeys_spec hw arr Ha) as (_ & Hk & Hh).
  unfold wfHashWriter. rewrite Hk, Hh. eexists. split; [reflexivity|].
  rewrite length_app, sortStrings_length, length_take, length_drop. lia.
Qed.

Lemma wfResult_bind r f :
  wfResult r → (∀ hw, wfHashWriter hw → wfResult (f hw)) → wfResult (bind r f).
Proof. destruct r; simpl; auto. Qed.

Lemma wfResult_rangeKeys n i p body hw :
  (∀ k hw, wfHashWriter hw → wfResult (body k hw)) →
  wfHashWriter hw → wfResult (rangeKeys n i p body hw).
Proof.
  intros Hbody. revert i hw.
  induction n as [|n IH]; intros i hw Hwf; simpl; [done|].
  destruct (heap hw !! p ≫= _) as [k|]; [|done].
  apply wfResult_bind; [by apply Hbody|]. intros. by apply IH.
Qed.

Lemma wfResult_writeMapHashWith ks get hw :
  (∀ k write hw, get k = Some write → wfHashWriter hw → wfResult (write hw)) →
  wfHashWriter hw → wfResult (writeMapHashWith ks get hw).
Proof.
  intros Hget Hwf. unfold writeMapHashWith.
  apply wfResult_rangeKeys.
  - intros k hw' Hwf'. unfold writeEntry. cbv zeta.
    destruct (get k) as [write|] eqn:E; [|done].
    by apply (Hget k).
  - by apply wfHashWriter_sortKeys, wfHashWriter_foldl_appendKey,
      wfHashWriter_truncateKeys.
Qed.

Lemma wfResult_writeValueHash v :
  ∀ hw, wfHashWriter hw → wfResult (writeValueHash v hw).
Proof.
  induction v as [|s|i|bits|b|m IHm|sl IHsl|b|t] using Value_nested_ind;
    intros hw Hwf; try exact Hwf.
  - by destruct b.
  - rewrite writeValueHash_VMap.
    apply wfResult_bind; [|by intros].
    apply wfResult_writeMapHashWith; [|done].
    intros k write hw' Hk Hwf'.
    destruct (Get m k) as [v|] eqn:E; [|done]. injection Hk as <-.
    rewrite Forall_forall in IHm.
    apply (IHm (k, v)); [|done]. by apply list_elem_of_In, Get_Some_In.
  - rewrite writeValueHash_VSlice.
    apply wfResult_bind; [|by intros].
    assert (wfHashWriter (hWrite valSlicePrefix hw)) as Hwf' by exact Hwf.
    revert Hwf'. generalize (hWrite valSlicePrefix hw) as hw0.
    induction IHsl as [|x sl Hx _ IH]; intros hw0 Hwf0; simpl; [done|].
    apply wfResult_bind; [by apply Hx|apply IH].
Qed.

(** A [hashWriter] that calls that returned have put back is
    well-formed. *)
Lemma pooled_wfHashWriter hw : pooled hw → wfHashWriter hw.
Proof.
  induction 1 as [|hw m d hw' _ IH E|hw v d hw' _ IH E].
  - exists (replicate 16 []). repeat split. simpl. lia.
  - unfold MapHash in E. apply bind_Ok in E as (hw1 & E1 & [= _ <-]).
    pose proof (wfResult_writeMapHashWith (keys m)
                  (fun k => writeValueHash <$> Get m k)
                  (set_h (xxhash.Reset (h hw)) hw)) as Hr.
    fold (writeMapHash m (set_h (xxhash.Reset (h hw)) hw)) in Hr.
    rewrite E1 in Hr. apply Hr; [|exact IH].
    intros k write hw0 Hk Hwf0.
    destruct (Get m k) as [v|]; [|done]. injection Hk as <-.
    by apply wfResult_writeValueHash.
  - unfold ValueHash in E. apply bind_Ok in E as (hw1 & E1 & [= _ <-]).
    pose proof (wfResult_writeValueHash v
                  (set_h (xxhash.Reset (h hw)) hw) IH) as Hr.
    by rewrite E1 in Hr.
Qed.

End pool.

(** ** What a run depends on *)

Section in_step.
Context `{Runtime} (p1 p2 : list byte).

Lemma inStep_hWrite b hw1 hw2 :
  inStep p1 p2 hw1 hw2 → inStep p1 p2 (hWrite b hw1) (hWrite b hw2).
Proof.
  intros (Hk & Hh & s & F1 & F2). repeat split; try done.
  exists (s ++ b). unfold fed in *. simpl. rewrite F1, F2.
  by rewrite !app_assoc.
Qed.

Lemma inStep_truncateKeys hw1 hw2 :
  inStep p1 p2 hw1 hw2 → inStep p1 p2 (truncateKeys hw1) (truncateKeys hw2).
Proof.
  intros (Hk & Hh & Hs). unfold truncateKeys. repeat split; try done.
  simpl. by rewrite Hk.
Qed.

Lemma inStep_appendKey k hw1 hw2 :
  inStep p1 p2 hw1 hw2 → inStep p1 p2 (appendKey k hw1) (appendKey k hw2).
Proof.
  intros (Hk & Hh & Hs). unfold appendKey. rewrite <- Hk, <- Hh.
  by destruct (len (keysBuf hw1) <? cap (keysBuf hw1))%nat.
Qed.

Lemma inStep_foldl_appendKey ks : ∀ hw1 hw2,
  inStep p1 p2 hw1 hw2 →
  inStep p1 p2 (foldl (fun hw k => appendKey k hw) hw1 ks)
               (foldl (fun hw k => appendKey k hw) hw2 ks).
Proof.
  induction ks as [|k ks IH]; intros hw1 hw2 Hs; simpl; [done|].
  by apply IH, inStep_appendKey.
Qed.

Lemma inStep_sortKeys hw1 hw2 :
  inStep p1 p2 hw1 hw2 → inStep p1 p2 (sortKeys hw1) (sortKeys hw2).
Proof.
  intros (Hk & Hh & Hs). unfold sortKeys. by rewrite <- Hk, <- Hh.
Qed.

Lemma inStepR_bind r1 r2 f1 f2 :
  inStepR p1 p2 r1 r2 →
  (∀ hw1 hw2, inStep p1 p2 hw1 hw2 → inStepR p1 p2 (f1 hw1) (f2 hw2)) →
  inStepR p1 p2 (bind r1 f1) (bind r2 f2).
Proof. destruct r1, r2; simpl; auto; done. Qed.

Lemma inStep_rangeKeys n p body1 body2 :
  (∀ k hw1 hw2,
     inStep p1 p2 hw1 hw2 → inStepR p1 p2 (body1 k hw1) (body2 k hw2)) →
  ∀ i hw1 hw2,
    inStep p1 p2 hw1 hw2 →
    inStepR p1 p2 (rangeKeys n i p body1 hw1) (rangeKeys n i p body2 hw2).
Proof.
  intros Hbody.
  induction n as [|n IH]; intros i hw1 hw2 Hs; simpl; [done|].
  assert (heap hw1 = heap hw2) as <- by apply Hs.
  destruct (heap hw1 !! p ≫= _) as [k|]; simpl; [|done].
  apply inStepR_bind; [by apply Hbody|]. intros. by apply IH.
Qed.

Lemma inStep_writeMapHashWith ks get hw1 hw2 :
  (∀ k write, get k = Some write →
     ∀ hw1 hw2, inStep p1 p2 hw1 hw2 → inStepR p1 p2 (write hw1) (write hw2)) →
  inStep p1 p2 hw1 hw2 →
  inStepR p1 p2 (writeMapHashWith ks get hw1) (writeMapHashWith ks get hw2).
Proof.
  intros Hget Hs. unfold writeMapHashWith.
  assert (inStep p1 p2
            (sortKeys (foldl (fun hw k => appendKey k hw) (truncateKeys hw1) ks))
            (sortKeys (foldl (fun hw k => appendKey k hw) (truncateKeys hw2) ks)))
    as Hsorted
    by by apply inStep_sortKeys, inStep_foldl_appendKey, inStep_truncateKeys.
  assert (Hk := Hsorted). destruct Hk as (Hk & _). rewrite <- Hk.
  apply inStep_rangeKeys; [|exact Hsorted].
  intros k a b Hab. unfold writeEntry. cbv zeta.
  destruct (get k) as [write|] eqn:E; [|done].
  apply (Hget k write E).
  apply (inStep_hWrite (keyPrefix ++ k)) in Hab. exact Hab.
Qed.

(** Runs in step stay in step: neither the bytes fed so far nor what the
    scratch buffers hold decides what the encoder does. *)
Lemma inStep_writeValueHash v :
  ∀ hw1 hw2, inStep p1 p2 hw1 hw2 →
    inStepR p1 p2 (writeValueHash v hw1) (writeValueHash v hw2).
Proof.
  induction v as [|s|i|bits|b|m IHm|sl IHsl|b|t] using Value_nested_ind;
    intros hw1 hw2 Hs.
  - exact (inStep_hWrite valEmpty _ _ Hs).
  - exact (inStep_hWrite (valStrPrefix ++ s) _ _ Hs).
  - apply (inStep_hWrite valIntPrefix) in Hs.
    exact (inStep_hWrite (PutUint64 (uint64 i)) _ _ Hs).
  - apply (inStep_hWrite valDoublePrefix) in Hs.
    exact (inStep_hWrite (PutUint64 bits) _ _ Hs).
  - destruct b; [exact (inStep_hWrite valBoolTrue _ _ Hs)
                |exact (inStep_hWrite valBoolFalse _ _ Hs)].
  - rewrite !writeValueHash_VMap.
    apply inStepR_bind; [|intros a b Hab; exact (inStep_hWrite _ _ _ Hab)].
    apply inStep_writeMapHashWith; [|by apply inStep_hWrite].
    intros k write Hk. destruct (Get m k) as [v|] eqn:E; [|done].
    injection Hk as <-. apply Get_Some_In in E.
    rewrite Forall_forall in IHm. apply (IHm (k, v)).
    by apply list_elem_of_In.
  - rewrite !writeValueHash_VSlice.
    apply inStepR_bind; [|intros a b Hab; exact (inStep_hWrite _ _ _ Hab)].
    apply (inStep_hWrite valSlicePrefix) in Hs.
    revert Hs. generalize (hWrite valSlicePrefix hw1) as a,
      (hWrite valSlicePrefix hw2) as b.
    induction IHsl as [|x sl Hx _ IH]; intros a b Hab; simpl; [done|].
    apply inStepR_bind; [by apply Hx | apply IH].
  - apply (inStep_hWrite valBytesPrefix) in Hs.
    exact (inStep_hWrite b _ _ Hs).
  - exact (inStep_hWrite valEmpty _ _ Hs).
Qed.

Lemma inStep_writeMapHash m hw1 hw2 :
  inStep p1 p2 hw1 hw2 →
  inStepR p1 p2 (writeMapHash m hw1) (writeMapHash m hw2).
Proof.
  intros Hs. apply inStep_writeMapHashWith; [|done].
  intros k write Hk. destruct (Get m k) as [v|]; [|done].
  injection Hk as <-. apply inStep_writeValueHash.
Qed.

End in_step.

(** ** The capacity of [keysBuf] *)

Section capacity.
Context `{Runtime}.

Lemma grown_refl N hw : wfHashWriter hw → grown N hw hw.
Proof. intros Hwf. by repeat split. Qed.

Lemma grown_trans N N' a b c :
  grown N a b → grown N' b c → grown (Nat.max N N') a c.
Proof.
  intros (_ & Hc & Hl & Hr) (Hwf & Hc' & Hl' & Hr').
  split; [done|]. split; [lia|]. split; [lia|]. intros HN.
  destruct Hr as (P & C & L); [lia|].
  destruct Hr' as (P' & C' & L'); [lia|].
  repeat split; congruence.
Qed.

Lemma grown_mono N N' a b : (N ≤ N')%nat → grown N a b → grown N' a b.
Proof.
  intros HN (Hwf & Hc & Hl & Hr). repeat split; try done; apply Hr; lia.
Qed.

Lemma grown_truncateKeys hw : wfHashWriter hw → grown 0 hw (truncateKeys hw).
Proof.
  intros Hwf. split; [by apply wfHashWriter_truncateKeys|]. by repeat split.
Qed.

Lemma grown_appendKey k hw :
  wfHashWriter hw → grown (S (len (keysBuf hw))) hw (appendKey k hw).
Proof.
  intros Hwf. split; [by apply wfHashWriter_appendKey|].
  destruct Hwf as (arr & Ha & La & Hle). unfold appendKey.
  destruct (Nat.ltb_spec (len (keysBuf hw)) (cap (keysBuf hw))) as [Hlt|Hge];
    unfold reuses; simpl.
  - rewrite length_alter. by repeat split.
  - rewrite Ha. simpl.
    rewrite !length_app, length_take. simpl. rewrite length_replicate.
    split; [lia|]. split; [lia|]. intros. lia.
Qed.

Lemma grown_foldl_appendKey ks : ∀ hw,
  wfHashWriter hw →
  grown (len (keysBuf hw) + length ks) hw
    (foldl (fun hw k => appendKey k hw) hw ks).
Proof.
  induction ks as [|k ks IH]; intros hw Hwf; simpl.
  - by apply grown_refl.
  - pose proof (grown_appendKey k hw Hwf) as G1.
    pose proof (IH (appendKey k hw) (wfHashWriter_appendKey k hw Hwf)) as G2.
    rewrite appendKey_len in G2.
    eapply grown_mono; [|exact (grown_trans _ _ _ _ _ G1 G2)]. lia.
Qed.

Lemma grown_sortKeys hw : wfHashWriter hw → grown 0 hw (sortKeys hw).
Proof.
  intros Hwf. split; [by apply wfHashWriter_sortKeys|].
  unfold sortKeys, reuses. simpl. rewrite length_alter. by repeat split.
Qed.

Lemma grownR_bind N N' hw r f :
  grownR N hw r →
  (∀ hw', wfHashWriter hw' → grownR N' hw' (f hw')) →
  grownR (Nat.max N N') hw (bind r f).
Proof.
  destruct r as [hw1|]; simpl; [|done]. intros G Hf.
  specialize (Hf hw1 (proj1 G)).
  destruct (f hw1) as [hw2|]; simpl in *; [|done].
  by apply (grown_trans _ _ _ hw1).
Qed.

Lemma grownR_mono N N' hw r : (N ≤ N')%nat → grownR N hw r → grownR N' hw r.
Proof. destruct r; simpl; [|done]. apply grown_mono. Qed.

Lemma grownR_rangeKeys N n p body :
  (∀ k hw, wfHashWriter hw → grownR N hw (body k hw)) →
  ∀ i hw, wfHashWriter hw → grownR N hw (rangeKeys n i p body hw).
Proof.
  intros Hbody.
  induction n as [|n IH]; intros i hw Hwf; simpl; [by apply grown_refl|].
  destruct (heap hw !! p ≫= _) as [k|]; [|done].
  eapply grownR_mono; [|apply grownR_bind; [by apply Hbody|]].
  2: { intros hw' Hwf'. by apply IH. }
  lia.
Qed.

Lemma grownR_writeMapHashWith N ks get hw :
  (∀ k write, get k = Some write →
     ∀ hw, wfHashWriter hw → grownR N hw (write hw)) →
  wfHashWriter hw →
  grownR (Nat.max (length ks) N) hw (writeMapHashWith ks get hw).
Proof.
  intros Hget Hwf. unfold writeMapHashWith.
  pose proof (grown_truncateKeys hw Hwf) as G1.
  pose proof (grown_foldl_appendKey ks (truncateKeys hw) (proj1 G1)) as G2.
  simpl in G2.
  pose proof (grown_sortKeys _ (proj1 G2)) as G3.
  pose proof (grown_trans _ _ _ _ _ (grown_trans _ _ _ _ _ G1 G2) G3) as G.
  set (hw2 := sortKeys _) in *. clearbody hw2.
  assert (grownR (Nat.max (length ks) N) hw (Ok hw2)) as G'
    by (eapply grown_mono; [|exact G]; lia).
  pose proof (grownR_bind _ N hw (Ok hw2)
                (rangeKeys (len (keysBuf hw2)) 0 (ptr (keysBuf hw2))
                   (writeEntry get)) G') as Gb.
  eapply grownR_mono; [|apply Gb]; [lia|].
  apply grownR_rangeKeys. intros k hw' Hwf'. unfold writeEntry. cbv zeta.
  destruct (get k) as [write|] eqn:E; [|done].
  set (hwk := hWrite _ _). exact (Hget k write E hwk Hwf').
Qed.

Lemma grownR_writeMapHash_entries m :
  (∀ k v, In (k, v) m →
     ∀ hw, wfHashWriter hw → grownR (maxKeys v) hw (writeValueHash v hw)) →
  ∀ hw, wfHashWriter hw → grownR (maxKeys (VMap m)) hw (writeMapHash m hw).
Proof.
  intros IHm hw Hwf.
  eapply grownR_mono;
    [|apply (grownR_writeMapHashWith (maxKeys (VMap m))); [|exact Hwf]].
  - rewrite keys_length. pose proof (maxKeys_length m). lia.
  - intros k write Hk hw' Hwf'.
    destruct (Get m k) as [v|] eqn:E; [|done]. injection Hk as <-.
    apply Get_Some_In in E.
    eapply grownR_mono; [by apply (maxKeys_entry m k v)|].
    by apply (IHm k v).
Qed.

(** The encoder never gives up capacity, and allocates no key array when
    the one at hand has room for the keys of every map of the value. *)
Lemma grownR_writeValueHash v :
  ∀ hw, wfHashWriter hw → grownR (maxKeys v) hw (writeValueHash v hw).
Proof.
  induction v as [|s|i|bits|b|m IHm|sl IHsl|b|t] using Value_nested_ind;
    intros hw Hwf; try exact (grown_refl _ hw Hwf).
  - destruct b; exact (grown_refl _ hw Hwf).
  - rewrite writeValueHash_VMap.
    assert (grownR (maxKeys (VMap m)) (hWrite valMapPrefix hw)
              (writeMapHash m (hWrite valMapPrefix hw))) as G.
    { apply grownR_writeMapHash_entries; [|exact Hwf].
      intros k v Hin. rewrite Forall_forall in IHm.
      apply (IHm (k, v)). by apply list_elem_of_In. }
    destruct (writeMapHash m (hWrite valMapPrefix hw)) as [hw1|]; [|done].
    exact G.
  - rewrite writeValueHash_VSlice.
    assert (∀ hw0, wfHashWriter hw0 →
              grownR (maxKeys (VSlice sl)) hw0 (writeSliceHash sl hw0)) as G.
    { clear hw Hwf. induction IHsl as [|x sl Hx _ IH]; intros hw0 Hwf0.
      - by apply grown_refl.
      - cbn [writeSliceHash].
        eapply grownR_mono;
          [|apply (grownR_bind (maxKeys x) (maxKeys (VSlice sl)));
            [by apply Hx|exact IH]].
        simpl. lia. }
    specialize (G (hWrite valSlicePrefix hw) Hwf).
    destruct (writeSliceHash sl (hWrite valSlicePrefix hw)) as [hw1|]; [|done].
    exact G.
Qed.

Lemma grownR_writeMapHash m hw :
  wfHashWriter hw → grownR (maxKeys (VMap m)) hw (writeMapHash m hw).
Proof.
  apply grownR_writeMapHash_entries. intros k v _. apply grownR_writeValueHash.
Qed.

End capacity.

(** ** A map nested in a map *)

Section nested_maps.
Context `{Runtime}.

Lemma rangeKeys_app a b p body : ∀ i hw,
  rangeKeys (a + b) i p body hw
  = (hw' <- rangeKeys a i p body hw ;; rangeKeys b (i + a) p body hw').
Proof.
  induction a as [|a IH]; intros i hw; simpl.
  - by rewrite Nat.add_0_r.
  - destruct (heap hw !! p ≫= _) as [k|]; [|done].
    destruct (body k hw) as [hw1|]; simpl; [|done].
    rewrite IH. by rewrite Nat.add_succ_r.
Qed.

(** The first [i] iterations of the loop of [writeMapHash], when none of
    the values they hash holds a map with more entries than the loop has
    read keys. *)
Lemma rangeKeys_prefix m sk i :
  (∀ t k, (t < i)%nat → sk !! t = Some k →
     ∃ v, Get m k = Some v ∧ runsCanonically v ∧ (maxKeys v ≤ S t)%nat) →
  (i ≤ length sk)%nat →
  ∀ j a hw arr,
    (a + j = i)%nat →
    wfHashWriter hw →
    heap hw !! ptr (keysBuf hw) = Some arr →
    (i ≤ cap (keysBuf hw))%nat →
    (∀ t, (a ≤ t < i)%nat → arr !! t = sk !! t) →
    ∃ hw',
      rangeKeys j a (ptr (keysBuf hw))
        (writeEntry (fun k => writeValueHash <$> Get m k)) hw = Ok hw'
      ∧ wfHashWriter hw'
      ∧ keeps i hw hw'.
Proof.
  intros Hval Hlen.
  induction j as [|j IH]; intros a hw arr Haj Hwf Harr Hcap Hsk.
  - exists hw. repeat split; try done. by apply keeps_refl.
  - destruct (lookup_lt_is_Some_2 sk a) as [k Hk]; [lia|].
    destruct (Hval a k) as (v & Hv & Hrun & Hmk); [lia|done|].
    simpl. rewrite Harr. simpl. rewrite (Hsk a) by lia. rewrite Hk.
    rewrite (writeEntry_Get m k v hw Hv).
    set (hwk := hWrite (keyPrefix ++ k) _).
    assert (wfHashWriter hwk) as Hwfk by exact Hwf.
    destruct (Hrun hwk Hwfk) as (hw1 & Hrun1 & Hwf1 & _ & Hkeep1).
    rewrite Hrun1. simpl.
    assert (keeps (S a) hw hw1) as K1.
    { apply (keeps_same_l _ hwk); [done|done|].
      apply (keeps_mono (maxKeys v)); [done|]. apply Hkeep1.
      change (cap (keysBuf hwk)) with (cap (keysBuf hw)). lia. }
    assert (K1' := K1).
    destruct K1' as (Hp1 & Hc1 & arr0 & arr1 & Ha0 & Ha1 & Hd1).
    rewrite Harr in Ha0. injection Ha0 as <-.
    destruct (IH (S a) hw1 arr1) as (hw' & Hrun' & Hwf' & Hkeep');
      try (rewrite ?Hp1, ?Hc1; done || lia).
    + intros t Ht. rewrite <- Hsk by lia.
      assert (drop (S a) arr1 !! (t - S a)%nat
              = drop (S a) arr !! (t - S a)%nat) as Hlk by by rewrite Hd1.
      rewrite !lookup_drop in Hlk.
      by replace (S a + (t - S a))%nat with t in Hlk by lia.
    + rewrite Hp1 in Hrun'. exists hw'. split; [done|]. split; [done|].
      apply (keeps_trans _ _ hw1); [|done].
      apply (keeps_mono (S a)); [lia|done].
Qed.

(** A map free of aliasing that fits the array of [keysBuf] leaves its
    keys there, in key order, from the index on that no map within its
    values reaches. *)
Lemma writeMapHash_leaves_keys m N hw :
  aliasFree (VMap m) = true →
  (∀ k v, In (k, v) m → (maxKeys v ≤ N)%nat) →
  (N ≤ cap (keysBuf hw))%nat →
  (length m ≤ cap (keysBuf hw))%nat →
  wfHashWriter hw →
  ∃ hw' arr',
    writeMapHash m hw = Ok hw'
    ∧ wfHashWriter hw'
    ∧ ptr (keysBuf hw') = ptr (keysBuf hw)
    ∧ cap (keysBuf hw') = cap (keysBuf hw)
    ∧ heap hw' !! ptr (keysBuf hw) = Some arr'
    ∧ ∀ t, (N ≤ t < length m)%nat → arr' !! t = sortStrings (keys m) !! t.
Proof.
  intros Haf HN HNc Hlen Hwf. unfold writeMapHash, writeMapHashWith.
  apply aliasFree_VMap in Haf as [Hall Hmax].
  destruct (collect_sorted (keys m) hw Hwf)
    as (_ & Hwf2 & Hlen2 & arr2 & Ha2 & Ht2).
  assert (Hwf0 := Hwf). destruct Hwf0 as (arr & Ha & La & Hle).
  destruct (collect_sorted_inplace (keys m) hw arr Ha La) as (Hp & Hc & Hh).
  { by rewrite keys_length. }
  set (hw2 := sortKeys _) in *.
  rewrite keys_length in Hlen2, Ht2.
  destruct (rangeKeys_entries m (sortStrings (keys m))
              (fun k v Hin => aliasFree_runsCanonically v (Hall k v Hin))
              (sortStrings_keys_Get m) (length m) 0 hw2 arr2)
    as (hw' & Hrun & Hwf' & _ & Hkeep'); try done.
  - by rewrite sortStrings_length, keys_length.
  - rewrite sortStrings_length, keys_length. lia.
  - intros t Ht. rewrite <- Ht2. rewrite lookup_take_lt; [done|].
    rewrite sortStrings_length, keys_length in Ht. lia.
  - intros t k v _ Ht. apply Hmax.
    by rewrite sortStrings_length, keys_length in Ht.
  - destruct (Hkeep' N HN) as (Hp' & Hc' & brr & brr' & Hb & Hb' & Hd);
      [lia|].
    rewrite Ha2 in Hb. injection Hb as <-.
    rewrite Hlen2, Hrun. exists hw', brr'.
    split; [done|]. split; [done|].
    split; [congruence|]. split; [congruence|].
    split; [by rewrite <- Hp|].
    intros t Ht.
    assert (drop N brr' !! (t - N)%nat = drop N arr2 !! (t - N)%nat) as Hlk
      by by rewrite Hd.
    rewrite !lookup_drop in Hlk.
    replace (N + (t - N))%nat with t in Hlk by lia.
    rewrite Hlk, <- Ht2. rewrite lookup_take_lt; [done|lia].
Qed.

(** The loop of [writeMapHash] on a map whose [i]-th value, in key order,
    is a map with more than [i + 1] entries: the nested call puts its own
    keys where the loop is yet to read, and the loop asks the outer map
    for a key of the nested one. *)
Lemma writeMapHash_nested_Panic hw m i k inner j :
  wfHashWriter hw →
  (∀ t k' v', (t < i)%nat →
     sortStrings (keys m) !! t = Some k' → Get m k' = Some v' →
     aliasFree v' = true ∧ (maxKeys v' ≤ S t)%nat) →
  (S i < length m)%nat →
  sortStrings (keys m) !! i = Some k →
  Get m k = Some (VMap inner) →
  aliasFree (VMap inner) = true →
  (∀ k' v', In (k', v') inner → (maxKeys v' ≤ S i)%nat) →
  (length inner ≤ cap (keysBuf hw))%nat →
  sortStrings (keys inner) !! S i = Some j →
  Get m j = None →
  writeMapHash m hw = Panic.
Proof.
  intros Hwf Hbefore Hi Hk Hv Haf Hin Hcap Hj Hnone.
  assert (S i < length inner)%nat as Hlen.
  { apply lookup_lt_Some in Hj.
    by rewrite sortStrings_length, keys_length in Hj. }
  unfold writeMapHash, writeMapHashWith.
  destruct (collect_sorted (keys m) hw Hwf)
    as (_ & Hwf2 & Hlen2 & arr2 & Ha2 & Ht2).
  pose proof (grown_trans _ _ _ _ _
                (grown_trans _ _ _ _ _ (grown_truncateKeys hw Hwf)
                   (grown_foldl_appendKey (keys m) _
                      (wfHashWriter_truncateKeys hw Hwf)))
                (grown_sortKeys _
                   (wfHashWriter_foldl_appendKey (keys m) _
                      (wfHashWriter_truncateKeys hw Hwf))))
    as (_ & Hcap2 & _).
  set (hw2 := sortKeys _) in *. clearbody hw2.
  rewrite keys_length in Hlen2, Ht2.
  assert (length m ≤ cap (keysBuf hw2))%nat as Hfit.
  { destruct Hwf2 as (? & _ & _ & Hle). lia. }
  rewrite Hlen2.
  replace (length m) with (i + S (S (length m - S (S i))))%nat by lia.
  rewrite rangeKeys_app.
  destruct (rangeKeys_prefix m (sortStrings (keys m)) i) with
    (j := i) (a := 0%nat) (hw := hw2) (arr := arr2)
    as (hwi & Hruni & Hwfi & Hkeepi); try done; try lia.
  { intros t k' Ht Hk'.
    destruct (sortStrings_keys_Get m k') as (v' & Hv' & _).
    { by eapply list_elem_of_In, list_elem_of_lookup_2. }
    destruct (Hbefore t k' v' Ht Hk' Hv') as [Hafv Hmk].
    exists v'. split; [done|]. split; [|done].
    by apply aliasFree_runsCanonically. }
  { rewrite sortStrings_length, keys_length. lia. }
  { intros t Ht. rewrite <- Ht2. rewrite lookup_take_lt; [done|lia]. }
  rewrite Hruni. simpl bind.
  destruct Hkeepi as (Hpi & Hci & arr0 & arri & Ha0 & Hai & Hdi).
  rewrite Ha2 in Ha0. injection Ha0 as <-.
  assert (∀ t, (i ≤ t < length m)%nat → arri !! t = sortStrings (keys m) !! t)
    as Hski.
  { intros t Ht.
    assert (drop i arri !! (t - i)%nat = drop i arr2 !! (t - i)%nat) as Hlk
      by by rewrite Hdi.
    rewrite !lookup_drop in Hlk.
    replace (i + (t - i))%nat with t in Hlk by lia.
    rewrite Hlk, <- Ht2. rewrite lookup_take_lt; [done|lia]. }
  cbn [rangeKeys]. rewrite Hai. simpl mbind. rewrite (Hski i) by lia.
  rewrite Hk. rewrite (writeEntry_Get m k _ hwi Hv).
  set (hwk := hWrite (keyPrefix ++ k) _).
  rewrite writeValueHash_VMap.
  destruct (writeMapHash_leaves_keys inner (S i) (hWrite valMapPrefix hwk))
    as (hw1 & arr1 & Hrun1 & Hwf1 & Hp1 & Hc1 & Ha1 & Hsk1); try done.
  { change (cap (keysBuf (hWrite valMapPrefix hwk)))
      with (cap (keysBuf hwi)). lia. }
  { change (cap (keysBuf (hWrite valMapPrefix hwk)))
      with (cap (keysBuf hwi)). lia. }
  rewrite Hrun1. simpl bind.
  change (ptr (keysBuf (hWrite valMapPrefix hwk)))
    with (ptr (keysBuf hwi)) in Ha1.
  rewrite Hpi in Ha1.
  change (heap (hWrite valMapSuffix hw1)) with (heap hw1).
  rewrite Ha1. simpl mbind. rewrite (Hsk1 (S i)) by lia. rewrite Hj.
  unfold writeEntry. cbv zeta. by rewrite Hnone.
Qed.

End nested_maps.

(** ** [Get] *)

Lemma Get_app m1 m2 k :
  Get (m1 ++ m2) k
  = match Get m1 k with Some v => Some v | None => Get m2 k end.
Proof.
  induction m1 as [|[k' v'] m1 IH]; simpl; [done|].
  by destruct (decide (k' = k)).
Qed.

(** ** [sort.Strings] *)





(** ** [binary.LittleEndian] *)

Lemma le_PutUint64 x : xxhash.le (PutUint64 x) = x mod 2 ^ 64.
Proof.
  unfold PutUint64. cbn [xxhash.le]. rewrite !byteZ_Zbyte.
  rewrite !Z.shiftr_div_pow2 by lia.
  pose proof (Z.div_mod x 256 ltac:(lia)) as H0.
  pose proof (Z.div_mod (x / 2 ^ 8) 256 ltac:(lia)) as H1.
  pose proof (Z.div_mod (x / 2 ^ 16) 256 ltac:(lia)) as H2.
  pose proof (Z.div_mod (x / 2 ^ 24) 256 ltac:(lia)) as H3.
  pose proof (Z.div_mod (x / 2 ^ 32) 256 ltac:(lia)) as H4.
  pose proof (Z.div_mod (x / 2 ^ 40) 256 ltac:(lia)) as H5.
  pose proof (Z.div_mod (x / 2 ^ 48) 256 ltac:(lia)) as H6.
  pose proof (Z.div_mod (x / 2 ^ 56) 256 ltac:(lia)) as H7.
  rewrite !Z.div_div in * by lia.
  change (2 ^ 8 * 256) with (2 ^ 16) in *.
  change (2 ^ 16 * 256) with (2 ^ 24) in *.
  change (2 ^ 24 * 256) with (2 ^ 32) in *.
  change (2 ^ 32 * 256) with (2 ^ 40) in *.
  change (2 ^ 40 * 256) with (2 ^ 48) in *.
  change (2 ^ 48 * 256) with (2 ^ 56) in *.
  change (2 ^ 56 * 256) with (2 ^ 64) in *.
  change (x / 256) with (x / 2 ^ 8) in *.
  rewrite (Z.mod_eq x (2 ^ 64)) by lia.
  lia.
Qed.

Lemma int64_uint64 i : - 2 ^ 63 ≤ i < 2 ^ 63 → int64 (uint64 i) = i.
Proof.
  intros Hi. unfold int64, uint64.
  destruct (Z.lt_ge_cases i 0) as [Hneg|Hpos].
  - assert (i mod 2 ^ 64 = i + 2 ^ 64) as ->.
    { symmetry. apply (Z.mod_unique _ _ (-1)); lia. }
    destruct (Z.ltb_spec (i + 2 ^ 64) (2 ^ 63)); lia.
  - rewrite Z.mod_small by lia.
    destruct (Z.ltb_spec i (2 ^ 63)); lia.
Qed.

Lemma uint64_int64 x : 0 ≤ x < 2 ^ 64 → uint64 (int64 x) = x.
Proof.
  intros Hx. unfold int64, uint64.
  destruct (Z.ltb_spec x (2 ^ 63)).
  - apply Z.mod_small. lia.
  - symmetry. apply (Z.mod_unique _ _ (-1)); lia.
Qed.

(** ** Numbers that share their top byte *)

Section numbers.
Import xxhash.

Lemma sum64_w64 b : w64 (sum64 b).
Proof.
  unfold sum64. destruct (32 <=? length b)%nat; [|apply avalanche_w64].
  destruct (writeBlocks _ _ _) as [[[[v1 v2] v3] v4] rest].
  apply avalanche_w64.
Qed.

Lemma sum64_number marker x :
  sum64 ([marker] ++ PutUint64 x)
  = avalanche (mixByte (mixWord64 seed9 (laneWith marker x)) (topByte x)).
Proof. reflexivity. Qed.

Lemma laneWith_value marker x :
  laneWith marker x = byteZ marker + 256 * (x mod 2 ^ 56).
Proof.
  unfold laneWith. cbn [le]. rewrite !byteZ_Zbyte.
  rewrite !Z.shiftr_div_pow2 by lia.
  pose proof (Z.div_mod x 256 ltac:(lia)) as H0.
  pose proof (Z.div_mod (x / 2 ^ 8) 256 ltac:(lia)) as H1.
  pose proof (Z.div_mod (x / 2 ^ 16) 256 ltac:(lia)) as H2.
  pose proof (Z.div_mod (x / 2 ^ 24) 256 ltac:(lia)) as H3.
  pose proof (Z.div_mod (x / 2 ^ 32) 256 ltac:(lia)) as H4.
  pose proof (Z.div_mod (x / 2 ^ 40) 256 ltac:(lia)) as H5.
  pose proof (Z.div_mod (x / 2 ^ 48) 256 ltac:(lia)) as H6.
  rewrite !Z.div_div in * by lia.
  change (2 ^ 8 * 256) with (2 ^ 16) in *.
  change (2 ^ 16 * 256) with (2 ^ 24) in *.
  change (2 ^ 24 * 256) with (2 ^ 32) in *.
  change (2 ^ 32 * 256) with (2 ^ 40) in *.
  change (2 ^ 40 * 256) with (2 ^ 48) in *.
  change (2 ^ 48 * 256) with (2 ^ 56) in *.
  change (x / 256) with (x / 2 ^ 8) in *.
  rewrite (Z.mod_eq x (2 ^ 56)) by lia.
  lia.
Qed.

Lemma laneWith_w64 marker x : w64 (laneWith marker x).
Proof.
  rewrite laneWith_value. unfold w64, two64.
  pose proof (Z.mod_pos_bound x (2 ^ 56) ltac:(lia)).
  pose proof (byteZ_range marker). lia.
Qed.

(** The first half of the digest of a number tells the number among those
    with the same top byte. *)
Lemma sum64_number_inj marker x y :
  w64 x → w64 y → topByte x = topByte y →
  sum64 ([marker] ++ PutUint64 x) = sum64 ([marker] ++ PutUint64 y) →
  x = y.
Proof.
  intros Hx Hy Et E. rewrite !sum64_number in E.
  apply avalanche_inj in E; try apply mixByte_w64.
  rewrite Et in E. apply mixByte_inj in E; try apply u64_w64.
  apply mixWord64_inj in E; try apply laneWith_w64; try apply u64_w64.
  rewrite !laneWith_value in E.
  apply (f_equal byteZ) in Et. rewrite !topByte_value in Et by done.
  rewrite (Z.div_mod x (2 ^ 56)), (Z.div_mod y (2 ^ 56)) by lia.
  lia.
Qed.

Lemma sum128_number_inj marker x y :
  w64 x → w64 y → topByte x = topByte y →
  sum128 ([marker] ++ PutUint64 x) = sum128 ([marker] ++ PutUint64 y) →
  x = y.
Proof.
  intros Hx Hy Et E. unfold sum128 in E.
  apply app_inj_1 in E as [E9 _]; [|reflexivity].
  apply be8_inj in E9; try apply sum64_w64.
  by apply (sum64_number_inj marker).
Qed.

End numbers.

(** ** Maps that hold no maps *)

Lemma mapFree_maxKeys v : mapFree v = true → maxKeys v = 0%nat.
Proof.
  induction v as [|s|i|bits|b|m IHm|sl IHsl|b|t] using Value_nested_ind;
    try done.
  simpl. intros Hf. rewrite forallb_forall in Hf.
  induction IHsl as [|x sl Hx _ IH]; simpl; [done|].
  rewrite Hx, IH; [done| |].
  - intros y Hy. apply Hf. by right.
  - apply Hf. by left.
Qed.

Lemma mapFree_aliasFree v : mapFree v = true → aliasFree v = true.
Proof.
  induction v as [|s|i|bits|b|m IHm|sl IHsl|b|t] using Value_nested_ind;
    try done.
  simpl. intros Hf. rewrite forallb_forall in *.
  rewrite Forall_forall in IHsl.
  intros x Hx. apply IHsl; [by apply list_elem_of_In|by apply Hf].
Qed.

Lemma flatMaps_aliasFree v : flatMaps v = true → aliasFree v = true.
Proof.
  induction v as [|s|i|bits|b|m IHm|sl IHsl|b|t] using Value_nested_ind;
    try done.
  - simpl. intros Hf. rewrite forallb_forall in Hf.
    apply andb_true_iff. split; rewrite forallb_forall.
    + intros [k v] Hin. simpl. apply mapFree_aliasFree. apply (Hf (k, v) Hin).
    + intros i _.
      destruct (sortStrings (keys m) !! i) as [k|] eqn:Hk; [|done]. simpl.
      destruct (Get m k) as [v|] eqn:Hv; [|done].
      apply Get_Some_In in Hv.
      rewrite (mapFree_maxKeys v); [done|]. apply (Hf (k, v) Hv).
  - simpl. intros Hf. rewrite forallb_forall in *.
    rewrite Forall_forall in IHsl.
    intros x Hx. apply IHsl; [by apply list_elem_of_In|by apply Hf].
Qed.

(** ** Keys the loop of [writeMapHash] never gets to read *)

Lemma keysWithin_entry m k v :
  In (k, v) m →
  In k (keysWithin (VMap m))
  ∧ ∀ x, In x (keysWithin v) → In x (keysWithin (VMap m)).
Proof.
  intros Hin. simpl. split.
  - apply in_flat_map. exists (k, v). split; [done|]. by left.
  - intros x Hx. apply in_flat_map. exists (k, v). split; [done|]. by right.
Qed.

Lemma keysWithin_element sl v x :
  In v sl → In x (keysWithin v) → In x (keysWithin (VSlice sl)).
Proof. intros Hin Hx. simpl. apply in_flat_map. by exists v. Qed.

Section avoiding.
Context `{Runtime} (k' : key) (p n : nat).

Lemma avoids_truncateKeys hw :
  avoids k' p n hw → avoids k' p n (truncateKeys hw).
Proof.
  intros (arr & Ha & HB & HA). exists arr. repeat split; try done.
  simpl. intros _ t Ht. lia.
Qed.

Lemma avoids_appendKey k hw :
  k ≠ k' → avoids k' p n hw → avoids k' p n (appendKey k hw).
Proof.
  intros Hne (arr & Ha & HB & HA). unfold appendKey.
  destruct (len (keysBuf hw) <? cap (keysBuf hw))%nat; simpl.
  - destruct (decide (ptr (keysBuf hw) = p)) as [Hp|Hp].
    + exists (<[len (keysBuf hw) := k]> arr). unfold avoids. simpl.
      rewrite Hp, list_lookup_alter_eq, Ha. split; [done|].
      split.
      * intros t Ht [(_ & ? & _)|(_ & E)]%list_lookup_insert_Some;
          [congruence|]. by apply (HB t).
      * intros _ t Ht [(_ & ? & _)|(Hnt & E)]%list_lookup_insert_Some;
          [congruence|]. apply (HA Hp t); [lia|done].
    + exists arr. unfold avoids. simpl.
      rewrite list_lookup_alter_ne by done. by repeat split.
  - exists arr. unfold avoids. simpl.
    assert (p < length (heap hw))%nat as Hlt by by eapply lookup_lt_Some.
    rewrite lookup_app_l by done. repeat split; try done.
    intros Hp. lia.
Qed.

Lemma avoids_foldl_appendKey ks : ∀ hw,
  ¬ In k' ks → avoids k' p n hw →
  avoids k' p n (foldl (fun hw k => appendKey k hw) hw ks).
Proof.
  induction ks as [|k ks IH]; intros hw Hnin Hav; simpl; [done|].
  apply IH; [intros ?; apply Hnin; by right|].
  apply avoids_appendKey; [|done]. intros ->. apply Hnin. by left.
Qed.

Lemma avoids_sortKeys hw : avoids k' p n hw → avoids k' p n (sortKeys hw).
Proof.
  intros (arr & Ha & HB & HA). unfold sortKeys, avoids. simpl.
  destruct (decide (ptr (keysBuf hw) = p)) as [Hp|Hp].
  - rewrite Hp, list_lookup_alter_eq, Ha. simpl. eexists. split; [done|].
    assert (∀ t, (sortStrings (take (len (keysBuf hw)) arr)
                  ++ drop (len (keysBuf hw)) arr) !! t = Some k' →
                 arr !! t = Some k'
                 ∨ ∃ u, (u < len (keysBuf hw))%nat ∧ arr !! u = Some k') as Hlk.
    { intros t [E|[Hge E]]%lookup_app_Some.
      - right. apply list_elem_of_lookup_2, list_elem_of_In in E.
        apply (Permutation_in _ (sortStrings_Permutation _)) in E.
        apply list_elem_of_In, list_elem_of_lookup_1 in E as [u E].
        apply lookup_take_Some in E as [E Hu]. by exists u.
      - left. rewrite sortStrings_length, length_take in Hge, E.
        rewrite lookup_drop in E.
        destruct (decide (len (keysBuf hw) ≤ length arr)%nat).
        + by replace (len (keysBuf hw)
                      + (t - len (keysBuf hw) `min` length arr))%nat
            with t in E by lia.
        + apply lookup_lt_Some in E. lia. }
    split.
    + intros t Ht [E|(u & Hu & E)]%Hlk; [by apply (HB t)|by apply (HA Hp u)].
    + intros _ t Ht [E|(u & Hu & E)]%Hlk; [by apply (HA Hp t)|by apply (HA Hp u)].
  - exists arr. rewrite list_lookup_alter_ne by done. by repeat split.
Qed.

Lemma avoidsR_bind r f :
  avoidsR k' p n r →
  (∀ hw, avoids k' p n hw → avoidsR k' p n (f hw)) →
  avoidsR k' p n (bind r f).
Proof. destruct r; simpl; auto. Qed.

Lemma avoidsR_rangeKeys c q body :
  (∀ k hw, avoids k' p n hw → avoidsR k' p n (body k hw)) →
  ∀ i hw, avoids k' p n hw → avoidsR k' p n (rangeKeys c i q body hw).
Proof.
  intros Hbody.
  induction c as [|c IH]; intros i hw Hav; simpl; [done|].
  destruct (heap hw !! q ≫= _) as [k|]; [|done].
  apply avoidsR_bind; [by apply Hbody|]. intros. by apply IH.
Qed.

Lemma avoidsR_writeEntry get k hw :
  (∀ write, get k = Some write →
     ∀ hw, avoids k' p n hw → avoidsR k' p n (write hw)) →
  avoids k' p n hw → avoidsR k' p n (writeEntry get k hw).
Proof.
  intros Hget Hav. unfold writeEntry. cbv zeta.
  destruct (get k) as [write|] eqn:E; [|done].
  set (hwk := hWrite _ _). exact (Hget write eq_refl hwk Hav).
Qed.

Lemma avoidsR_writeMapHashWith ks get hw :
  ¬ In k' ks →
  (∀ k write, get k = Some write →
     ∀ hw, avoids k' p n hw → avoidsR k' p n (write hw)) →
  avoids k' p n hw →
  avoidsR k' p n (writeMapHashWith ks get hw).
Proof.
  intros Hnin Hget Hav. unfold writeMapHashWith.
  apply avoidsR_rangeKeys.
  - intros k hw' Hav'. apply avoidsR_writeEntry; [|done]. apply Hget.
  - by apply avoids_sortKeys, avoids_foldl_appendKey, avoids_truncateKeys.
Qed.

(** The encoder puts into the array no key but those of the maps of the
    value. *)
Lemma avoidsR_writeValueHash v :
  ¬ In k' (keysWithin v) →
  ∀ hw, avoids k' p n hw → avoidsR k' p n (writeValueHash v hw).
Proof.
  induction v as [|s|i|bits|b|m IHm|sl IHsl|b|t] using Value_nested_ind;
    intros Hnin hw Hav; try exact Hav.
  - destruct b; exact Hav.
  - rewrite writeValueHash_VMap.
    apply avoidsR_bind; [|intros hw' Hav'; exact Hav'].
    apply avoidsR_writeMapHashWith; [| |exact Hav].
    + intros Hin. apply Hnin. unfold keys in Hin.
      apply in_map_iff in Hin as ([k v] & Ek & Hin). simpl in Ek.
      rewrite <- Ek. exact (proj1 (keysWithin_entry m k v Hin)).
    + intros k write Hk. destruct (Get m k) as [v|] eqn:E; [|done].
      injection Hk as <-. apply Get_Some_In in E.
      rewrite Forall_forall in IHm.
      apply (IHm (k, v)); [by apply list_elem_of_In|].
      intros Hin. apply Hnin. exact (proj2 (keysWithin_entry m k v E) _ Hin).
  - rewrite writeValueHash_VSlice.
    apply avoidsR_bind; [|intros hw' Hav'; exact Hav'].
    assert (avoids k' p n (hWrite valSlicePrefix hw)) as Hav0 by exact Hav.
    revert Hav0. generalize (hWrite valSlicePrefix hw) as hw0.
    induction IHsl as [|x sl Hx _ IH]; intros hw0 Hav0; simpl; [done|].
    apply avoidsR_bind.
    + apply Hx; [|done]. intros Hin. apply Hnin.
      apply (keysWithin_element (x :: sl) x); [by left|done].
    + apply IH. intros Hin. apply Hnin. simpl in *.
      apply in_or_app. by right.
Qed.

(** Two loops whose bodies differ for the key [k'] alone do the same while
    the array they read does not hold [k']. *)
Lemma rangeKeys_avoiding body1 body2 :
  (∀ k hw, k ≠ k' → body1 k hw = body2 k hw) →
  (∀ k hw, k ≠ k' → avoids k' p n hw → avoidsR k' p n (body1 k hw)) →
  ∀ c i hw,
    (i + c ≤ n)%nat → avoids k' p n hw →
    rangeKeys c i p body1 hw = rangeKeys c i p body2 hw.
Proof.
  intros Heq Hbody.
  induction c as [|c IH]; intros i hw Hic Hav; simpl; [done|].
  destruct Hav as (arr & Ha & HB & HA). rewrite Ha. simpl.
  destruct (arr !! i) as [k|] eqn:Hk; [|done].
  assert (k ≠ k') as Hne.
  { intros ->. apply (HB i); [lia|done]. }
  rewrite <- (Heq k hw Hne).
  pose proof (Hbody k hw Hne) as Hr.
  destruct (body1 k hw) as [hw1|]; simpl; [|done].
  apply IH; [lia|]. apply Hr. by exists arr.
Qed.

End avoiding.

Section skipped_entry.
Context `{Runtime}.

(** The one occurrence of a key in a list. *)
Lemma lookup_once (l rest : list key) (k' : key) (i t : nat) :
  l ≡ₚ k' :: rest → ¬ In k' rest →
  l !! i = Some k' → l !! t = Some k' → t = i.
Proof.
  intros Hp Hnin Hi Ht.
  destruct (decide (t = i)) as [|Hne]; [done|]. exfalso. apply Hnin.
  rewrite <- (take_drop_middle l i k' Hi) in Hp.
  symmetry in Hp. apply Permutation_cons_app_inv in Hp.
  apply (Permutation_in _ (Permutation_sym Hp)).
  apply in_or_app.
  destruct (decide (t < i)%nat).
  - left. apply list_elem_of_In, (list_elem_of_lookup_2 _ t).
    by rewrite lookup_take_lt.
  - right. apply list_elem_of_In, (list_elem_of_lookup_2 _ (t - S i)).
    rewrite lookup_drop. by replace (S i + (t - S i))%nat with t by lia.
Qed.

(** [writeMapHash] on a map whose first value, in key order, is a map of
    two or more entries that fits the capacity: the value of the second
    key has no part in the call. *)
Lemma writeMapHash_skips_second m1 m2 k0 k' inner v1 v2 hw :
  wfHashWriter hw →
  sortStrings (keys (m1 ++ (k', v1) :: m2)) !! 0%nat = Some k0 →
  sortStrings (keys (m1 ++ (k', v1) :: m2)) !! 1%nat = Some k' →
  Get (m1 ++ m2) k0 = Some (VMap inner) →
  ¬ In k' (keys (m1 ++ m2)) →
  (2 ≤ length inner ≤ cap (keysBuf hw))%nat →
  (∀ k w, In (k, w) (m1 ++ m2) → ¬ In k' (keysWithin w)) →
  writeMapHash (m1 ++ (k', v1) :: m2) hw
  = writeMapHash (m1 ++ (k', v2) :: m2) hw.
Proof.
  intros Hwf H0 H1 Hk0 Hnin Hlen Hwithin.
  set (Ma := m1 ++ (k', v1) :: m2) in *.
  set (Mb := m1 ++ (k', v2) :: m2).
  assert (keys Mb = keys Ma) as Hkeys
    by (unfold Ma, Mb, keys; by rewrite !map_app).
  assert (∀ M k, (∃ v, M = m1 ++ (k', v) :: m2) → k ≠ k' →
            Get M k = Get (m1 ++ m2) k) as HGet.
  { intros M k [v ->] Hne. rewrite !Get_app. simpl.
    destruct (Get m1 k); [done|]. by rewrite decide_False. }
  assert (k0 ≠ k') as Hk0'.
  { intros ->. apply Hnin. apply Get_Some_In in Hk0.
    unfold keys. apply in_map_iff. by exists (k', VMap inner). }
  assert (In (k0, VMap inner) (m1 ++ m2)) as Hin0 by by apply Get_Some_In.
  unfold writeMapHash, writeMapHashWith. rewrite Hkeys.
  destruct (collect_sorted (keys Ma) hw Hwf)
    as (_ & Hwf2 & Hlen2 & arr2 & Ha2 & Ht2).
  pose proof (grown_trans _ _ _ _ _
                (grown_trans _ _ _ _ _ (grown_truncateKeys hw Hwf)
                   (grown_foldl_appendKey (keys Ma) _
                      (wfHashWriter_truncateKeys hw Hwf)))
                (grown_sortKeys _
                   (wfHashWriter_foldl_appendKey (keys Ma) _
                      (wfHashWriter_truncateKeys hw Hwf))))
    as (_ & Hcap2 & _).
  set (hw2 := sortKeys _) in *. clearbody hw2.
  set (n := length (keys Ma)) in *.
  assert (2 ≤ n)%nat as Hn.
  { apply lookup_lt_Some in H1. rewrite sortStrings_length in H1.
    unfold n. lia. }
  assert (Hwf2' := Hwf2). destruct Hwf2' as (arr2' & Ha2' & La2 & Hle2).
  rewrite Ha2 in Ha2'. injection Ha2' as <-.
  assert (∀ t, (t < n)%nat → arr2 !! t = sortStrings (keys Ma) !! t) as Hsk.
  { intros t Ht. rewrite <- Ht2. by rewrite lookup_take_lt. }
  assert (∀ t, (t < n)%nat → t ≠ 1%nat → arr2 !! t ≠ Some k') as Hother.
  { intros t Ht Hne E. rewrite Hsk in E by done. apply Hne.
    apply (lookup_once (sortStrings (keys Ma)) (keys (m1 ++ m2)) k' 1 t);
      try done.
    rewrite sortStrings_Permutation. unfold Ma, keys.
    rewrite !map_app. simpl. by rewrite Permutation_middle. }
  rewrite Hlen2. replace n with (S (n - 1)) by lia.
  cbn [rangeKeys]. rewrite Ha2. simpl mbind.
  rewrite (Hsk 0%nat) by lia. rewrite H0.
  assert (∀ M, (∃ v, M = m1 ++ (k', v) :: m2) →
            writeEntry (fun k => writeValueHash <$> Get M k) k0 hw2
            = writeEntry (fun k => writeValueHash <$> Get (m1 ++ m2) k) k0 hw2)
    as Hfirst.
  { intros M HM. unfold writeEntry. by rewrite (HGet M k0 HM Hk0'). }
  rewrite (Hfirst Ma) by by exists v1.
  rewrite (Hfirst Mb) by by exists v2.
  rewrite (writeEntry_Get _ k0 _ hw2 Hk0).
  set (hwk := hWrite (keyPrefix ++ k0) _).
  assert (avoidsR k' (ptr (keysBuf hw2)) n
            (writeValueHash (VMap inner) hwk)) as Hav.
  { rewrite writeValueHash_VMap.
    apply avoidsR_bind; [|intros hw' Hav'; exact Hav'].
    unfold writeMapHash, writeMapHashWith.
    assert (¬ In k' (keysWithin (VMap inner))) as Hki
      by by apply (Hwithin k0).
    apply avoidsR_rangeKeys.
    { intros k hw' Hav'. apply avoidsR_writeEntry; [|done].
      intros write Hk. destruct (Get inner k) as [w|] eqn:E; [|done].
      injection Hk as <-. apply Get_Some_In in E.
      apply avoidsR_writeValueHash.
      intros Hin. apply Hki. exact (proj2 (keysWithin_entry inner k w E) _ Hin). }
    destruct (collect_sorted_inplace (keys inner)
                (hWrite valMapPrefix hwk) arr2) as (Hp & Hc & Hh);
      try done.
    { rewrite keys_length.
      change (cap (keysBuf (hWrite valMapPrefix hwk)))
        with (cap (keysBuf hw2)). lia. }
    destruct (collect_sorted (keys inner) (hWrite valMapPrefix hwk))
      as (_ & _ & Hleni & _); [exact Hwf2|].
    set (hwc := sortKeys _) in *. clearbody hwc.
    change (ptr (keysBuf (hWrite valMapPrefix hwk)))
      with (ptr (keysBuf hw2)) in Hp, Hh.
    rewrite keys_length in Hh, Hleni.
    assert (∀ t, (sortStrings (keys inner) ++ drop (length inner) arr2) !! t
                 = Some k' → (length inner ≤ t)%nat ∧ arr2 !! t = Some k')
      as Hlk.
    { intros t [E|[Hge E]]%lookup_app_Some.
      - exfalso. apply Hki.
        apply list_elem_of_lookup_2, list_elem_of_In in E.
        apply (Permutation_in _ (sortStrings_Permutation _)) in E.
        unfold keys in E. apply in_map_iff in E as ([k w] & Ek & E).
        simpl in Ek. rewrite <- Ek. exact (proj1 (keysWithin_entry inner k w E)).
      - rewrite sortStrings_length, keys_length in Hge, E.
        rewrite lookup_drop in E.
        replace (length inner + (t - length inner))%nat with t in E by lia.
        done. }
    eexists. split; [exact Hh|]. split.
    - intros t Ht [Hge E]%Hlk. apply (Hother t); [done|lia|done].
    - intros _ t Ht [Hge E]%Hlk. lia. }
  destruct (writeValueHash (VMap inner) hwk) as [hw1|]; simpl bind; [|done].
  apply (rangeKeys_avoiding k' (ptr (keysBuf hw2)) n); try done; try lia.
  - intros k hw' Hne. unfold writeEntry.
    rewrite (HGet Ma k) by (by exists v1 || done).
    by rewrite (HGet Mb k) by (by exists v2 || done).
  - intros k hw' Hne Hav'. apply avoidsR_writeEntry; [|done].
    intros write Hk. rewrite (HGet Ma k) in Hk by (by exists v1 || done).
    destruct (Get (m1 ++ m2) k) as [w|] eqn:E; [|done].
    injection Hk as <-. apply Get_Some_In in E.
    apply avoidsR_writeValueHash. by apply (Hwithin k).
Qed.

End skipped_entry.

(** ** [ValueHash] of a map and [MapHash] *)

(** X1.  Hashing a map as a value feeds the map-open marker, then exactly
    the stream [MapHash] feeds for the same map on the same [hashWriter],
    then the map-close marker, whatever the [hashWriter] and the map, and it
    panics exactly when [MapHash] does; the digests are the sums of the
    two streams. *)
Theorem ValueHash_of_map_wraps_MapHash `{Runtime}
    (hw : hashWriter) (m : Map) :
  ValueHashStream hw (VMap m)
  = (s <- MapHashStream hw m ;; Ok (valMapPrefix ++ s ++ valMapSuffix))
  ∧ digest (ValueHash hw (VMap m))
    = (s <- MapHashStream hw m ;;
       Ok (sum128 (valMapPrefix ++ s ++ valMapSuffix)))
  ∧ digest (MapHash hw m) = (s <- MapHashStream hw m ;; Ok (sum128 s)).
Proof.
  assert (ValueHashStream hw (VMap m)
          = (s <- MapHashStream hw m ;; Ok (valMapPrefix ++ s ++ valMapSuffix)))
    as Hs.
  { unfold ValueHashStream, MapHashStream. rewrite writeValueHash_VMap.
    set (hw0 := set_h (xxhash.Reset (h hw)) hw).
    assert (inStep valMapPrefix [] (hWrite valMapPrefix hw0) hw0) as Hstep.
    { repeat split. by exists []. }
    apply (inStep_writeMapHash _ _ m) in Hstep.
    destruct (writeMapHash m (hWrite valMapPrefix hw0)) as [a|],
      (writeMapHash m hw0) as [b|]; simpl in *; try done.
    destruct Hstep as (_ & _ & s & Fa & Fb). unfold fed in *. simpl.
    by rewrite Fa, Fb. }
  split; [exact Hs|]. split.
  - rewrite ValueHash_digest, Hs. by destruct (MapHashStream hw m).
  - apply MapHash_digest.
Qed.

(** ** What of a [hashWriter] the digest depends on *)

(** X2.  Of the [hashWriter] the pool hands out, only [keysBuf] and the
    key arrays can reach the digest: what earlier calls have left in the
    accumulator, in [strBuf], in [sumHash] and in [numBuf] changes neither
    the digest of a value or map nor whether the call panics. *)
Theorem digest_ignores_scratch_buffers `{Runtime}
    (hw1 hw2 : hashWriter) (v : Value) (m : Map) :
  keysBuf hw1 = keysBuf hw2 →
  heap hw1 = heap hw2 →
  digest (ValueHash hw1 v) = digest (ValueHash hw2 v)
  ∧ digest (MapHash hw1 m) = digest (MapHash hw2 m).
Proof.
  intros Hk Hh.
  assert (inStep [] [] (set_h (xxhash.Reset (h hw1)) hw1)
            (set_h (xxhash.Reset (h hw2)) hw2)) as Hstep.
  { repeat split; try done. by exists []. }
  split.
  - rewrite !ValueHash_digest. unfold ValueHashStream.
    apply (inStep_writeValueHash _ _ v) in Hstep.
    destruct (writeValueHash v _) as [a|], (writeValueHash v _) as [b|];
      simpl in *; try done.
    destruct Hstep as (_ & _ & s & -> & ->). done.
  - rewrite !MapHash_digest. unfold MapHashStream.
    apply (inStep_writeMapHash _ _ m) in Hstep.
    destruct (writeMapHash m _) as [a|], (writeMapHash m _) as [b|];
      simpl in *; try done.
    destruct Hstep as (_ & _ & s & -> & ->). done.
Qed.

Lemma digest_ignores_scratch_buffers_witness :
  keysBuf newHashWriter = keysBuf leftovers
  ∧ heap newHashWriter = heap leftovers
  ∧ digest (ValueHash (H:=doubling) newHashWriter (VMap nested17))
    = digest (ValueHash (H:=doubling) leftovers (VMap nested17))
  ∧ digest (MapHash (H:=doubling) newHashWriter nested17)
    = digest (MapHash (H:=doubling) leftovers nested17).
Proof.
  split; [reflexivity|]. split; [reflexivity|].
  exact (digest_ignores_scratch_buffers (H:=doubling) newHashWriter leftovers
           (VMap nested17) nested17 eq_refl eq_refl).
Defined.

(** ** Maps that hold a key twice *)

(** X3.  [writeMapHash] reads a map through [Range] for the keys and [Get]
    for the values, and [Get] returns the first entry of a key: of an
    entry whose key an earlier entry holds the value is never hashed, so
    replacing it by any other value changes nothing of the call. *)
Theorem MapHash_never_reads_shadowed_value `{Runtime}
    (hw : hashWriter) (m1 m2 : Map) (k : key) (v v' : Value) :
  In k (keys m1) →
  MapHash hw (m1 ++ (k, v) :: m2) = MapHash hw (m1 ++ (k, v') :: m2).
Proof.
  intros Hin. unfold MapHash, writeMapHash.
  assert (keys (m1 ++ (k, v) :: m2) = keys (m1 ++ (k, v') :: m2)) as ->
    by (unfold keys; by rewrite !map_app).
  erewrite writeMapHashWith_ext; [reflexivity|].
  intros k0. simpl. rewrite !Get_app. simpl.
  destruct (Get m1 k0) as [w|] eqn:E; [done|].
  destruct (decide (k = k0)) as [->|]; [|done].
  by apply Get_None_keys in E.
Qed.

Lemma MapHash_never_reads_shadowed_value_witness :
  In (str "a") (keys [(str "a", VInt 1)])
  ∧ MapHash (H:=doubling) newHashWriter
      ([(str "a", VInt 1)] ++ (str "a", VInt 2) :: [(str "b", VEmpty)])
    = MapHash (H:=doubling) newHashWriter
        ([(str "a", VInt 1)] ++ (str "a", VStr (str "x")) :: [(str "b", VEmpty)]).
Proof.
  assert (In (str "a") (keys [(str "a", VInt 1)])) as Hin by (left; reflexivity).
  split; [exact Hin|].
  exact (MapHash_never_reads_shadowed_value (H:=doubling) newHashWriter
           [(str "a", VInt 1)] [(str "b", VEmpty)] (str "a") (VInt 2)
           (VStr (str "x")) Hin).
Defined.

(** ** Order of insertion at every depth *)

Lemma sortStrings_idempotent l : sortStrings (sortStrings l) = sortStrings l.
Proof. apply sortStrings_perm, sortStrings_Permutation. Qed.

Lemma keys_normalEntries m ks : keys (normalEntries m ks) = ks.
Proof.
  unfold keys, normalEntries. rewrite map_map. simpl. apply map_id.
Qed.

Lemma Get_normalEntries m ks k :
  In k ks →
  Get (normalEntries m ks) k = Some (from_option normalize VEmpty (Get m k)).
Proof.
  induction ks as [|k' ks IH]; simpl; [done|].
  destruct (decide (k' = k)) as [->|Hne]; [done|].
  intros [?|Hin]; [done|]. by apply IH.
Qed.

(** Putting the entries of every map in key order does not change the
    canonical encoding. *)
Lemma canonical_normalize v : canonical (normalize v) = canonical v.
Proof.
  induction v as [|s|i|bits|b|m IHm|sl IHsl|b|t] using Value_nested_ind;
    try reflexivity.
  - rewrite normalize_VMap, !canonical_VMap, keys_normalEntries,
      sortStrings_idempotent.
    do 2 f_equal.
    assert (∀ ks, (∀ k, In k ks → In k (sortStrings (keys m))) →
              canonicalEntries (normalEntries m (sortStrings (keys m))) ks
              = canonicalEntries m ks) as Hks.
    { induction ks as [|k ks IH]; intros Hsub; [done|].
      rewrite !canonicalEntries_cons, IH by (intros; apply Hsub; by right).
      rewrite Get_normalEntries by (apply Hsub; by left).
      destruct (sortStrings_keys_Get m k) as (v & Hv & Hin);
        [apply Hsub; by left|].
      rewrite Hv. simpl. rewrite Forall_forall in IHm.
      specialize (IHm (k, v)). simpl in IHm.
      by rewrite IHm by by apply list_elem_of_In. }
    by apply Hks.
  - simpl. do 2 f_equal. induction IHsl as [|x sl Hx _ IH]; simpl; [done|].
    by rewrite Hx, IH.
Qed.

(** X4.  On values free of aliasing the digest does not depend on the
    order in which the entries of any map, at any depth, were inserted:
    two such values with the same normal form get the same digest, from
    whichever well-formed [hashWriter]s. *)
Theorem ValueHash_order_independent_at_every_depth `{Runtime}
    (hw1 hw2 : hashWriter) (v1 v2 : Value) :
  wfHashWriter hw1 → wfHashWriter hw2 →
  aliasFree v1 = true → aliasFree v2 = true →
  normalize v1 = normalize v2 →
  ValueHash hw1 v1 ≠ Panic
  ∧ digest (ValueHash hw1 v1) = digest (ValueHash hw2 v2).
Proof.
  intros Hw1 Hw2 A1 A2 Hn.
  assert (digest (ValueHash hw1 v1) = digest (ValueHash hw2 v2)) as Hd.
  { rewrite !ValueHash_digest, !ValueHashStream_canonical by done.
    by rewrite <- (canonical_normalize v1), Hn, canonical_normalize. }
  split; [|exact Hd]. intros E.
  pose proof (ValueHash_digest hw1 v1) as Hv.
  rewrite E, ValueHashStream_canonical in Hv by done. discriminate.
Qed.

Lemma ValueHash_order_independent_at_every_depth_witness :
  wfHashWriter newHashWriter
  ∧ aliasFree (VSlice [VMap [(str "a", VInt 1); (str "b", VInt 2)]]) = true
  ∧ aliasFree (VSlice [VMap [(str "b", VInt 2); (str "a", VInt 1)]]) = true
  ∧ normalize (VSlice [VMap [(str "a", VInt 1); (str "b", VInt 2)]])
    = normalize (VSlice [VMap [(str "b", VInt 2); (str "a", VInt 1)]])
  ∧ digest (ValueHash (H:=doubling) newHashWriter
              (VSlice [VMap [(str "a", VInt 1); (str "b", VInt 2)]]))
    = digest (ValueHash (H:=doubling) newHashWriter
                (VSlice [VMap [(str "b", VInt 2); (str "a", VInt 1)]])).
Proof.
  assert (wfHashWriter newHashWriter) as Hwf.
  { exists (replicate 16 []). repeat split. simpl. lia. }
  split; [exact Hwf|]. do 3 (split; [reflexivity|]).
  exact (proj2 (ValueHash_order_independent_at_every_depth (H:=doubling)
                  newHashWriter newHashWriter
                  (VSlice [VMap [(str "a", VInt 1); (str "b", VInt 2)]])
                  (VSlice [VMap [(str "b", VInt 2); (str "a", VInt 1)]])
                  Hwf Hwf eq_refl eq_refl eq_refl)).
Defined.

(** ** Capacity and allocation *)

Lemma MapHash_grown `{Runtime} hw m d hw' :
  wfHashWriter hw → MapHash hw m = Ok (d, hw') →
  grown (maxKeys (VMap m)) hw hw'.
Proof.
  intros Hwf E. unfold MapHash in E.
  apply bind_Ok in E as (hw1 & E1 & [= _ <-]).
  pose proof (grownR_writeMapHash m (set_h (xxhash.Reset (h hw)) hw) Hwf) as G.
  rewrite E1 in G. exact G.
Qed.

Lemma ValueHash_grown `{Runtime} hw v d hw' :
  wfHashWriter hw → ValueHash hw v = Ok (d, hw') →
  grown (maxKeys v) hw hw'.
Proof.
  intros Hwf E. unfold ValueHash in E.
  apply bind_Ok in E as (hw1 & E1 & [= _ <-]).
  pose proof (grownR_writeValueHash v (set_h (xxhash.Reset (h hw)) hw) Hwf) as G.
  rewrite E1 in G. exact G.
Qed.

(** X5.  A call that returns, whatever well-formed [hashWriter] it has
    drawn, returns it well-formed and never with less capacity than it
    had; and when no map of the input has more entries than that capacity
    the call allocates no key array: it returns the [hashWriter] with the
    array it took it with. *)
Theorem hashWriter_keeps_its_key_array `{Runtime}
    (hw : hashWriter) (m : Map) (v : Value) :
  wfHashWriter hw →
  (∀ d hw', MapHash hw m = Ok (d, hw') →
     wfHashWriter hw'
     ∧ (cap (keysBuf hw) ≤ cap (keysBuf hw'))%nat
     ∧ ((maxKeys (VMap m) ≤ cap (keysBuf hw))%nat → reuses hw hw'))
  ∧ (∀ d hw', ValueHash hw v = Ok (d, hw') →
       wfHashWriter hw'
       ∧ (cap (keysBuf hw) ≤ cap (keysBuf hw'))%nat
       ∧ ((maxKeys v ≤ cap (keysBuf hw))%nat → reuses hw hw')).
Proof.
  intros Hwf. split.
  - intros d hw' E. by apply MapHash_grown in E as (Hwf' & Hc & _ & Hr).
  - intros d hw' E. by apply ValueHash_grown in E as (Hwf' & Hc & _ & Hr).
Qed.

Lemma hashWriter_keeps_its_key_array_witness :
  wfHashWriter newHashWriter
  ∧ ∀ d hw', MapHash (H:=doubling) newHashWriter nested2 = Ok (d, hw') →
      wfHashWriter hw'
      ∧ (cap (keysBuf newHashWriter) ≤ cap (keysBuf hw'))%nat
      ∧ ((maxKeys (VMap nested2) ≤ cap (keysBuf newHashWriter))%nat →
         reuses newHashWriter hw').
Proof.
  assert (wfHashWriter newHashWriter) as Hwf.
  { exists (replicate 16 []). repeat split. simpl. lia. }
  split; [exact Hwf|].
  exact (proj1 (hashWriter_keeps_its_key_array (H:=doubling)
                  newHashWriter nested2 VEmpty Hwf)).
Defined.

Lemma MapHashStream_canonicalEntries `{Runtime} hw m :
  wfHashWriter hw → aliasFree (VMap m) = true →
  MapHashStream hw m = Ok (canonicalEntries m (sortStrings (keys m))).
Proof.
  intros Hwf Haf. unfold MapHashStream.
  apply aliasFree_VMap in Haf as [Hall Hmax].
  destruct (writeMapHash_entries m (set_h (xxhash.Reset (h hw)) hw))
    as (hw' & Hrun & _ & Hfed & _); try done.
  - intros k v Hin. by apply aliasFree_runsCanonically, (Hall k).
  - rewrite Hrun. simpl. by rewrite Hfed.
Qed.

(** X6.  On inputs free of aliasing neither the [hashWriter] the call
    draws nor the growth rule of [append] has a part in the result: with
    any well-formed [hashWriter], new or used, under any growth rule, the
    call returns, and the digest is the sum of the canonical encoding of
    the input. *)
Theorem pool_has_no_part_in_alias_free_digests
    (H1 H2 : Runtime) (hw1 hw2 : hashWriter) (v : Value) (m : Map) :
  wfHashWriter hw1 → wfHashWriter hw2 →
  aliasFree v = true → aliasFree (VMap m) = true →
  digest (ValueHash (H:=H1) hw1 v) = Ok (sum128 (canonical v))
  ∧ digest (ValueHash (H:=H2) hw2 v) = digest (ValueHash (H:=H1) hw1 v)
  ∧ digest (MapHash (H:=H1) hw1 m)
    = Ok (sum128 (canonicalEntries m (sortStrings (keys m))))
  ∧ digest (MapHash (H:=H2) hw2 m) = digest (MapHash (H:=H1) hw1 m).
Proof.
  intros W1 W2 Av Am.
  rewrite !ValueHash_digest, !MapHash_digest.
  rewrite !ValueHashStream_canonical, !MapHashStream_canonicalEntries by done.
  done.
Qed.

Lemma pool_has_no_part_in_alias_free_digests_witness :
  wfHashWriter newHashWriter
  ∧ wfHashWriter afterNested17
  ∧ aliasFree (VMap nested2) = true
  ∧ digest (ValueHash (H:=doubling) afterNested17 (VMap nested2))
    = digest (ValueHash (H:=doubling) newHashWriter (VMap nested2))
  ∧ digest (MapHash (H:=doubling) afterNested17 nested2)
    = digest (MapHash (H:=doubling) newHashWriter nested2).
Proof.
  assert (wfHashWriter newHashWriter) as Hwf.
  { exists (replicate 16 []). repeat split. simpl. lia. }
  assert (wfHashWriter afterNested17) as Hwf'.
  { apply (pooled_wfHashWriter (H:=doubling)).
    apply (pooled_MapHash (H:=doubling) newHashWriter nested17 digestNested17
             afterNested17 pooled_new).
    vm_compute. reflexivity. }
  split; [exact Hwf|]. split; [exact Hwf'|]. split; [reflexivity|].
  pose proof (pool_has_no_part_in_alias_free_digests doubling doubling
                newHashWriter afterNested17 (VMap nested2) nested2
                Hwf Hwf' eq_refl eq_refl) as (_ & Hv & _ & Hm).
  split; [exact Hv | exact Hm].
Defined.

(** ** A nested map larger than its position *)

(** X7.  [writeMapHash] truncates and refills the one [keysBuf] while the
    loop of an enclosing call is still reading it.  So when the value of
    the key at position [i], in key order, of a map is itself a map with
    more than [i + 1] entries that fits the capacity, and the key at
    position [i + 1] of the nested map is not a key of the outer one, the
    outer loop reads that key next, [Get] finds no entry for it, and
    [MapHash] and [ValueHash] panic.  (The values before position [i] and
    the nested map are free of aliasing, and no map within the values of
    the nested map has more than [i + 1] entries.) *)
Theorem nested_map_makes_MapHash_panic `{Runtime}
    (hw : hashWriter) (m inner : Map) (i : nat) (k j : key) :
  wfHashWriter hw →
  (∀ t k' v', (t < i)%nat →
     sortStrings (keys m) !! t = Some k' → Get m k' = Some v' →
     aliasFree v' = true ∧ (maxKeys v' ≤ S t)%nat) →
  (S i < length m)%nat →
  sortStrings (keys m) !! i = Some k →
  Get m k = Some (VMap inner) →
  aliasFree (VMap inner) = true →
  (∀ k' v', In (k', v') inner → (maxKeys v' ≤ S i)%nat) →
  (length inner ≤ cap (keysBuf hw))%nat →
  sortStrings (keys inner) !! S i = Some j →
  Get m j = None →
  MapHash hw m = Panic ∧ ValueHash hw (VMap m) = Panic.
Proof.
  intros Hwf Hbefore Hi Hk Hv Haf Hin Hcap Hj Hnone. split.
  - unfold MapHash.
    rewrite (writeMapHash_nested_Panic (set_h (xxhash.Reset (h hw)) hw)
               m i k inner j); done.
  - unfold ValueHash. rewrite writeValueHash_VMap.
    rewrite (writeMapHash_nested_Panic
               (hWrite valMapPrefix (set_h (xxhash.Reset (h hw)) hw))
               m i k inner j); done.
Qed.

Lemma nested_map_makes_MapHash_panic_witness :
  wfHashWriter newHashWriter
  ∧ (1 < length nested22)%nat
  ∧ sortStrings (keys nested22) !! 0%nat = Some (str "a")
  ∧ Get nested22 (str "a")
    = Some (VMap [(str "x", VInt 1); (str "y", VInt 2)])
  ∧ aliasFree (VMap [(str "x", VInt 1); (str "y", VInt 2)]) = true
  ∧ (length [(str "x", VInt 1); (str "y", VInt 2)]
     ≤ cap (keysBuf newHashWriter))%nat
  ∧ sortStrings (keys [(str "x", VInt 1); (str "y", VInt 2)]) !! 1%nat
    = Some (str "y")
  ∧ Get nested22 (str "y") = None
  ∧ MapHash (H:=doubling) newHashWriter nested22 = Panic
  ∧ ValueHash (H:=doubling) newHashWriter (VMap nested22) = Panic.
Proof.
  assert (wfHashWriter newHashWriter) as Hwf.
  { exists (replicate 16 []). repeat split. simpl. lia. }
  assert (1 < length nested22)%nat as Hlen by (simpl; lia).
  assert (length [(str "x", VInt 1); (str "y", VInt 2)]
          ≤ cap (keysBuf newHashWriter))%nat as Hcap by (simpl; lia).
  assert (∀ t k' v', (t < 0)%nat →
            sortStrings (keys nested22) !! t = Some k' →
            Get nested22 k' = Some v' →
            aliasFree v' = true ∧ (maxKeys v' ≤ S t)%nat) as Hbefore
    by (intros; lia).
  assert (∀ k' v', In (k', v') [(str "x", VInt 1); (str "y", VInt 2)] →
            (maxKeys v' ≤ 1)%nat) as Hin.
  { intros k' v' [[= _ <-]|[[= _ <-]|[]]]; simpl; lia. }
  split; [exact Hwf|]. split; [exact Hlen|]. do 3 (split; [reflexivity|]).
  split; [exact Hcap|]. do 2 (split; [reflexivity|]).
  exact (nested_map_makes_MapHash_panic (H:=doubling) newHashWriter nested22
           [(str "x", VInt 1); (str "y", VInt 2)] 0 (str "a") (str "y")
           Hwf Hbefore Hlen eq_refl eq_refl eq_refl Hin Hcap eq_refl eq_refl).
Defined.

(** ** The keys [writeMapHash] collects *)



(** ** Numbers *)

(** X9.  An [Int] is fed as its marker and eight bytes from which the
    integer reads back, little-endian and converted to [int64]; a
    [Double] as its marker and the eight bytes from which its bit pattern
    reads back. *)
Theorem number_payload_round_trip `{Runtime}
    (hw : hashWriter) (i bits : Z) :
  - 2 ^ 63 ≤ i < 2 ^ 63 →
  0 ≤ bits < 2 ^ 64 →
  ∃ p q,
    ValueHashStream hw (VInt i) = Ok (valIntPrefix ++ p)
    ∧ length p = 8%nat
    ∧ int64 (xxhash.le p) = i
    ∧ ValueHashStream hw (VDouble bits) = Ok (valDoublePrefix ++ q)
    ∧ length q = 8%nat
    ∧ xxhash.le q = bits.
Proof.
  intros Hi Hb. exists (PutUint64 (uint64 i)), (PutUint64 bits).
  split; [reflexivity|]. split; [reflexivity|]. split.
  - rewrite le_PutUint64. fold (uint64 (uint64 i)).
    unfold uint64 at 1. rewrite Z.mod_small; [by apply int64_uint64|].
    unfold uint64. apply Z.mod_pos_bound. lia.
  - split; [reflexivity|]. split; [reflexivity|].
    rewrite le_PutUint64. apply Z.mod_small. lia.
Qed.

Lemma number_payload_round_trip_witness :
  - 2 ^ 63 ≤ -2 < 2 ^ 63
  ∧ 0 ≤ 0x7FF8000000000001 < 2 ^ 64
  ∧ ∃ p q,
      ValueHashStream (H:=doubling) newHashWriter (VInt (-2))
      = Ok (valIntPrefix ++ p)
      ∧ length p = 8%nat
      ∧ int64 (xxhash.le p) = -2
      ∧ ValueHashStream (H:=doubling) newHashWriter
          (VDouble 0x7FF8000000000001)
        = Ok (valDoublePrefix ++ q)
      ∧ length q = 8%nat
      ∧ xxhash.le q = 0x7FF8000000000001.
Proof.
  assert (- 2 ^ 63 ≤ -2 < 2 ^ 63) as Hi by lia.
  assert (0 ≤ 0x7FF8000000000001 < 2 ^ 64) as Hb by lia.
  split; [exact Hi|]. split; [exact Hb|].
  exact (number_payload_round_trip (H:=doubling) newHashWriter (-2)
           0x7FF8000000000001 Hi Hb).
Defined.

(** X10.  Two different integers whose eight bytes end in the same byte,
    such as any two that are at least 0 and less than [2 ^ 56], never get
    the same digest. *)
Theorem ints_sharing_top_byte_hash_differently `{Runtime}
    (hw1 hw2 : hashWriter) (i j : Z) :
  - 2 ^ 63 ≤ i < 2 ^ 63 →
  - 2 ^ 63 ≤ j < 2 ^ 63 →
  topByte (uint64 i) = topByte (uint64 j) →
  i ≠ j →
  digest (ValueHash hw1 (VInt i)) ≠ digest (ValueHash hw2 (VInt j)).
Proof.
  intros Hi Hj Et Hne.
  assert (∀ hw x, ValueHashStream hw (VInt x)
                  = Ok ([xfa] ++ PutUint64 (uint64 x))) as Hs by reflexivity.
  rewrite !ValueHash_digest, !Hs. unfold bind. intros E%Ok_inj.
  apply sum128_number_inj in E; [|apply Z.mod_pos_bound; reflexivity..|done].
  apply Hne. by rewrite <- (int64_uint64 i), <- (int64_uint64 j), E.
Qed.

Lemma ints_sharing_top_byte_hash_differently_witness :
  - 2 ^ 63 ≤ 1 < 2 ^ 63
  ∧ - 2 ^ 63 ≤ 72057594037927935 < 2 ^ 63
  ∧ topByte (uint64 1) = topByte (uint64 72057594037927935)
  ∧ 1 ≠ 72057594037927935
  ∧ digest (ValueHash (H:=doubling) newHashWriter (VInt 1))
    ≠ digest (ValueHash (H:=doubling) newHashWriter (VInt 72057594037927935)).
Proof.
  assert (- 2 ^ 63 ≤ 1 < 2 ^ 63) as Hi by lia.
  assert (- 2 ^ 63 ≤ 72057594037927935 < 2 ^ 63) as Hj by lia.
  assert (1 ≠ 72057594037927935) as Hne by lia.
  split; [exact Hi|]. split; [exact Hj|]. split; [reflexivity|].
  split; [exact Hne|].
  exact (ints_sharing_top_byte_hash_differently (H:=doubling)
           newHashWriter newHashWriter 1 72057594037927935
           Hi Hj eq_refl Hne).
Defined.

(** X11.  Two doubles with the same sign and the same seven leading
    exponent bits, and different bit patterns, never get the same
    digest. *)
Theorem doubles_sharing_top_byte_hash_differently `{Runtime}
    (hw1 hw2 : hashWriter) (bits1 bits2 : Z) :
  0 ≤ bits1 < 2 ^ 64 →
  0 ≤ bits2 < 2 ^ 64 →
  topByte bits1 = topByte bits2 →
  bits1 ≠ bits2 →
  digest (ValueHash hw1 (VDouble bits1)) ≠ digest (ValueHash hw2 (VDouble bits2)).
Proof.
  intros H1 H2 Et Hne.
  assert (∀ hw x, ValueHashStream hw (VDouble x)
                  = Ok ([xfb] ++ PutUint64 x)) as Hs by reflexivity.
  rewrite !ValueHash_digest, !Hs. unfold bind. intros E%Ok_inj.
  by apply sum128_number_inj in E.
Qed.

Lemma doubles_sharing_top_byte_hash_differently_witness :
  0 ≤ 0x3FF0000000000000 < 2 ^ 64
  ∧ 0 ≤ 0x3FF0000000000001 < 2 ^ 64
  ∧ topByte 0x3FF0000000000000 = topByte 0x3FF0000000000001
  ∧ 0x3FF0000000000000 ≠ 0x3FF0000000000001
  ∧ digest (ValueHash (H:=doubling) newHashWriter (VDouble 0x3FF0000000000000))
    ≠ digest (ValueHash (H:=doubling) newHashWriter
                (VDouble 0x3FF0000000000001)).
Proof.
  assert (0 ≤ 0x3FF0000000000000 < 2 ^ 64) as H1 by lia.
  assert (0 ≤ 0x3FF0000000000001 < 2 ^ 64) as H2 by lia.
  assert (0x3FF0000000000000 ≠ 0x3FF0000000000001) as Hne by lia.
  split; [exact H1|]. split; [exact H2|]. split; [reflexivity|].
  split; [exact Hne|].
  exact (doubles_sharing_top_byte_hash_differently (H:=doubling)
           newHashWriter newHashWriter 0x3FF0000000000000 0x3FF0000000000001
           H1 H2 eq_refl Hne).
Defined.

(** ** The two halves of the digest *)

(** X12.  [hashSum128] loses nothing of the two sums it is made of: two
    [hashWriter]s get the same sixteen bytes exactly when their
    accumulators have the same sum before the extra byte and the same sum
    after it. *)
Theorem hashSum128_tells_both_sums (hw1 hw2 : hashWriter) :
  (hashSum128 hw1).1 = (hashSum128 hw2).1
  ↔ xxhash.Sum64 (h hw1) = xxhash.Sum64 (h hw2)
    ∧ xxhash.Sum64 (xxhash.Write (h hw1) extraByte)
      = xxhash.Sum64 (xxhash.Write (h hw2) extraByte).
Proof.
  assert (∀ hw, (hashSum128 hw).1
                = xxhash.be8 (xxhash.Sum64 (h hw))
                  ++ xxhash.be8 (xxhash.Sum64 (xxhash.Write (h hw) extraByte)))
    as Hd by reflexivity.
  rewrite !Hd. split.
  - intros E. apply app_inj_1 in E as [E1 E2]; [|reflexivity].
    apply be8_inj in E1; try apply sum64_w64.
    apply be8_inj in E2; try apply sum64_w64. done.
  - by intros [-> ->].
Qed.

(** ** Maps that hold no maps *)

(** X13.  A map whose values hold no maps, and any value in which no map
    lies within another, is out of reach of the aliasing of [keysBuf]:
    with any well-formed [hashWriter] the call returns, and the digest is
    the sum of the canonical encoding. *)
Theorem flat_maps_hash_canonically `{Runtime}
    (hw : hashWriter) (v : Value) (m : Map) :
  wfHashWriter hw →
  flatMaps v = true →
  flatMaps (VMap m) = true →
  digest (ValueHash hw v) = Ok (sum128 (canonical v))
  ∧ digest (MapHash hw m)
    = Ok (sum128 (canonicalEntries m (sortStrings (keys m)))).
Proof.
  intros Hwf Fv%flatMaps_aliasFree Fm%flatMaps_aliasFree.
  rewrite ValueHash_digest, MapHash_digest.
  by rewrite ValueHashStream_canonical, MapHashStream_canonicalEntries.
Qed.

Lemma flat_maps_hash_canonically_witness :
  wfHashWriter newHashWriter
  ∧ flatMaps (VSlice [VMap attrs17; VMap attrs17]) = true
  ∧ flatMaps (VMap attrs17) = true
  ∧ digest (ValueHash (H:=doubling) newHashWriter
              (VSlice [VMap attrs17; VMap attrs17]))
    = Ok (sum128 (canonical (VSlice [VMap attrs17; VMap attrs17])))
  ∧ digest (MapHash (H:=doubling) newHashWriter attrs17)
    = Ok (sum128 (canonicalEntries attrs17 (sortStrings (keys attrs17)))).
Proof.
  assert (wfHashWriter newHashWriter) as Hwf.
  { exists (replicate 16 []). repeat split. simpl. lia. }
  split; [exact Hwf|]. do 2 (split; [reflexivity|]).
  exact (flat_maps_hash_canonically (H:=doubling) newHashWriter
           (VSlice [VMap attrs17; VMap attrs17]) attrs17
           Hwf eq_refl eq_refl).
Defined.

(** ** An entry the hash never reads *)

(** X14.  When the value of the first key, in key order, of a map is
    itself a map of two or more entries that fits the capacity, the nested
    call overwrites the second key of the outer map before the outer loop
    has read it.  If no map within the other values holds that key, the
    loop never reads it again: its entry is not hashed, and two maps that
    differ in the value of that key alone get the same outcome from
    [MapHash] and from [ValueHash], digest included. *)
Theorem nested_map_makes_MapHash_skip_an_entry `{Runtime}
    (hw : hashWriter) (m1 m2 inner : Map) (k0 k' : key) (v1 v2 : Value) :
  wfHashWriter hw →
  sortStrings (keys (m1 ++ (k', v1) :: m2)) !! 0%nat = Some k0 →
  sortStrings (keys (m1 ++ (k', v1) :: m2)) !! 1%nat = Some k' →
  Get (m1 ++ m2) k0 = Some (VMap inner) →
  ¬ In k' (keys (m1 ++ m2)) →
  (2 ≤ length inner ≤ cap (keysBuf hw))%nat →
  (∀ k w, In (k, w) (m1 ++ m2) → ¬ In k' (keysWithin w)) →
  MapHash hw (m1 ++ (k', v1) :: m2) = MapHash hw (m1 ++ (k', v2) :: m2)
  ∧ ValueHash hw (VMap (m1 ++ (k', v1) :: m2))
    = ValueHash hw (VMap (m1 ++ (k', v2) :: m2)).
Proof.
  intros Hwf H0 H1 Hk0 Hnin Hlen Hwithin. split.
  - unfold MapHash.
    by rewrite (writeMapHash_skips_second m1 m2 k0 k' inner v1 v2).
  - unfold ValueHash. rewrite !writeValueHash_VMap.
    by rewrite (writeMapHash_skips_second m1 m2 k0 k' inner v1 v2).
Qed.

Lemma nested_map_makes_MapHash_skip_an_entry_witness :
  wfHashWriter newHashWriter
  ∧ sortStrings (keys (nested23 (VInt 0))) !! 0%nat = Some (str "a")
  ∧ sortStrings (keys (nested23 (VInt 0))) !! 1%nat = Some (str "b")
  ∧ (2 ≤ length [(str "a", VInt 1); (str "c", VInt 2)]
     ≤ cap (keysBuf newHashWriter))%nat
  ∧ MapHash (H:=doubling) newHashWriter (nested23 (VInt 0)) ≠ Panic
  ∧ MapHash (H:=doubling) newHashWriter (nested23 (VInt 0))
    = MapHash (H:=doubling) newHashWriter (nested23 (VStr (str "other"))).
Proof.
  assert (wfHashWriter newHashWriter) as Hwf.
  { exists (replicate 16 []). repeat split. simpl. lia. }
  assert (2 ≤ length [(str "a", VInt 1); (str "c", VInt 2)]
          ≤ cap (keysBuf newHashWriter))%nat as Hlen by (simpl; lia).
  assert (¬ In (str "b")
            (keys ([(str "a", VMap [(str "a", VInt 1); (str "c", VInt 2)])]
                   ++ [(str "c", VInt 3)]))) as Hnin.
  { simpl. intros [E|[E|[]]]; discriminate E. }
  assert (∀ k w,
            In (k, w)
              ([(str "a", VMap [(str "a", VInt 1); (str "c", VInt 2)])]
               ++ [(str "c", VInt 3)]) →
            ¬ In (str "b") (keysWithin w)) as Hwithin.
  { intros k w [[= _ <-]|[[= _ <-]|[]]]; simpl.
    - intros [E|[E|[]]]; discriminate E.
    - intros []. }
  split; [exact Hwf|]. do 2 (split; [reflexivity|]). split; [exact Hlen|].
  split; [vm_compute; discriminate|].
  exact (proj1 (nested_map_makes_MapHash_skip_an_entry (H:=doubling)
                  newHashWriter
                  [(str "a", VMap [(str "a", VInt 1); (str "c", VInt 2)])]
                  [(str "c", VInt 3)]
                  [(str "a", VInt 1); (str "c", VInt 2)]
                  (str "a") (str "b") (VInt 0) (VStr (str "other"))
                  Hwf eq_refl eq_refl eq_refl Hnin Hlen Hwithin)).
Defined.
